(** * DFSM.js: deterministic finite-state machines

    A shallow embedding of the [DFSM] class of the repository and the
    verification of its documented properties.

    Two versions of the class are embedded first:
    - [src/DFSM.ts] (compiled to [js/DFSM.js]): the constructor completes the
      short-hand entries of the table ([complete_δ]), validates [q0] and [F],
      and then runs [#δ_final_check], which checks the completed table and
      collects the sink nodes.  It lives at the top level of this file.
    - the single-pass variant of the class, whose private [#complete_δ] walks
      [Q], validates and completes every entry and collects the sink nodes on
      the way.  It lives in [Module SinglePass].

    Modelling conventions.
    - States and symbols are JavaScript strings, here [string]; the
      characters of an input are the characters of a [string].
    - A JavaScript object used as a table is the association list of its own
      enumerable properties, in the order [Object.keys] lists them; [get]
      reads an own property and [set] defines one.  The objects of the
      caller are those an object literal creates: their prototype is
      [Object.prototype], so that a property read [o[k]] that finds no own
      property gives what [Object.prototype] holds for [k] ([property],
      [lookup_row]), and the write [o["__proto__"] = v] goes to the setter
      of [Object.prototype] ([assign]).
    - The constructor completes the table it receives in place.  The caller's
      objects therefore live in a [store]: the table object itself, and a heap
      of the objects that hold the transitions of the states.  Two entries of
      the table may hold the same object.
    - [throw] is the left injection of [result]; the store reached when the
      exception was thrown is kept. *)

From Stdlib Require Import String Ascii List Bool Arith Lia DecimalString.
Import ListNotations.
Open Scope string_scope.

(** ** JavaScript library functions *)

Module Js.

(** [Array.prototype.includes] on an array of strings. *)
Fixpoint includes (l : list string) (x : string) : bool :=
  match l with
  | [] => false
  | y :: l' => if String.eqb y x then true else includes l' x
  end.

(** [Set.prototype.add]: a set keeps its elements in insertion order. *)
Definition Set_add (s : list string) (x : string) : list string :=
  if includes s x then s else s ++ [x].

(** [Array.from(new Set(l))]. *)
Definition Array_from_Set (l : list string) : list string :=
  fold_left Set_add l [].

(** The own property [k] of an object; [None] when it has none. *)
Fixpoint get {V : Type} (o : list (string * V)) (k : string) : option V :=
  match o with
  | [] => None
  | (k', v) :: o' => if String.eqb k' k then Some v else get o' k
  end.

(** The own property [k] of [o] is given the value [v]: an existing
    property keeps its place, a new one is appended.  (JavaScript lists
    integer-like keys first; no enumeration of this development depends on
    the place of an added key.) *)
Fixpoint set {V : Type} (o : list (string * V)) (k : string) (v : V)
  : list (string * V) :=
  match o with
  | [] => [(k, v)]
  | (k', v') :: o' =>
      if String.eqb k' k then (k', v) :: o' else (k', v') :: set o' k v
  end.

(** [Object.keys(o)]. *)
Definition keys {V : Type} (o : list (string * V)) : list string :=
  map fst o.

(** [s.split("")]: the characters of [s], each as a string. *)
Fixpoint split (s : string) : list string :=
  match s with
  | EmptyString => []
  | String c s' => String c EmptyString :: split s'
  end.

(** *** Values and the prototype chain *)

(** What a property read can give: [undefined], [null], a string, a
    number, a function of the standard library (known by its name), or the
    object [Object.prototype].  [Function.prototype] is the function of the
    standard library whose name is the empty string. *)
Inductive value : Type :=
| Undefined
| Null
| Str (s : string)
| Num (n : nat)
| Fn (name : string)
| Object_prototype.

(** [typeof v]. *)
Definition typeof (v : value) : string :=
  match v with
  | Undefined => "undefined"
  | Null | Object_prototype => "object"
  | Str _ => "string"
  | Num _ => "number"
  | Fn _ => "function"
  end.

(** The string of a value, as a template literal and a property key take
    it.  The text of a function of the library is the one V8 gives. *)
Definition String_of (v : value) : string :=
  match v with
  | Undefined => "undefined"
  | Null => "null"
  | Str s => s
  | Num n => NilZero.string_of_uint (Nat.to_uint n)
  | Fn name => "function " ++ name ++ "() { [native code] }"
  | Object_prototype => "[object Object]"
  end.

(** [l.includes(v)] on an array of strings [l]. *)
Definition includes_value (l : list string) (v : value) : bool :=
  match v with
  | Str s => includes l s
  | _ => false
  end.

(** [v === s] for a string [s]. *)
Definition is_string (v : value) (s : string) : bool :=
  match v with
  | Str n => String.eqb n s
  | _ => false
  end.

(** The properties of [Object.prototype] that hold a function; the
    remaining one, [__proto__], is an accessor. *)
Definition Object_prototype_functions : list string :=
  ["constructor"; "__defineGetter__"; "__defineSetter__"; "hasOwnProperty";
   "__lookupGetter__"; "__lookupSetter__"; "isPrototypeOf";
   "propertyIsEnumerable"; "toString"; "valueOf"; "toLocaleString"].

(** The functions that [Function.prototype] and the function [Object]
    hold. *)
Definition Function_prototype_functions : list string :=
  ["apply"; "bind"; "call"; "toString"].

Definition Object_functions : list string :=
  ["assign"; "getOwnPropertyDescriptor"; "getOwnPropertyDescriptors";
   "getOwnPropertyNames"; "getOwnPropertySymbols"; "hasOwn"; "is";
   "preventExtensions"; "seal"; "create"; "defineProperties";
   "defineProperty"; "freeze"; "getPrototypeOf"; "setPrototypeOf";
   "isExtensible"; "isFrozen"; "isSealed"; "keys"; "entries"; "fromEntries";
   "values"; "groupBy"].

(** The function that [Object.prototype] holds at [k]: its [name] and its
    [length]. *)
Definition name_of (k : string) : string :=
  if String.eqb k "constructor" then "Object" else k.

Definition length_of (k : string) : nat :=
  if includes ["toString"; "valueOf"; "toLocaleString"] k then 0
  else if includes ["__defineGetter__"; "__defineSetter__"] k then 2
  else 1.

(** [Object.prototype[k]], read on [Object.prototype] itself. *)
Definition prototype_property (k : string) : value :=
  if String.eqb k "__proto__" then Null
  else if includes Object_prototype_functions k then Fn (name_of k)
  else Undefined.

(** What an object created by a literal inherits at [k]: the getter of
    [__proto__] gives the prototype of the object. *)
Definition inherited (k : string) : value :=
  if String.eqb k "__proto__" then Object_prototype
  else prototype_property k.

(** [o[k]] on an object of the caller that holds strings. *)
Definition property (o : list (string * string)) (k : string) : value :=
  match get o k with
  | Some s => Str s
  | None => inherited k
  end.

(** [f[a]] for the function [f] that [Object.prototype] holds at [k]: its
    own properties, then those of [Function.prototype], then those of
    [Object.prototype].  [None]: the accessors [arguments] and [caller] of
    [Function.prototype] throw a TypeError. *)
Definition function_property (k a : string) : option value :=
  if String.eqb a "length" then Some (Num (length_of k))
  else if String.eqb a "name" then Some (Str (name_of k))
  else if String.eqb k "constructor" && String.eqb a "prototype"
  then Some Object_prototype
  else if String.eqb k "constructor" && includes Object_functions a
  then Some (Fn a)
  else if includes Function_prototype_functions a then Some (Fn a)
  else if String.eqb a "constructor" then Some (Fn "Function")
  else if String.eqb a "arguments" || String.eqb a "caller" then None
  else if String.eqb a "__proto__" then Some (Fn "")
  else Some (prototype_property a).

(** [o[k] = v] for a string [v], on an object of the caller: without an own
    property [__proto__] the write goes to the setter that
    [Object.prototype] holds, which does nothing for a value that is not an
    object; every other write defines the own property. *)
Definition assign (o : list (string * string)) (k : string) (v : string)
  : list (string * string) :=
  match get o k with
  | None => if String.eqb k "__proto__" then o else set o k v
  | Some _ => set o k v
  end.

(** What [δ[q]] finds in a table: an own property, the function that
    [Object.prototype] holds at [q], [Object.prototype] itself (for
    [__proto__]), or nothing ([undefined]). *)
Inductive row (E : Type) : Type :=
| Own (e : E)
| Method (k : string)
| Prototype
| Absent.

Arguments Own {E} e.
Arguments Method {E} k.
Arguments Prototype {E}.
Arguments Absent {E}.

(** [δ[q]]. *)
Definition lookup_row {E : Type} (δ : list (string * E)) (q : string)
  : row E :=
  match get δ q with
  | Some e => Own e
  | None =>
      if String.eqb q "__proto__" then Prototype
      else if includes Object_prototype_functions q then Method q
      else Absent
  end.

(** [typeof t] for [t = δ[q]]. *)
Definition typeof_row {E : Type} (typeof_own : E -> string) (t : row E)
  : string :=
  match t with
  | Own e => typeof_own e
  | Method _ => "function"
  | Prototype => "object"
  | Absent => "undefined"
  end.

(** [t[a]] for [t = δ[q]]; [None]: the read throws a TypeError. *)
Definition row_get {E : Type} (own : E -> string -> option value)
    (t : row E) (a : string) : option value :=
  match t with
  | Own e => own e a
  | Method k => function_property k a
  | Prototype => Some (prototype_property a)
  | Absent => None
  end.

End Js.
Import Js.

(** ** Values, store and errors *)

Abbreviation state := string.
Abbreviation symbol := string.
Definition loc := nat.

(** The transitions of one state: an object from symbols to states. *)
Definition transitions := list (symbol * state).

(** An entry of the table passed to the constructor (type [incomplete_δ]):
    an object with the transitions in full, or the short-hand array
    [[transitions, default_transition_state]].  [Prim ty] is a value that is
    neither, [ty] being what [typeof] gives for it: [Prim "object"] is
    [null]. *)
Inductive entry : Type :=
| Full (l : loc)
| Short (l : loc) (d : state)
| Prim (ty : string).

(** [typeof e]. *)
Definition typeof_entry (e : entry) : string :=
  match e with
  | Full _ | Short _ _ => "object"
  | Prim ty => ty
  end.

Record store : Type := mkStore {
  heap : loc -> transitions;
  table : list (state * entry)
}.

Definition heap_set (h : loc -> transitions) (l : loc) (t : transitions)
  : loc -> transitions :=
  fun l' => if Nat.eqb l' l then t else h l'.

(** The strings the class throws, with the values interpolated in them;
    [message] gives the string.  [TypeError] is the exception of JavaScript
    for a property read that throws: on [null], on [undefined], and at the
    accessors [arguments] and [caller] of a function of the library. *)
Inductive error : Type :=
| SymbolNotInΣ (char : string)
| StateNotInQ (state : string)
| InvalidEntry (q : string)
| MissingState (state : string)
| MissingTransition (state input_symbol : string)
| AmbiguousTransition (state input_symbol next_state : string)
| PointsOutsideQ (origin state : string)
| InvalidDataType (q ty : string)
| InvalidTransitionType (q a ty : string)
| TypeError.

Definition dq : string := String (ascii_of_nat 34) EmptyString.

(** The origin the single-pass variant gives to [validate_state]. *)
Definition origin_of (q a : string) : string :=
  "δ is incomplete: δ[" ++ dq ++ q ++ dq ++ "][" ++ dq ++ a ++ dq ++ "]".

Definition message (e : error) : string :=
  match e with
  | SymbolNotInΣ char => "The symbol " ++ char ++ " is not part of the Σ!"
  | StateNotInQ s => "The state " ++ dq ++ s ++ dq ++ " is not part of the Q!"
  | InvalidEntry q => "δ[" ++ q ++ "] points to an invalid entry!"
  | MissingState s =>
      "δ is incomplete: δ[" ++ dq ++ s ++ dq
      ++ "] is missing from the FSM transition table!"
  | MissingTransition s a =>
      origin_of s a ++ " is missing from the FSM transition table!"
  | AmbiguousTransition s a n =>
      "δ is ambiguous: δ[" ++ dq ++ s ++ dq ++ "][" ++ dq ++ a ++ dq
      ++ "] points to an invalid state, because " ++ dq ++ n ++ dq
      ++ " doesn't belong to the FSM!"
  | PointsOutsideQ origin s =>
      origin ++ " points to " ++ dq ++ s ++ dq ++ " which is not part of the Q! "
  | InvalidDataType q ty =>
      "δ is incomplete: δ[" ++ dq ++ q ++ dq
      ++ "] points to an invalid data type [expected:object, got:" ++ ty ++ "]"
  | InvalidTransitionType q a ty =>
      origin_of q a
      ++ " points to an invalid data type [expected:string, got:" ++ ty ++ "]"
  | TypeError => "TypeError"
  end.

Definition result (A : Type) : Type := (error + A)%type.

(** A small monad for the methods that write to the caller's objects: the
    store is threaded, and a [throw] leaves it as it was at that point. *)
Definition M (A : Type) : Type := store -> result A * store.

Definition ret {A : Type} (x : A) : M A := fun σ => (inr x, σ).

Definition bind {A B : Type} (m : M A) (f : A -> M B) : M B :=
  fun σ =>
    match m σ with
    | (inl e, σ') => (inl e, σ')
    | (inr x, σ') => f x σ'
    end.

Definition lift {A : Type} (r : result A) : M A := fun σ => (r, σ).

Definition bindR {A B : Type} (r : result A) (f : A -> result B) : result B :=
  match r with
  | inl e => inl e
  | inr x => f x
  end.

Declare Scope js_scope.
Delimit Scope js_scope with js.
Notation "x <- m ;; k" := (bind m (fun x => k))
  (at level 61, m at next level, right associativity) : js_scope.
Notation "m ;; k" := (bind m (fun _ => k))
  (at level 61, right associativity) : js_scope.
Notation "x <~ r ;; k" := (bindR r (fun x => k))
  (at level 61, r at next level, right associativity) : js_scope.
Notation "r ~;; k" := (bindR r (fun _ => k))
  (at level 61, right associativity) : js_scope.
Open Scope js_scope.

(** [l.map(f)] for a callback that may throw: the first throw ends the map. *)
Fixpoint mapM {A B : Type} (f : A -> result B) (l : list A) : result (list B) :=
  match l with
  | [] => inr []
  | x :: l' => y <~ f x ;; ys <~ mapM f l' ;; inr (y :: ys)
  end.

(** [t[a]] for an own entry [t] of the table.  An object gives its own
    property or what it inherits; [null] and [undefined] throw.  The other
    entries are never read: [complete_δ] and [#complete_δ] throw at a value
    that is not an object and replace a short-hand array by its object
    before any property of the entry is read, and the methods of an
    automaton read the entries of a constructed table; the model gives them
    the TypeError as well. *)
Definition entry_property (σ : store) (e : entry) (a : string) : option value :=
  match e with
  | Full l => Some (property (heap σ l) a)
  | _ => None
  end.

(** [t[a]] for [t = δ[q]], own or inherited. *)
Definition row_property (σ : store) (t : row entry) (a : string)
  : result value :=
  match row_get (entry_property σ) t a with
  | Some v => inr v
  | None => inl TypeError
  end.

(** ** The class of [src/DFSM.ts] *)

Section Methods.

(** [this.Q] and [this.Σ], set by the first two lines of the constructor. *)
Variable Q : list state.
Variable Σ : list symbol.

Fixpoint validate_char_from (Σ' : list symbol) (char : string) : result unit :=
  match Σ' with
  | [] => inl (SymbolNotInΣ char)
  | a :: Σ'' => if String.eqb a char then inr tt else validate_char_from Σ'' char
  end.

(** If a given symbol belongs to the FSM alphabet, return; throw otherwise. *)
Definition validate_char (char : string) : result unit :=
  validate_char_from Σ char.

Fixpoint validate_state_from (Q' : list state) (state : string) : result unit :=
  match Q' with
  | [] => inl (StateNotInQ state)
  | q :: Q'' => if String.eqb q state then inr tt else validate_state_from Q'' state
  end.

(** If a given state belongs to the FSM, return; throw otherwise. *)
Definition validate_state (state : string) : result unit :=
  validate_state_from Q state.

(** If a given string is composed of symbols of the FSM alphabet, convert
    it to an array of symbols; throw otherwise. *)
Definition validate_input (string : String.string) : result (list symbol) :=
  mapM (fun v => validate_char v ~;; inr v) (split string).

(** The callback of [Object.keys(state_transitions).map] in
    [complete_state_transitions]; [v] is an own key of the object. *)
Definition validate_provided (o : transitions) (v : string) : result string :=
  validate_char v ~;;
  match get o v with
  | Some s => validate_state s
  | None => inl (StateNotInQ "undefined")
  end ~;;
  inr v.

(** The loop of [complete_state_transitions] over [this.Σ]. *)
Definition fill_defaults (provided_inputs : list string)
    (default_transition_state : state) (o : transitions) : transitions :=
  fold_left
    (fun o a => if includes provided_inputs a then o
                else assign o a default_transition_state)
    Σ o.

(** Converts a short-hand transition table to a complete one, in place. *)
Definition complete_state_transitions (state_transitions : loc)
    (default_transition_state : state) : M unit :=
  lift (validate_state default_transition_state) ;;
  fun σ =>
    let o := heap σ state_transitions in
    match mapM (validate_provided o) (keys o) with
    | inl e => (inl e, σ)
    | inr provided_inputs =>
        (inr tt,
         mkStore
           (heap_set (heap σ) state_transitions
              (fill_defaults provided_inputs default_transition_state o))
           (table σ))
    end.

(** The loop of [complete_δ] over [provided_states]. *)
Fixpoint complete_δ_loop (provided_states : list state) : M unit :=
  match provided_states with
  | [] => ret tt
  | q :: rest =>
      fun σ =>
        let t := lookup_row (table σ) q in
        if negb (String.eqb (typeof_row typeof_entry t) "object")
        then (inl (InvalidEntry q), σ)
        else
          match t with
          | Own (Short transitions default_transition_state) =>
              (complete_state_transitions transitions default_transition_state ;;
               (fun σ' =>
                  (inr tt,
                   mkStore (heap σ') (set (table σ') q (Full transitions)))) ;;
               complete_δ_loop rest) σ
          | _ => complete_δ_loop rest σ
          end
  end.

(** Converts all the short-hand transitions to their complete version. *)
Definition complete_δ : M unit :=
  fun σ =>
    match mapM (fun v => validate_state v ~;; inr v) (keys (table σ)) with
    | inl e => (inl e, σ)
    | inr provided_states => complete_δ_loop provided_states σ
    end.

(** The inner loop of [#δ_final_check] over [this.Σ]; [transitions] gives
    [transitions[input_symbol]]. *)
Fixpoint check_transitions (state : state)
    (transitions : string -> result value)
    (Σ' : list symbol) (is_sink_node : bool) : result bool :=
  match Σ' with
  | [] => inr is_sink_node
  | input_symbol :: Σ'' =>
      next_state <~ transitions input_symbol ;;
      if String.eqb (typeof next_state) "undefined"
      then inl (MissingTransition state input_symbol)
      else if negb (includes_value Q next_state)
      then inl (AmbiguousTransition state input_symbol (String_of next_state))
      else check_transitions state transitions Σ''
             (if negb (is_string next_state state) then false
              else is_sink_node)
  end.

(** The outer loop of [#δ_final_check] over [this.Q]. *)
Fixpoint δ_final_check_loop (σ : store) (Q' : list state)
    (sink_nodes : list state) : result (list state) :=
  match Q' with
  | [] => inr sink_nodes
  | state :: Q'' =>
      let transitions := lookup_row (table σ) state in
      if String.eqb (typeof_row typeof_entry transitions) "undefined"
      then inl (MissingState state)
      else
        is_sink_node <~
          check_transitions state (row_property σ transitions) Σ true ;;
        δ_final_check_loop σ Q''
          (if is_sink_node then sink_nodes ++ [state] else sink_nodes)
  end.

(** Check for the completeness of δ while finding the sink nodes. *)
Definition δ_final_check (σ : store) : result (list state) :=
  δ_final_check_loop σ Q [].

End Methods.

Record DFSM : Type := mkDFSM {
  Q : list state;
  Σ : list symbol;
  q0 : state;
  F : list state;
  sink_nodes : list state;
  label : string
}.

(** [new DFSM(Q, Σ, δ, q0, F, label)], [δ] being the table of the store.
    The field [this.δ] is that same object: the methods of a constructed
    automaton read the table of the store. *)
Definition constructor (Q' : list state) (Σ' : list symbol) (q0' : state)
    (F' : list state) (label' : string) : M DFSM :=
  let this_Q := Array_from_Set Q' in
  let this_Σ := Array_from_Set Σ' in
  complete_δ this_Q this_Σ ;;
  lift (validate_state this_Q q0') ;;
  this_F <- lift (mapM (fun v => validate_state this_Q v ~;; inr v)
                    (Array_from_Set F')) ;;
  fun σ =>
    match δ_final_check this_Q this_Σ σ with
    | inl e => (inl e, σ)
    | inr sinks => (inr (mkDFSM this_Q this_Σ q0' this_F sinks label'), σ)
    end.

(** [this.δ[q][a]] when it is a string.  On a constructed automaton it is
    one for every state of Q and symbol of Σ; [None] stands for the cases in
    which the read throws or gives a value that is not a string. *)
Definition δ (σ : store) (q : state) (a : symbol) : option state :=
  match row_property σ (lookup_row (table σ) q) a with
  | inr (Str n) => Some n
  | _ => None
  end.

(** The loop of [read].  Every read of a constructed automaton on a parsed
    input gives a state; for the other reads, with which JavaScript throws
    or goes on with a value that is not a state, the model stops with the
    TypeError. *)
Fixpoint read_loop (σ : store) (sinks : list state) (parsed : list symbol)
    (currentState : state) : result state :=
  match parsed with
  | [] => inr currentState
  | a :: rest =>
      if includes sinks currentState then inr currentState
      else match δ σ currentState a with
           | Some next => read_loop σ sinks rest next
           | None => inl TypeError
           end
  end.

(** Given an input string, compute its output state; throws if the input
    contains symbols that do not belong to Σ. *)
Definition read (σ : store) (this : DFSM) (input : string) : result state :=
  parsed <~ validate_input (Σ this) input ;;
  read_loop σ (sink_nodes this) parsed (q0 this).

(** Returns true if a given input belongs to the language of the automaton. *)
Definition test (σ : store) (this : DFSM) (input : string) : bool :=
  match read σ this input with
  | inl _ => false
  | inr finalState => includes (F this) finalState
  end.


(** ** The single-pass variant of the class

    Its [validate_char], [validate_input], [complete_state_transitions],
    [read] and [test] have the text of [src/DFSM.ts]; they are shared.
    [validate_state] takes an optional [origin], and the private
    [#complete_δ] does the work of [complete_δ] and [#δ_final_check] in one
    walk over [this.Q]. *)

Module SinglePass.

Section Methods.

Variable Q : list state.
Variable Σ : list symbol.

Fixpoint validate_state_from (Q' : list state) (state origin : string)
  : result unit :=
  match Q' with
  | [] => inl (if String.eqb origin "" then StateNotInQ state
               else PointsOutsideQ origin state)
  | q :: Q'' =>
      if String.eqb q state then inr tt
      else validate_state_from Q'' state origin
  end.

(** If a given state belongs to the FSM, return; throw otherwise. *)
Definition validate_state (state origin : string) : result unit :=
  validate_state_from Q state origin.

(** The loop over [transition_states] of the short-hand branch. *)
Definition differs_from_default (transition_states : list (option state))
    (default_transition_state : state) (sink_node : bool) : bool :=
  fold_left
    (fun sink_node t =>
       match t with
       | Some s => if negb (String.eqb s default_transition_state) then false
                   else sink_node
       | None => false
       end)
    transition_states sink_node.

(** The loop over [this.Σ] of the branch for transitions in full; [t]
    gives [t[a]]. *)
Fixpoint check_full (q : state) (t : string -> result value)
    (Σ' : list symbol) (sink_node : bool) : result bool :=
  match Σ' with
  | [] => inr sink_node
  | a :: Σ'' =>
      next_q <~ t a ;;
      if String.eqb (typeof next_q) "undefined"
      then inl (MissingTransition q a)
      else if negb (String.eqb (typeof next_q) "string")
      then inl (InvalidTransitionType q a (typeof next_q))
      else
        validate_state (String_of next_q) (origin_of q a) ~;;
        check_full q t Σ''
          (if negb (is_string next_q q) then false else sink_node)
  end.

(** The loop of [#complete_δ] over [this.Q]; [sink_nodes] is
    [this.sink_nodes]. *)
Fixpoint complete_δ_loop (Q' : list state) (sink_nodes : list state)
  : M (list state) :=
  match Q' with
  | [] => ret sink_nodes
  | q :: Q'' =>
      fun σ =>
        let t := lookup_row (table σ) q in
        if String.eqb (typeof_row typeof_entry t) "undefined"
        then (inl (MissingState q), σ)
        else if negb (String.eqb (typeof_row typeof_entry t) "object")
        then (inl (InvalidDataType q (typeof_row typeof_entry t)), σ)
        else
          match t with
          | Own (Short transitions default_transition_state) =>
              let o := heap σ transitions in
              let transition_states := map (get o) (keys o) in
              let sink_node :=
                differs_from_default transition_states
                  default_transition_state true in
              (complete_state_transitions Q Σ transitions
                 default_transition_state ;;
               (fun σ' =>
                  (inr tt,
                   mkStore (heap σ') (set (table σ') q (Full transitions)))) ;;
               complete_δ_loop Q''
                 (if sink_node then sink_nodes ++ [q] else sink_nodes)) σ
          | _ =>
              match check_full q (row_property σ t) Σ true with
              | inl e => (inl e, σ)
              | inr sink_node =>
                  complete_δ_loop Q''
                    (if sink_node then sink_nodes ++ [q] else sink_nodes) σ
              end
          end
  end.

(** Converts all the short-hand transitions to their complete version while
    checking the completeness of δ. *)
Definition complete_δ : M (list state) := complete_δ_loop Q [].

End Methods.

Definition constructor (Q' : list state) (Σ' : list symbol) (q0' : state)
    (F' : list state) (label' : string) : M DFSM :=
  let this_Q := Array_from_Set Q' in
  let this_Σ := Array_from_Set Σ' in
  sinks <- complete_δ this_Q this_Σ ;;
  lift (validate_state this_Q q0' "") ;;
  this_F <- lift (mapM (fun v => validate_state this_Q v "" ~;; inr v)
                    (Array_from_Set F')) ;;
  ret (mkDFSM this_Q this_Σ q0' this_F sinks label').

End SinglePass.
(** ** Reference definitions *)

(** The run of the automaton as the specification words it when it leaves
    the sink short-circuit out: the plain fold of δ over the input. *)
Fixpoint plain_fold (σ : store) (parsed : list symbol) (current : state)
  : option state :=
  match parsed with
  | [] => Some current
  | a :: rest =>
      match δ σ current a with
      | Some next => plain_fold σ rest next
      | None => None
      end
  end.

(** The position of the first character of an input that is not in the
    alphabet. *)
Fixpoint first_unknown (Σs : list symbol) (parsed : list string) : option nat :=
  match parsed with
  | [] => None
  | c :: rest =>
      if includes Σs c then option_map S (first_unknown Σs rest) else Some 0
  end.

(** ** The automata of the repository's tests *)

(** [A001]: the empty string and the alternating patterns 0, 01, 010, ... *)
Definition A001_store : store :=
  mkStore
    (fun l => match l with
              | 0 => [("0", "q1"); ("1", "e")]
              | 1 => [("0", "e"); ("1", "q0")]
              | _ => [("0", "e"); ("1", "e")]
              end)
    [("q0", Full 0); ("q1", Full 1); ("e", Full 2)].

Definition A001 : DFSM :=
  mkDFSM ["q0"; "q1"; "e"] ["0"; "1"] "q0" ["q0"; "q1"] ["e"] "0+(01)*(0+Ɛ)".

(** [A000]: an even number of zeroes and an odd number of ones. *)
Definition A000_store : store :=
  mkStore
    (fun l => match l with
              | 0 => [("0", "q1"); ("1", "q2")]
              | 1 => [("0", "q0"); ("1", "q3")]
              | 2 => [("0", "q3"); ("1", "q0")]
              | _ => [("0", "q2"); ("1", "q1")]
              end)
    [("q0", Full 0); ("q1", Full 1); ("q2", Full 2); ("q3", Full 3)].

Definition A000 : DFSM :=
  mkDFSM ["q0"; "q1"; "q2"; "q3"] ["0"; "1"] "q0" ["q2"] []
    "(001+010+100+00+111)(001+010+100+00+111)*+1".

(** A list without its duplicates, the first occurrence of each element
    kept, as the specification words the normalisation of Q, Σ and F. *)
Fixpoint first_occurrences (l : list string) : list string :=
  match l with
  | [] => []
  | x :: l' =>
      x :: filter (fun y => negb (String.eqb y x)) (first_occurrences l')
  end.

(** The first key of the raw table that is not a state of Q. *)
Definition first_foreign_key (Qs : list state) (tbl : list (state * entry))
  : option state :=
  find (fun k => negb (includes Qs k)) (keys tbl).

(** [A001] with one more key in its table. *)
Definition A001_extra_store : store :=
  mkStore (heap A001_store) (table A001_store ++ [("q7", Full 2)]).

(** Two states; the first is given in short-hand with an empty object and
    the second state as default. *)
Definition default_only_store : store :=
  mkStore (fun l => match l with 0 => [] | _ => [("0", "b")] end)
    [("a", Short 0 "b"); ("b", Full 1)].

(** The table has no entry for [q]: no own property, and nothing that it
    inherits from [Object.prototype]. *)
Definition entry_less (tbl : list (state * entry)) (q : state) : bool :=
  match lookup_row tbl q with
  | Absent => true
  | _ => false
  end.

(** The first state of Q, in its order, for which the raw table has no
    entry. *)
Definition first_missing (tbl : list (state * entry)) (Qs : list state)
  : option state :=
  find (entry_less tbl) Qs.

(** A table of two states whose names are properties of
    [Object.prototype]: [δ = {}] with [Q = ["toString", "__proto__"]]. *)
Definition inherited_store : store := mkStore (fun _ => []) [].

(** The entry [complete_δ] leaves where it found the entry [e]. *)
Definition completed_entry (e : entry) : entry :=
  match e with
  | Short l _ => Full l
  | _ => e
  end.

(** The errors [complete_δ] and the validation of [q0] and [F] can throw. *)
Definition thrown_before_final_check (e : error) : bool :=
  match e with
  | SymbolNotInΣ _ | StateNotInQ _ | InvalidEntry _ => true
  | _ => false
  end.

(** [complete_δ] stops at the key [k] with the error [e], in the store
    [σ]: the entry of [k] is not an object, or it is a short-hand pair the
    completion of which throws [e]. *)
Definition stopped_at (Qs : list state) (Σs : list symbol) (σ : store)
    (k : state) (e : error) : Prop :=
  (e = InvalidEntry k /\
   typeof_row typeof_entry (lookup_row (table σ) k) <> "object") \/
  (exists l d, get (table σ) k = Some (Short l d) /\
     complete_state_transitions Qs Σs l d σ = (inl e, σ)).

(** The object an entry holds. *)
Definition object_of (e : entry) : option loc :=
  match e with
  | Full l | Short l _ => Some l
  | Prim _ => None
  end.

(** The fully enumerated map the specification gives for a short-hand pair
    [(P, d)]: it agrees with [P] on the keys of [P] and maps every other
    symbol of Σ to [d]. *)
Definition expand (Σs : list symbol) (P : transitions) (d : state)
  : transitions :=
  map (fun a => (a, match get P a with Some s => s | None => d end)) Σs.

(** Two states in short-hand; the default of the second is not a state. *)
Definition bad_default_store : store :=
  mkStore (fun _ => [])
    [("a", Short 0 "a"); ("b", Short 1 "c")].

(** The first state of Q has no entry, and the entry of the second has a
    default that is not a state. *)
Definition missing_first_store : store :=
  mkStore (fun _ => []) [("b", Short 0 "c")].

(** [A001] without the entry of its state [e]. *)
Definition A001_partial_store : store :=
  mkStore (heap A001_store) [("q0", Full 0); ("q1", Full 1)].

(** Two states in short-hand that share the object of their transitions:
    [const t = {}; δ = {a: [t, "a"], b: [t, "b"]}]. *)
Definition shared_store : store :=
  mkStore (fun _ => []) [("a", Short 0 "a"); ("b", Short 0 "b")].

(** ** Short-hand pairs and their expansion *)

(** No entry of the table other than that of [q] holds the object [l]. *)
Definition unshared (σ : store) (q : state) (l : loc) : Prop :=
  forall k e, get (table σ) k = Some e -> k <> q -> object_of e <> Some l.

(** The store in which the state [q], given as the short-hand pair of the
    object [l] and the default [d], is given instead the fully enumerated
    map of that pair. *)
Definition with_full_entry (Σs : list symbol) (σ : store) (q : state)
    (l : loc) (d : state) : store :=
  mkStore (heap_set (heap σ) l (expand Σs (heap σ l) d))
          (set (table σ) q (Full l)).

(** The relation kept between the completion of a table with the
    short-hand pair at [q] (store [σ]) and the completion of the table with
    its expansion (store [τ]); [E] is the expansion and [P] the object of the
    pair as the caller gave it. *)
Definition expansion_sim (q : state) (l : loc) (d : state)
    (P E : transitions) (σ τ : store) : Prop :=
  (forall k, k <> q -> get (table τ) k = get (table σ) k) /\
  get (table τ) q = Some (Full l) /\
  (forall l', l' <> l -> heap τ l' = heap σ l') /\
  (forall a, get (heap τ l) a = get E a) /\
  unshared σ q l /\
  ((get (table σ) q = Some (Short l d) /\ heap σ l = P) \/
   (get (table σ) q = Some (Full l) /\
    forall a, get (heap σ l) a = get E a)).

(** The pair at [q] has been completed. *)
Definition expansion_done (q : state) (l : loc) (E : transitions)
    (σ : store) : Prop :=
  get (table σ) q = Some (Full l) /\ forall a, get (heap σ l) a = get E a.

(** [A003]: the strings that contain the word [script]; every state is
    given in short-hand.  The keys of the table come in the order of
    [Object.keys]: the integer-like keys first. *)
Definition A003_alphabet : list symbol :=
  ["a"; "b"; "c"; "d"; "e"; "f"; "g"; "h"; "i"; "j"; "k"; "l"; "m";
   "n"; "o"; "p"; "q"; "r"; "s"; "t"; "u"; "v"; "w"; "x"; "y"; "z"].

Definition A003_states : list state := ["_"; "0"; "1"; "2"; "3"; "4"; "5"].

Definition A003_store : store :=
  mkStore
    (fun l => match l with
              | 0 => [("c", "1"); ("s", "0")]
              | 1 => [("r", "2"); ("s", "0")]
              | 2 => [("i", "3"); ("s", "0")]
              | 3 => [("p", "4"); ("s", "0")]
              | 4 => [("t", "5"); ("s", "0")]
              | 5 => []
              | _ => [("s", "0")]
              end)
    [("0", Short 0 "_"); ("1", Short 1 "_"); ("2", Short 2 "_");
     ("3", Short 3 "_"); ("4", Short 4 "_"); ("5", Short 5 "5");
     ("_", Short 6 "_")].

Definition A003 : DFSM :=
  mkDFSM A003_states A003_alphabet "_" ["5"] ["5"] "(a+z)*script(a+z)*".

(** The store the construction of [A003] leaves. *)
Definition A003_completed : store :=
  snd (constructor A003_states A003_alphabet "_" ["5"] "(a+z)*script(a+z)*"
         A003_store).

(** ** Well-formed tables *)

(** What [complete_δ] and [#δ_final_check] ask of one entry: an object
    given in full is total over Σ with targets in Q; a short-hand pair has a
    default in Q, and the object lists symbols of Σ only, with targets in
    Q. *)
Definition entry_ok (Qs : list state) (Σs : list symbol) (σ : store)
    (e : entry) : Prop :=
  match e with
  | Full l =>
      forall a, In a Σs -> exists n, get (heap σ l) a = Some n /\ In n Qs
  | Short l d =>
      In d Qs /\
      forall v, In v (keys (heap σ l)) ->
                In v Σs /\ exists s, get (heap σ l) v = Some s /\ In s Qs
  | Prim _ => False
  end.

(** The keys of the table are the states of Q, and every entry is as
    [entry_ok] asks. *)
Definition well_formed (Qs : list state) (Σs : list symbol) (σ : store)
  : Prop :=
  (forall k, In k (keys (table σ)) -> In k Qs) /\
  (forall q, In q Qs -> In q (keys (table σ))) /\
  (forall k e, get (table σ) k = Some e -> entry_ok Qs Σs σ e).

(** Every entry of the table is an object with transitions in full. *)
Definition all_full (σ : store) : Prop :=
  forall k e, get (table σ) k = Some e -> exists l, e = Full l.

(** Every transition of [q] loops, read off the table. *)
Definition is_sink (σ : store) (Σs : list symbol) (q : state) : bool :=
  forallb
    (fun a => match δ σ q a with
              | Some n => String.eqb n q
              | None => false
              end)
    Σs.

(** The automaton [this] taken up in the state [q]. *)
Definition resumed (this : DFSM) (q : state) : DFSM :=
  mkDFSM (Q this) (Σ this) q (F this) (sink_nodes this) (label this).

(** What an error of the constructor of [src/DFSM.ts] says about the
    arguments. *)
Definition error_holds (Qs : list state) (Σs : list symbol) (σ : store)
    (e : error) : Prop :=
  match e with
  | SymbolNotInΣ c => ~ In c Σs
  | StateNotInQ s => ~ In s Qs
  | InvalidEntry q =>
      In q Qs /\
      exists ty, get (table σ) q = Some (Prim ty) /\ ty <> "object"
  | MissingState q => In q Qs /\ entry_less (table σ) q = true
  | MissingTransition q a =>
      In q Qs /\ In a Σs /\ entry_less (table σ) q = false /\
      row_property σ (lookup_row (table σ) q) a = inr Undefined
  | AmbiguousTransition q a n =>
      In q Qs /\ In a Σs /\
      exists v, row_property σ (lookup_row (table σ) q) a = inr v /\
                v <> Undefined /\ String_of v = n /\
                includes_value Qs v = false
  | TypeError =>
      exists q a, In q Qs /\ In a Σs /\
                  row_property σ (lookup_row (table σ) q) a = inl TypeError
  | PointsOutsideQ _ _ | InvalidDataType _ _ | InvalidTransitionType _ _ _ =>
      False
  end.

(** ** Reference definitions for the single-pass variant *)

(** The first state [q] of Q, in its order, for which [δ[q]] is
    [undefined]: the table has no entry for it, or the entry
    [undefined]. *)
Definition first_absent (tbl : list (state * entry)) (Qs : list state)
  : option state :=
  find (fun q => String.eqb (typeof_row typeof_entry (lookup_row tbl q))
                   "undefined") Qs.

(** The store the single-pass construction of [A003] leaves. *)
Definition A003_single_pass : store :=
  snd (SinglePass.constructor A003_states A003_alphabet "_" ["5"]
         "(a+z)*script(a+z)*" A003_store).

(** The entries for which the sink test of the single-pass variant compares
    with the state itself: those given in full, and the short-hand pairs
    whose default is the state. *)
Definition compares_with_itself (q : state) (e : entry) : option loc :=
  match e with
  | Full l => Some l
  | Short l d => if String.eqb d q then Some l else None
  | Prim _ => None
  end.

(** ** The first version of the class

    The version with the method [compute].  Its table is of type
    [delta<Q,Σ>]: an object of objects with the transitions in full; nothing
    is written to it, so it is a value here.  [console.warn] is the list of
    the strings written, returned beside the outcome.  The loop over the
    states leaves a state at its first transition to another state
    ([continue state_loop]). *)

Module V1.

Definition table : Type := list (state * transitions).

(** The strings this version throws; [TypeError] is the exception of
    JavaScript for a property read that throws. *)
Inductive error : Type :=
| InvalidInitialState (q0 : string)
| MissingState (state : string)
| MissingTransition (state input_symbol : string)
| InvalidTransition (state input_symbol next_state : string)
| NotInAlphabet (char : string)
| TypeError.

Definition message (e : error) : string :=
  match e with
  | InvalidInitialState q0 =>
      q0 ++ " is an invalid initial state because it doesn't belong to the FSM!"
  | MissingState s => "δ[" ++ s ++ "] is missing from the FSM transition table!"
  | MissingTransition s a =>
      "δ[" ++ s ++ "][" ++ a ++ "] is missing from the FSM transition table!"
  | InvalidTransition s a n =>
      "δ[" ++ s ++ "][" ++ a ++ "] = " ++ n
      ++ " is an invalid transition, because " ++ n
      ++ " is a state that doesn't belong to the FSM!"
  | NotInAlphabet c => "The character " ++ c ++ " is not part of the alphabet!"
  | TypeError => "TypeError"
  end.

Record DFSM : Type := mkDFSM {
  Q : list state;
  Σ : list symbol;
  δ : table;
  q0 : state;
  F : list state;
  sink_nodes : list state
}.

(** [typeof t] for an own entry of the table, an object. *)
Definition typeof_transitions (t : transitions) : string := "object".

(** [t[a]] for [t = δ[q]]; [None]: the read throws a TypeError. *)
Definition row_property (t : row transitions) (a : string) : option value :=
  row_get (fun o a => Some (property o a)) t a.

(** The inner loop of the constructor over [this.Σ]: [inr false] is
    [continue state_loop], [inr true] the end of the loop. *)
Fixpoint scan (Q : list state) (state : state) (transitions : row transitions)
    (Σ' : list symbol) : error + bool :=
  match Σ' with
  | [] => inr true
  | input_symbol :: Σ'' =>
      match row_property transitions input_symbol with
      | None => inl TypeError
      | Some next_state =>
          if String.eqb (typeof next_state) "undefined"
          then inl (MissingTransition state input_symbol)
          else if negb (includes_value Q next_state)
          then inl (InvalidTransition state input_symbol
                      (String_of next_state))
          else if negb (is_string next_state state) then inr false
          else scan Q state transitions Σ''
      end
  end.

(** The loop [state_loop] over [this.Q]. *)
Fixpoint state_loop (Q : list state) (Σ : list symbol) (δ : table)
    (Q' : list state) (sink_nodes : list state) : error + list state :=
  match Q' with
  | [] => inr sink_nodes
  | state :: Q'' =>
      let transitions := lookup_row δ state in
      if String.eqb (typeof_row typeof_transitions transitions) "undefined"
      then inl (MissingState state)
      else
        match scan Q state transitions Σ with
        | inl e => inl e
        | inr pushed =>
            state_loop Q Σ δ Q''
              (if pushed then sink_nodes ++ [state] else sink_nodes)
        end
  end.

(** [if (a.length !== b.length) console.warn(msg)]. *)
Definition warn_removed (a b : list string) (msg : string) : list string :=
  if negb (Nat.eqb (length a) (length b)) then [msg] else [].

Definition constructor (Q' : list state) (Σ' : list symbol) (δ' : table)
    (q0' : state) (F' : list state) : list string * (error + DFSM) :=
  let this_Q := Array_from_Set Q' in
  let w_Q := warn_removed this_Q Q' "Removed duplicates from Q!" in
  let this_Σ := Array_from_Set Σ' in
  let w_Σ := warn_removed this_Σ Σ' "Removed duplicates from Σ!" in
  if negb (includes this_Q q0')
  then ((w_Q ++ w_Σ)%list, inl (InvalidInitialState q0'))
  else
    let this_F := Array_from_Set F' in
    let w_F := warn_removed this_F F' "Removed duplicates from F!" in
    match state_loop this_Q this_Σ δ' this_Q [] with
    | inl e => ((w_Q ++ w_Σ ++ w_F)%list, inl e)
    | inr sinks =>
        ((w_Q ++ w_Σ ++ w_F)%list,
         inr (mkDFSM this_Q this_Σ δ' q0' this_F sinks))
    end.

(** If a given character belongs to the FSM alphabet, return; throw
    otherwise. *)
Fixpoint belongsToΣ (Σ' : list symbol) (char : string) : error + unit :=
  match Σ' with
  | [] => inl (NotInAlphabet char)
  | a :: Σ'' => if String.eqb a char then inr tt else belongsToΣ Σ'' char
  end.

(** The loop of [stringBelongsToΣ]; [o] is the array it fills. *)
Fixpoint stringBelongsToΣ_loop (Σ' : list symbol) (chars : list string)
    (o : list symbol) : error + list symbol :=
  match chars with
  | [] => inr o
  | y :: rest =>
      match belongsToΣ Σ' y with
      | inl e => inl e
      | inr _ => stringBelongsToΣ_loop Σ' rest (o ++ [y])
      end
  end.

Definition stringBelongsToΣ (Σ' : list symbol) (string : String.string)
  : error + list symbol :=
  stringBelongsToΣ_loop Σ' (split string) [].

(** The loop of [compute].  [currentState] holds whatever the last read
    gave; as the key of [this.δ] it is taken by its string. *)
Fixpoint compute_loop (δ' : table) (sinks : list state)
    (parsed : list symbol) (currentState : value) : error + value :=
  match parsed with
  | [] => inr currentState
  | a :: rest =>
      if includes_value sinks currentState then inr currentState
      else match row_property (lookup_row δ' (String_of currentState)) a with
           | None => inl TypeError
           | Some next => compute_loop δ' sinks rest next
           end
  end.

Record outcome : Type := mkOutcome {
  final_state : value;
  is_accept_state : bool
}.

(** Given an input string, compute its output state. *)
Definition compute (this : DFSM) (string : String.string) : error + outcome :=
  match stringBelongsToΣ (Σ this) string with
  | inl e => inl e
  | inr parsed =>
      match compute_loop (δ this) (sink_nodes this) parsed (Str (q0 this)) with
      | inl e => inl e
      | inr currentState =>
          inr (mkOutcome currentState (includes_value (F this) currentState))
      end
  end.

End V1.

(** [δ[q]] is not [undefined]: the table has an entry for [q], its own or
    one that it inherits from [Object.prototype]. *)
Definition has_row (δ' : V1.table) (q : state) : Prop :=
  lookup_row δ' q <> Absent.

(** [t[a]] for [t = δ[q]], when it is a string. *)
Definition row_state (t : row transitions) (a : symbol) : option state :=
  match V1.row_property t a with
  | Some (Str n) => Some n
  | _ => None
  end.

(** [δ[q][a]] on a table that is a value, when it is a string. *)
Definition lookup (δ' : V1.table) (q : state) (a : symbol) : option state :=
  row_state (lookup_row δ' q) a.

(** What the first version checks of the transitions of [q]: they loop up
    to the first one that leaves [q], which leads to a state of Q. *)
Definition checked_up_to_exit (Qs : list state) (δ' : V1.table) (q : state)
    (Σs : list symbol) : Prop :=
  (forall a, In a Σs -> lookup δ' q a = Some q) \/
  (exists pre a post n,
     Σs = (pre ++ a :: post)%list /\
     (forall b, In b pre -> lookup δ' q b = Some q) /\
     lookup δ' q a = Some n /\ n <> q /\ In n Qs).

(** Every transition of [q] loops. *)
Definition loops (δ' : V1.table) (Σs : list symbol) (q : state) : bool :=
  forallb (fun a => match lookup δ' q a with
                    | Some n => String.eqb n q
                    | None => false
                    end) Σs.

(** The plain fold of δ over an input, on a table that is a value. *)
Fixpoint fold_lookup (δ' : V1.table) (parsed : list symbol) (q : state)
  : option state :=
  match parsed with
  | [] => Some q
  | a :: rest =>
      match lookup δ' q a with
      | Some n => fold_lookup δ' rest n
      | None => None
      end
  end.

(** The automaton of the tests ([A000]) as the first version takes it. *)
Definition A000_table : V1.table :=
  [("q0", [("0", "q1"); ("1", "q2")]); ("q1", [("0", "q0"); ("1", "q3")]);
   ("q2", [("0", "q3"); ("1", "q0")]); ("q3", [("0", "q2"); ("1", "q1")])].

(** A table with a transition that is never checked: δ(a,1) is missing,
    after the transition of [a] on 0 that leaves [a]. *)
Definition unchecked_table : V1.table :=
  [("a", [("0", "b")]); ("b", [("0", "b"); ("1", "b")])].

(** ** The second version of the class

    The version with a [description] and the methods [read] and [test].  Its
    table is that of the first version; its loop over the states checks
    every transition of every state. *)

Module V2.

(** The strings this version throws. *)
Inductive error : Type :=
| InvalidInitialState (q0 : string)
| MissingState (state : string)
| MissingTransition (state input_symbol : string)
| AmbiguousTransition (state input_symbol next_state : string)
| NotInAlphabet (char : string)
| TypeError.

Definition message (e : error) : string :=
  match e with
  | InvalidInitialState q0 =>
      dq ++ q0 ++ dq
      ++ " is an invalid initial state because it doesn't belong to the FSM!"
  | MissingState s =>
      "δ is incomplete: δ[" ++ dq ++ s ++ dq
      ++ "] is missing from the FSM transition table!"
  | MissingTransition s a =>
      origin_of s a ++ " is missing from the FSM transition table!"
  | AmbiguousTransition s a n =>
      "δ is ambiguous: δ[" ++ dq ++ s ++ dq ++ "][" ++ dq ++ a ++ dq
      ++ "] points to an invalid state, because " ++ dq ++ n ++ dq
      ++ " doesn't belong to the FSM!"
  | NotInAlphabet c => "The symbol " ++ c ++ " is not part of the alphabet!"
  | TypeError => "TypeError"
  end.

Record DFSM : Type := mkDFSM {
  Q : list state;
  Σ : list symbol;
  δ : V1.table;
  q0 : state;
  F : list state;
  sink_nodes : list state;
  description : string
}.

(** The inner loop of the constructor over [this.Σ]. *)
Fixpoint check_transitions (Q : list state) (state : state)
    (transitions : row transitions) (Σ' : list symbol) (is_sink_node : bool)
  : error + bool :=
  match Σ' with
  | [] => inr is_sink_node
  | input_symbol :: Σ'' =>
      match V1.row_property transitions input_symbol with
      | None => inl TypeError
      | Some next_state =>
          if String.eqb (typeof next_state) "undefined"
          then inl (MissingTransition state input_symbol)
          else if negb (includes_value Q next_state)
          then inl (AmbiguousTransition state input_symbol
                      (String_of next_state))
          else check_transitions Q state transitions Σ''
                 (if negb (is_string next_state state) then false
                  else is_sink_node)
      end
  end.

(** The loop of the constructor over [this.Q]. *)
Fixpoint check_states (Q : list state) (Σ : list symbol) (δ : V1.table)
    (Q' : list state) (sink_nodes : list state) : error + list state :=
  match Q' with
  | [] => inr sink_nodes
  | state :: Q'' =>
      let transitions := lookup_row δ state in
      if String.eqb (typeof_row V1.typeof_transitions transitions) "undefined"
      then inl (MissingState state)
      else
        match check_transitions Q state transitions Σ true with
        | inl e => inl e
        | inr is_sink_node =>
            check_states Q Σ δ Q''
              (if is_sink_node then sink_nodes ++ [state] else sink_nodes)
        end
  end.

Definition constructor (Q' : list state) (Σ' : list symbol) (δ' : V1.table)
    (q0' : state) (F' : list state) (description' : string)
  : list string * (error + DFSM) :=
  let this_Q := Array_from_Set Q' in
  let w_Q := V1.warn_removed this_Q Q' "Removed duplicates from Q!" in
  let this_Σ := Array_from_Set Σ' in
  let w_Σ := V1.warn_removed this_Σ Σ' "Removed duplicates from Σ!" in
  if negb (includes this_Q q0')
  then ((w_Q ++ w_Σ)%list, inl (InvalidInitialState q0'))
  else
    let this_F := Array_from_Set F' in
    let w_F := V1.warn_removed this_F F' "Removed duplicates from F!" in
    match check_states this_Q this_Σ δ' this_Q [] with
    | inl e => ((w_Q ++ w_Σ ++ w_F)%list, inl e)
    | inr sinks =>
        ((w_Q ++ w_Σ ++ w_F)%list,
         inr (mkDFSM this_Q this_Σ δ' q0' this_F sinks description'))
    end.

(** If a given symbol belongs to the FSM alphabet, return; throw
    otherwise. *)
Fixpoint validate_char (Σ' : list symbol) (char : string) : error + unit :=
  match Σ' with
  | [] => inl (NotInAlphabet char)
  | a :: Σ'' => if String.eqb a char then inr tt else validate_char Σ'' char
  end.

(** The loop of [validate_input]; [o] is the array it fills. *)
Fixpoint validate_input_loop (Σ' : list symbol) (chars : list string)
    (o : list symbol) : error + list symbol :=
  match chars with
  | [] => inr o
  | y :: rest =>
      match validate_char Σ' y with
      | inl e => inl e
      | inr _ => validate_input_loop Σ' rest (o ++ [y])
      end
  end.

Definition validate_input (Σ' : list symbol) (string : String.string)
  : error + list symbol :=
  validate_input_loop Σ' (split string) [].

(** The loop of [read]; [currentState] as in [V1.compute_loop]. *)
Fixpoint read_loop (δ' : V1.table) (sinks : list state)
    (parsed : list symbol) (currentState : value) : error + value :=
  match parsed with
  | [] => inr currentState
  | a :: rest =>
      if includes_value sinks currentState then inr currentState
      else match V1.row_property (lookup_row δ' (String_of currentState)) a
           with
           | None => inl TypeError
           | Some next => read_loop δ' sinks rest next
           end
  end.

(** Given an input string, compute its output state. *)
Definition read (this : DFSM) (input : string) : error + value :=
  match validate_input (Σ this) input with
  | inl e => inl e
  | inr parsed =>
      read_loop (δ this) (sink_nodes this) parsed (Str (q0 this))
  end.

(** Returns true if a given input belongs to the language of the
    automaton. *)
Definition test (this : DFSM) (input : string) : bool :=
  match read this input with
  | inl _ => false
  | inr finalState => includes_value (F this) finalState
  end.

End V2.

(** An automaton of the second version as the first version holds it: the
    same fields, without the description. *)
Definition without_description (A : V2.DFSM) : V1.DFSM :=
  V1.mkDFSM (V2.Q A) (V2.Σ A) (V2.δ A) (V2.q0 A) (V2.F A) (V2.sink_nodes A).

(** The outcome of [compute] and the outcomes of [read] and [test] say the
    same. *)
Definition same_outcome (c : V1.error + V1.outcome)
    (r : V2.error + value) (t : bool) : Prop :=
  match c, r with
  | inr o, inr s => V1.final_state o = s /\ V1.is_accept_state o = t
  | inl (V1.NotInAlphabet x), inl (V2.NotInAlphabet y) => x = y /\ t = false
  | inl V1.TypeError, inl V2.TypeError => t = false
  | _, _ => False
  end.

(** * Verification *)

Open Scope list_scope.

(** ** Facts about the library functions *)

Lemma includes_In (l : list string) (x : string) :
  includes l x = true <-> In x l.
Proof.
  induction l as [|y l IH]; simpl.
  - split; [discriminate | contradiction].
  - destruct (String.eqb_spec y x) as [->|Hne].
    + split; auto.
    + rewrite IH. split; [auto | intros [H|H]; [contradiction | exact H]].
Qed.

Lemma includes_not_In (l : list string) (x : string) :
  includes l x = false <-> ~ In x l.
Proof.
  rewrite <- includes_In. destruct (includes l x); split; congruence.
Qed.

Lemma includes_app (l1 l2 : list string) (x : string) :
  includes (l1 ++ l2) x = includes l1 x || includes l2 x.
Proof.
  induction l1 as [|y l1 IH]; simpl; [reflexivity|].
  destruct (String.eqb y x); [reflexivity | exact IH].
Qed.

Lemma In_Set_add (s : list string) (x y : string) :
  In y (Set_add s x) <-> In y s \/ y = x.
Proof.
  unfold Set_add. destruct (includes s x) eqn:E.
  - apply includes_In in E. split; [auto | intros [H| ->]; auto].
  - rewrite in_app_iff. simpl. intuition.
Qed.

Lemma NoDup_snoc (s : list string) (x : string) :
  NoDup s -> ~ In x s -> NoDup (s ++ [x]).
Proof.
  induction 1 as [|y s Hy Hs IH]; simpl; intros Hx.
  - constructor; [intros [] | constructor].
  - constructor.
    + rewrite in_app_iff. simpl. intros [H|[H|[]]]; [auto | subst; auto].
    + apply IH. auto.
Qed.

Lemma NoDup_Set_add (s : list string) (x : string) :
  NoDup s -> NoDup (Set_add s x).
Proof.
  intros Hs. unfold Set_add. destruct (includes s x) eqn:E; [exact Hs|].
  apply NoDup_snoc; [exact Hs | now apply includes_not_In].
Qed.

Lemma fold_Set_add_In (l s : list string) (y : string) :
  In y (fold_left Set_add l s) <-> In y s \/ In y l.
Proof.
  revert s. induction l as [|x l IH]; simpl; intros s.
  - tauto.
  - rewrite IH, In_Set_add. intuition.
Qed.

Lemma fold_Set_add_NoDup (l s : list string) :
  NoDup s -> NoDup (fold_left Set_add l s).
Proof.
  revert s. induction l as [|x l IH]; simpl; intros s Hs; [exact Hs|].
  apply IH, NoDup_Set_add, Hs.
Qed.

(** On a list that adds nothing twice the set is the list itself. *)
Lemma fold_Set_add_fresh (l s : list string) :
  NoDup (s ++ l) -> fold_left Set_add l s = s ++ l.
Proof.
  revert s. induction l as [|x l IH]; simpl; intros s H.
  - now rewrite app_nil_r.
  - assert (Hx : ~ In x s).
    { apply NoDup_remove_2 in H. rewrite in_app_iff in H. tauto. }
    unfold Set_add at 2. apply includes_not_In in Hx. rewrite Hx.
    rewrite IH; rewrite <- app_assoc; simpl; [reflexivity | exact H].
Qed.

Lemma In_Array_from_Set (l : list string) (x : string) :
  In x (Array_from_Set l) <-> In x l.
Proof. unfold Array_from_Set. rewrite fold_Set_add_In. simpl. tauto. Qed.

Lemma NoDup_Array_from_Set (l : list string) : NoDup (Array_from_Set l).
Proof. apply fold_Set_add_NoDup. constructor. Qed.

Lemma Array_from_Set_NoDup (l : list string) :
  NoDup l -> Array_from_Set l = l.
Proof. intros H. unfold Array_from_Set. now rewrite fold_Set_add_fresh. Qed.

Lemma Array_from_Set_idem (l : list string) :
  Array_from_Set (Array_from_Set l) = Array_from_Set l.
Proof. apply Array_from_Set_NoDup, NoDup_Array_from_Set. Qed.

Lemma get_In_keys {V : Type} (o : list (string * V)) (k : string) (v : V) :
  get o k = Some v -> In k (keys o).
Proof.
  induction o as [|[k' v'] o IH]; simpl; [discriminate|].
  destruct (String.eqb_spec k' k); auto.
Qed.

Lemma get_None_keys {V : Type} (o : list (string * V)) (k : string) :
  get o k = None <-> ~ In k (keys o).
Proof.
  induction o as [|[k' v'] o IH]; simpl; [tauto|].
  destruct (String.eqb_spec k' k) as [->|Hne].
  - split; [discriminate | intros H; exfalso; auto].
  - rewrite IH. tauto.
Qed.

Lemma In_keys_get {V : Type} (o : list (string * V)) (k : string) :
  In k (keys o) -> exists v, get o k = Some v.
Proof.
  intros H. destruct (get o k) as [v|] eqn:E; [eauto|].
  apply get_None_keys in E. contradiction.
Qed.

Lemma get_set_same {V : Type} (o : list (string * V)) (k : string) (v : V) :
  get (set o k v) k = Some v.
Proof.
  induction o as [|[k' v'] o IH]; simpl.
  - now rewrite String.eqb_refl.
  - destruct (String.eqb k' k) eqn:E; simpl; rewrite E; auto.
Qed.

Lemma get_set_other {V : Type} (o : list (string * V)) (k k' : string) (v : V) :
  k <> k' -> get (set o k v) k' = get o k'.
Proof.
  intros Hne. induction o as [|[k1 v1] o IH]; simpl.
  - destruct (String.eqb_spec k k'); [contradiction | reflexivity].
  - destruct (String.eqb_spec k1 k) as [->|H1]; simpl.
    + destruct (String.eqb_spec k k'); [contradiction | reflexivity].
    + destruct (String.eqb k1 k'); auto.
Qed.

Lemma keys_set_In {V : Type} (o : list (string * V)) (k : string) (v : V) :
  In k (keys o) -> keys (set o k v) = keys o.
Proof.
  induction o as [|[k1 v1] o IH]; simpl; [contradiction|].
  destruct (String.eqb_spec k1 k) as [->|H1]; simpl; [reflexivity|].
  intros [H|H]; [contradiction | now rewrite IH].
Qed.

Lemma In_keys_set {V : Type} (o : list (string * V)) (k k' : string) (v : V) :
  In k' (keys (set o k v)) <-> In k' (keys o) \/ k' = k.
Proof.
  induction o as [|[k1 v1] o IH]; simpl.
  - intuition.
  - destruct (String.eqb_spec k1 k) as [->|H1]; simpl.
    + intuition.
    + rewrite IH. intuition.
Qed.

Lemma heap_set_same h l t : heap_set h l t l = t.
Proof. unfold heap_set. now rewrite Nat.eqb_refl. Qed.

Lemma heap_set_other h l l' t : l' <> l -> heap_set h l t l' = h l'.
Proof.
  intros H. unfold heap_set. destruct (Nat.eqb_spec l' l); [contradiction|reflexivity].
Qed.

(** ** Facts about the validators *)

Lemma validate_state_from_spec (Qs : list state) (s : string) :
  (In s Qs /\ validate_state_from Qs s = inr tt) \/
  (~ In s Qs /\ validate_state_from Qs s = inl (StateNotInQ s)).
Proof.
  induction Qs as [|q Qs IH]; simpl.
  - right. auto.
  - destruct (String.eqb_spec q s) as [->|Hne]; [left; auto|].
    destruct IH as [[H1 H2]|[H1 H2]]; [left | right]; split; auto.
    intros [H|H]; auto.
Qed.

Lemma validate_state_ok (Qs : list state) (s : string) :
  In s Qs -> validate_state Qs s = inr tt.
Proof.
  intros H. destruct (validate_state_from_spec Qs s) as [[_ E]|[N _]];
    [exact E | contradiction].
Qed.

Lemma validate_state_ko (Qs : list state) (s : string) :
  ~ In s Qs -> validate_state Qs s = inl (StateNotInQ s).
Proof.
  intros H. destruct (validate_state_from_spec Qs s) as [[N _]|[_ E]];
    [contradiction | exact E].
Qed.

Lemma validate_state_inv (Qs : list state) (s : string) (u : unit) :
  validate_state Qs s = inr u -> In s Qs.
Proof.
  intros H. destruct (validate_state_from_spec Qs s) as [[N _]|[_ E]]; [exact N|].
  unfold validate_state in H. congruence.
Qed.

Lemma validate_char_from_spec (Σs : list symbol) (c : string) :
  (In c Σs /\ validate_char_from Σs c = inr tt) \/
  (~ In c Σs /\ validate_char_from Σs c = inl (SymbolNotInΣ c)).
Proof.
  induction Σs as [|a Σs IH]; simpl.
  - right. auto.
  - destruct (String.eqb_spec a c) as [->|Hne]; [left; auto|].
    destruct IH as [[H1 H2]|[H1 H2]]; [left | right]; split; auto.
    intros [H|H]; auto.
Qed.

Lemma validate_char_ok (Σs : list symbol) (c : string) :
  In c Σs -> validate_char Σs c = inr tt.
Proof.
  intros H. destruct (validate_char_from_spec Σs c) as [[_ E]|[N _]];
    [exact E | contradiction].
Qed.

Lemma validate_char_ko (Σs : list symbol) (c : string) :
  ~ In c Σs -> validate_char Σs c = inl (SymbolNotInΣ c).
Proof.
  intros H. destruct (validate_char_from_spec Σs c) as [[N _]|[_ E]];
    [contradiction | exact E].
Qed.

Lemma validate_char_inv (Σs : list symbol) (c : string) (u : unit) :
  validate_char Σs c = inr u -> In c Σs.
Proof.
  intros H. destruct (validate_char_from_spec Σs c) as [[N _]|[_ E]]; [exact N|].
  unfold validate_char in H. congruence.
Qed.

(** A map whose callback validates its argument and returns it. *)
Lemma mapM_validate_ok {A : Type} (f : A -> result unit) (l : list A) :
  (forall x, In x l -> f x = inr tt) ->
  mapM (fun v => f v ~;; inr v) l = inr l.
Proof.
  induction l as [|x l IH]; simpl; intros H; [reflexivity|].
  rewrite (H x) by auto. simpl. rewrite IH by auto. reflexivity.
Qed.

Lemma mapM_validate_inv {A : Type} (f : A -> result unit) (l l' : list A) :
  mapM (fun v => f v ~;; inr v) l = inr l' ->
  l' = l /\ forall x, In x l -> exists u, f x = inr u.
Proof.
  revert l'. induction l as [|x l IH]; simpl; intros l' H.
  - inversion H. split; [reflexivity | contradiction].
  - destruct (f x) as [e|u] eqn:E; simpl in H; [discriminate|].
    destruct (mapM _ l) as [e|ys] eqn:E'; simpl in H; [discriminate|].
    inversion H; subst. destruct (IH ys eq_refl) as [-> Hall].
    split; [reflexivity|]. intros y [<-|Hy]; eauto.
Qed.

(** The first element a validating map rejects decides its error. *)
Lemma mapM_validate_ko {A : Type} (f : A -> result unit) (l1 l2 : list A)
    (x : A) (e : error) :
  (forall y, In y l1 -> f y = inr tt) -> f x = inl e ->
  mapM (fun v => f v ~;; inr v) (l1 ++ x :: l2) = inl e.
Proof.
  induction l1 as [|y l1 IH]; simpl; intros H1 Hx.
  - now rewrite Hx.
  - rewrite (H1 y) by auto. simpl. rewrite IH; auto.
Qed.

(** ** The prototype chain *)

Lemma prototype_property_not_Str k s : prototype_property k <> Str s.
Proof.
  unfold prototype_property. destruct (String.eqb k "__proto__"); [discriminate|].
  destruct (includes Object_prototype_functions k); discriminate.
Qed.

(** Nothing that an object inherits is a string. *)
Lemma inherited_not_Str k s : inherited k <> Str s.
Proof.
  unfold inherited. destruct (String.eqb k "__proto__"); [discriminate|].
  apply prototype_property_not_Str.
Qed.

Lemma property_Str (o : list (string * string)) k s :
  property o k = Str s <-> get o k = Some s.
Proof.
  unfold property. destruct (get o k) as [s'|].
  - split; intros H; inversion H; reflexivity.
  - split; [intros H; exfalso; eapply inherited_not_Str, H | discriminate].
Qed.

Lemma includes_value_Str Qs v :
  includes_value Qs v = true -> exists n, v = Str n /\ In n Qs.
Proof.
  destruct v; simpl; try discriminate. intros H. exists s. split; [reflexivity|].
  induction Qs as [|y l IH]; simpl in *; [discriminate|].
  destruct (String.eqb_spec y s); auto.
Qed.

Lemma lookup_row_Own {E : Type} (tbl : list (string * E)) q e :
  get tbl q = Some e -> lookup_row tbl q = Own e.
Proof. unfold lookup_row. now intros ->. Qed.

Lemma lookup_row_Own_inv {E : Type} (tbl : list (string * E)) q e :
  lookup_row tbl q = Own e -> get tbl q = Some e.
Proof.
  unfold lookup_row. destruct (get tbl q); [congruence|].
  destruct (String.eqb q "__proto__"); [discriminate|].
  destruct (includes Object_prototype_functions q); discriminate.
Qed.

(** The row of a key depends on its own entry only. *)
Lemma lookup_row_ext {E : Type} (t t' : list (string * E)) q :
  get t' q = get t q -> lookup_row t' q = lookup_row t q.
Proof. unfold lookup_row. now intros ->. Qed.

Lemma δ_Some σ q a n :
  δ σ q a = Some n <-> row_property σ (lookup_row (table σ) q) a = inr (Str n).
Proof.
  unfold δ. destruct (row_property σ (lookup_row (table σ) q) a) as [e|[]];
    split; intros H; inversion H; reflexivity.
Qed.

(** For a state whose entry is an object, δ reads the own properties of
    the object: what the object inherits is no state. *)
Lemma δ_Full σ q l a :
  get (table σ) q = Some (Full l) -> δ σ q a = get (heap σ l) a.
Proof.
  intros G. unfold δ. rewrite (lookup_row_Own _ _ _ G).
  unfold row_property. cbn [row_get entry_property].
  destruct (get (heap σ l) a) as [s|] eqn:E.
  - apply property_Str in E. now rewrite E.
  - destruct (property (heap σ l) a) eqn:P; try reflexivity.
    apply property_Str in P. congruence.
Qed.

(** ** The final check *)

Lemma check_transitions_spec Qs st rd Σ' b b' :
  check_transitions Qs st rd Σ' b = inr b' ->
  (forall a, In a Σ' -> exists n, rd a = inr (Str n) /\ In n Qs) /\
  (b' = true <-> b = true /\ forall a, In a Σ' -> rd a = inr (Str st)).
Proof.
  revert b. induction Σ' as [|a Σ' IH]; simpl; intros b H.
  - inversion H; subst. split; [contradiction|]. tauto.
  - destruct (rd a) as [e|v] eqn:Ga; simpl in H; [discriminate|].
    destruct (String.eqb (typeof v) "undefined"); [discriminate|].
    destruct (includes_value Qs v) eqn:Inc; simpl in H; [|discriminate].
    apply includes_value_Str in Inc as (n & -> & Inc). simpl in H.
    apply IH in H as [Htot Hsink]. split.
    + intros a' [<-|Ha']; eauto.
    + rewrite Hsink. destruct (String.eqb_spec n st) as [->|Hne]; simpl.
      * split; intros [Hb Hall]; (split; [exact Hb|]).
        -- intros a' [<-|Ha']; auto.
        -- auto.
      * split; [intros [Hb _]; discriminate|].
        intros [_ Hall]. specialize (Hall a (or_introl eq_refl)). congruence.
Qed.

Lemma δ_final_check_loop_spec Qs Σs σ Q' acc sinks :
  δ_final_check_loop Qs Σs σ Q' acc = inr sinks ->
  (forall q, In q Q' ->
     typeof_row typeof_entry (lookup_row (table σ) q) <> "undefined") /\
  (forall q a, In q Q' -> In a Σs ->
     exists n, δ σ q a = Some n /\ In n Qs) /\
  (forall q, In q sinks <->
     In q acc \/ (In q Q' /\ forall a, In a Σs -> δ σ q a = Some q)).
Proof.
  revert acc. induction Q' as [|st Q' IH]; simpl; intros acc H.
  - inversion H; subst. repeat split; try contradiction; tauto.
  - destruct (String.eqb_spec
                (typeof_row typeof_entry (lookup_row (table σ) st))
                "undefined") as [Ety|Ety]; [discriminate|].
    destruct (check_transitions Qs st _ Σs true) as [e|b] eqn:Ct;
      simpl in H; [discriminate|].
    apply check_transitions_spec in Ct as [Htot Hsink].
    apply IH in H as (Hent & Hcl & Hs).
    assert (Hδ : forall a n, δ σ st a = Some n <->
              row_property σ (lookup_row (table σ) st) a = inr (Str n)).
    { intros a n. apply δ_Some. }
    split; [|split].
    + intros q [<-|Hq]; auto.
    + intros q a [<-|Hq] Ha; [|auto].
      destruct (Htot a Ha) as (n & Hn & HnQ). exists n. split; [|exact HnQ].
      now apply Hδ.
    + intros q. rewrite Hs. split.
      * intros [Hacc|[Hq Hall]]; [|right; auto].
        destruct b; [|auto]. apply in_app_iff in Hacc as [Hacc|[<-|[]]]; [auto|].
        right. split; [auto|]. intros a Ha. apply Hδ. now apply Hsink.
      * intros [Hacc|[[<-|Hq] Hall]].
        -- left. destruct b; [apply in_app_iff|]; auto.
        -- left. assert (b = true) as ->.
           { apply Hsink. split; [reflexivity|]. intros a Ha.
             apply Hδ. auto. }
           apply in_app_iff. right. simpl. auto.
        -- right. auto.
Qed.

(** What the final check establishes, for [src/DFSM.ts]. *)
Lemma δ_final_check_spec Qs Σs σ sinks :
  δ_final_check Qs Σs σ = inr sinks ->
  (forall q a, In q Qs -> In a Σs -> exists n, δ σ q a = Some n /\ In n Qs) /\
  (forall q, In q sinks <->
     In q Qs /\ forall a, In a Σs -> δ σ q a = Some q).
Proof.
  intros H. apply δ_final_check_loop_spec in H as (_ & Hcl & Hs).
  split; [exact Hcl|]. intros q. rewrite Hs. simpl. tauto.
Qed.

(** ** The constructor *)

Lemma bind_inv {A B : Type} (m : M A) (f : A -> M B) σ y σ' :
  bind m f σ = (inr y, σ') ->
  exists x σ1, m σ = (inr x, σ1) /\ f x σ1 = (inr y, σ').
Proof.
  unfold bind. destruct (m σ) as [[e|x] σ1]; [discriminate | eauto].
Qed.

Lemma lift_inv {A : Type} (r : result A) σ x σ' :
  lift r σ = (inr x, σ') -> r = inr x /\ σ' = σ.
Proof. unfold lift. intros H. inversion H. auto. Qed.

Lemma constructor_inv Q' Σ' q0' F' lbl σ0 A σ :
  constructor Q' Σ' q0' F' lbl σ0 = (inr A, σ) ->
  complete_δ (Array_from_Set Q') (Array_from_Set Σ') σ0 = (inr tt, σ) /\
  In q0' (Array_from_Set Q') /\
  (forall f, In f (Array_from_Set F') -> In f (Array_from_Set Q')) /\
  exists sinks,
    δ_final_check (Array_from_Set Q') (Array_from_Set Σ') σ = inr sinks /\
    A = mkDFSM (Array_from_Set Q') (Array_from_Set Σ') q0'
          (Array_from_Set F') sinks lbl.
Proof.
  unfold constructor. intros H.
  apply bind_inv in H as ([] & σ1 & Hc & H).
  apply bind_inv in H as (u & σ2 & Hq0 & H).
  apply lift_inv in Hq0 as [Hq0 ->].
  apply bind_inv in H as (this_F & σ3 & HF & H).
  apply lift_inv in HF as [HF ->].
  apply mapM_validate_inv in HF as [-> HF].
  destruct (δ_final_check _ _ σ1) as [e|sinks] eqn:Hfin; [discriminate|].
  inversion H; subst. repeat split.
  - exact Hc.
  - eapply validate_state_inv, Hq0.
  - intros f Hf. destruct (HF f Hf) as [u' Hu]. eapply validate_state_inv, Hu.
  - eauto.
Qed.

(** The sink nodes of an automaton built by [src/DFSM.ts] are the states
    all of whose transitions loop. *)
Lemma final_check_sink_nodes Q' Σ' q0' F' lbl σ0 A σ :
  constructor Q' Σ' q0' F' lbl σ0 = (inr A, σ) ->
  forall q, In q (sink_nodes A) <->
            In q (Q A) /\ forall a, In a (Σ A) -> δ σ q a = Some q.
Proof.
  intros H. apply constructor_inv in H as (_ & _ & _ & sinks & Hfin & ->).
  simpl. apply δ_final_check_spec in Hfin. apply Hfin.
Qed.

Lemma constructed_closed Q' Σ' q0' F' lbl σ0 A σ :
  constructor Q' Σ' q0' F' lbl σ0 = (inr A, σ) ->
  forall q a, In q (Q A) -> In a (Σ A) ->
              exists n, δ σ q a = Some n /\ In n (Q A).
Proof.
  intros H. apply constructor_inv in H as (_ & _ & _ & sinks & Hfin & ->).
  simpl. apply δ_final_check_spec in Hfin. apply Hfin.
Qed.

Lemma constructed_q0 Q' Σ' q0' F' lbl σ0 A σ :
  constructor Q' Σ' q0' F' lbl σ0 = (inr A, σ) -> In (q0 A) (Q A).
Proof.
  intros H. apply constructor_inv in H as (_ & Hq0 & _ & sinks & _ & ->).
  exact Hq0.
Qed.

Lemma constructed_sinks_loop Q' Σ' q0' F' lbl σ0 A σ :
  constructor Q' Σ' q0' F' lbl σ0 = (inr A, σ) ->
  forall q, In q (sink_nodes A) ->
            In q (Q A) /\ forall a, In a (Σ A) -> δ σ q a = Some q.
Proof.
  intros H q Hq. now apply (final_check_sink_nodes _ _ _ _ _ _ _ _ H) in Hq.
Qed.

(** The invariants of the data model: Q, Σ and F have no duplicates, q0 is
    a state and F is a subset of Q. *)
Lemma constructed_invariants Q' Σ' q0' F' lbl σ0 A σ :
  constructor Q' Σ' q0' F' lbl σ0 = (inr A, σ) ->
  NoDup (Q A) /\ NoDup (Σ A) /\ NoDup (F A) /\ In (q0 A) (Q A) /\
  (forall f, In f (F A) -> In f (Q A)).
Proof.
  intros H. apply constructor_inv in H as (_ & Hq0 & HF & sinks & _ & ->).
  simpl. repeat split; auto using NoDup_Array_from_Set.
Qed.

(** ** Reading an input *)

Lemma validate_input_ok Σs input :
  (forall c, In c (split input) -> In c Σs) ->
  validate_input Σs input = inr (split input).
Proof.
  intros H. unfold validate_input. apply mapM_validate_ok.
  intros c Hc. apply validate_char_ok. auto.
Qed.

Lemma validate_input_inv Σs input parsed :
  validate_input Σs input = inr parsed ->
  parsed = split input /\ forall c, In c (split input) -> In c Σs.
Proof.
  unfold validate_input. intros H.
  apply mapM_validate_inv in H as [-> H]. split; [reflexivity|].
  intros c Hc. destruct (H c Hc) as [u Hu]. eapply validate_char_inv, Hu.
Qed.

(** An input either lies in the alphabet or has a first character outside. *)
Lemma first_outside (Σs l : list string) :
  (forall c, In c l -> In c Σs) \/
  exists l1 c l2, l = l1 ++ c :: l2 /\ (forall x, In x l1 -> In x Σs) /\
                  ~ In c Σs.
Proof.
  induction l as [|x l IH].
  - left. intros c [].
  - destruct (includes Σs x) eqn:E.
    + apply includes_In in E. destruct IH as [IH|(l1 & c & l2 & -> & H1 & Hc)].
      * left. intros c [<-|Hc]; auto.
      * right. exists (x :: l1), c, l2. repeat split; auto.
        intros y [<-|Hy]; auto.
    + apply includes_not_In in E. right. exists [], x, l. repeat split; auto.
      intros y [].
Qed.

Lemma validate_input_ko Σs input l1 c l2 :
  split input = l1 ++ c :: l2 -> (forall x, In x l1 -> In x Σs) ->
  ~ In c Σs -> validate_input Σs input = inl (SymbolNotInΣ c).
Proof.
  intros E H1 Hc. unfold validate_input. rewrite E.
  apply mapM_validate_ko.
  - intros y Hy. apply validate_char_ok. auto.
  - apply validate_char_ko, Hc.
Qed.

Section Run.

Variables (σ : store) (Qs : list state) (Σs : list symbol)
          (sinks : list state).

Hypothesis closed :
  forall q a, In q Qs -> In a Σs -> exists n, δ σ q a = Some n /\ In n Qs.

Hypothesis sinks_loop :
  forall q, In q sinks -> In q Qs /\ forall a, In a Σs -> δ σ q a = Some q.

Lemma plain_fold_closed parsed q :
  In q Qs -> (forall c, In c parsed -> In c Σs) ->
  exists q', plain_fold σ parsed q = Some q' /\ In q' Qs.
Proof.
  revert q. induction parsed as [|a rest IH]; simpl; intros q Hq Hin.
  - eauto.
  - destruct (closed q a Hq) as (n & Hn & HnQ); [auto|].
    rewrite Hn. apply IH; auto.
Qed.

Lemma plain_fold_sink parsed q :
  In q sinks -> (forall c, In c parsed -> In c Σs) ->
  plain_fold σ parsed q = Some q.
Proof.
  intros Hq. induction parsed as [|a rest IH]; simpl; intros Hin.
  - reflexivity.
  - destruct (sinks_loop q Hq) as [_ Hloop]. rewrite Hloop by auto. auto.
Qed.

Lemma read_loop_plain_fold parsed q :
  In q Qs -> (forall c, In c parsed -> In c Σs) ->
  exists q', read_loop σ sinks parsed q = inr q' /\
             plain_fold σ parsed q = Some q' /\ In q' Qs.
Proof.
  revert q. induction parsed as [|a rest IH]; intros q Hq Hin.
  - simpl. eauto.
  - cbn [read_loop]. destruct (includes sinks q) eqn:Es.
    + apply includes_In in Es. exists q. repeat split; auto.
      apply plain_fold_sink; auto.
    + cbn [plain_fold]. destruct (closed q a Hq) as (n & Hn & HnQ).
      { apply Hin. left. reflexivity. }
      rewrite Hn. apply IH; auto. intros c Hc. apply Hin. right. exact Hc.
Qed.

End Run.

(** ** The automata of the tests *)

Lemma A001_constructed :
  constructor ["q0"; "q1"; "e"] ["0"; "1"] "q0" ["q0"; "q1"] "0+(01)*(0+Ɛ)"
    A001_store = (inr A001, A001_store).
Proof. reflexivity. Qed.

Lemma A000_constructed :
  constructor ["q0"; "q1"; "q2"; "q3"] ["0"; "1"] "q0" ["q2"]
    "(001+010+100+00+111)(001+010+100+00+111)*+1"
    A000_store = (inr A000, A000_store).
Proof. reflexivity. Qed.

(** The scenarios of the tests. *)
Example A000_scenarios :
  test A000_store A000 "1" = true /\ test A000_store A000 "11" = false /\
  test A000_store A000 "" = false /\ test A000_store A000 "0011" = false.
Proof. repeat split. Qed.

Example A001_scenarios :
  test A001_store A001 "" = true /\ test A001_store A001 "0101" = true /\
  test A001_store A001 "00" = false /\ read A001_store A001 "00" = inr "e".
Proof. repeat split. Qed.

Lemma A003_constructed :
  constructor A003_states A003_alphabet "_" ["5"] "(a+z)*script(a+z)*"
    A003_store = (inr A003, A003_completed).
Proof. vm_compute. reflexivity. Qed.

Example A003_scenarios :
  test A003_completed A003 "javascript" = true /\
  test A003_completed A003 "scrip" = false /\
  test A003_completed A003 "sscriptx" = true /\
  test A003_completed A003 "Script" = false.
Proof. vm_compute. repeat split. Qed.

(** ** Totality and closure of δ, and the state [read] returns *)

(** C2: for an automaton whose construction succeeds, δ(q,a) is defined and
    in Q for every q in Q and a in Σ, and [read] returns a state of Q for
    every input whose characters are all in Σ. *)
Theorem delta_total_read_in_Q Q' Σ' q0' F' lbl σ0 A σ :
  constructor Q' Σ' q0' F' lbl σ0 = (inr A, σ) ->
  (forall q a, In q (Q A) -> In a (Σ A) ->
     exists q', δ σ q a = Some q' /\ In q' (Q A)) /\
  (forall input, (forall c, In c (split input) -> In c (Σ A)) ->
     exists q, read σ A input = inr q /\ In q (Q A)).
Proof.
  intros H. pose proof (constructed_closed _ _ _ _ _ _ _ _ H) as Hcl.
  split; [exact Hcl|]. intros input Hin.
  unfold read. rewrite validate_input_ok by exact Hin. simpl.
  destruct (read_loop_plain_fold σ (Q A) (Σ A) (sink_nodes A) Hcl
              (constructed_sinks_loop _ _ _ _ _ _ _ _ H)
              (split input) (q0 A)) as (q' & Hr & _ & Hq').
  - eapply constructed_q0, H.
  - exact Hin.
  - eauto.
Qed.

Lemma delta_total_read_in_Q_witness :
  (exists q', δ A001_store "q1" "1" = Some q' /\ In q' (Q A001)) /\
  (exists q, read A001_store A001 "0100" = inr q /\ In q (Q A001)).
Proof.
  destruct (delta_total_read_in_Q _ _ _ _ _ _ _ _ A001_constructed)
    as [Hd Hr].
  split.
  - apply Hd; simpl; auto.
  - apply Hr. simpl. intros c [<-|[<-|[<-|[<-|[]]]]]; auto.
Defined.

(** ** The sink short-circuit *)

(** C5: for an automaton whose construction succeeds and that has a sink
    state, [read] returns on every input over Σ the state the plain fold of δ
    from q0 reaches; the early exit does not change the result.  (The
    hypothesis on the sink states is the claim's; the proof does not need
    it.) *)
Theorem early_exit_equivalence Q' Σ' q0' F' lbl σ0 A σ input :
  constructor Q' Σ' q0' F' lbl σ0 = (inr A, σ) ->
  sink_nodes A <> [] ->
  (forall c, In c (split input) -> In c (Σ A)) ->
  exists q, read σ A input = inr q /\
            plain_fold σ (split input) (q0 A) = Some q.
Proof.
  intros H _ Hin.
  unfold read. rewrite validate_input_ok by exact Hin. simpl.
  destruct (read_loop_plain_fold σ (Q A) (Σ A) (sink_nodes A)
              (constructed_closed _ _ _ _ _ _ _ _ H)
              (constructed_sinks_loop _ _ _ _ _ _ _ _ H)
              (split input) (q0 A)) as (q' & Hr & Hp & _).
  - eapply constructed_q0, H.
  - exact Hin.
  - eauto.
Qed.

Lemma early_exit_equivalence_witness :
  exists q, read A001_store A001 "0010" = inr q /\
            plain_fold A001_store (split "0010") (q0 A001) = Some q.
Proof.
  apply (early_exit_equivalence _ _ _ _ _ _ _ _ "0010" A001_constructed).
  - discriminate.
  - simpl. intros c [<-|[<-|[<-|[<-|[]]]]]; auto.
Defined.

(** ** Membership testing *)

(** C4: for an automaton whose construction succeeds, [test] is a total
    function to the booleans: it is false whenever [read] fails, which
    happens only on a character outside Σ, and when [read] succeeds it is
    true exactly when the state reached is in F. *)
Theorem test_total Q' Σ' q0' F' lbl σ0 A σ input :
  constructor Q' Σ' q0' F' lbl σ0 = (inr A, σ) ->
  (forall e, read σ A input = inl e ->
     test σ A input = false /\
     exists c, e = SymbolNotInΣ c /\ In c (split input) /\ ~ In c (Σ A)) /\
  (forall q, read σ A input = inr q ->
     (test σ A input = true <-> In q (F A))) /\
  ((exists e, read σ A input = inl e) \/ (exists q, read σ A input = inr q)).
Proof.
  intros H. split; [|split].
  - intros e He. split; [unfold test; now rewrite He|].
    destruct (first_outside (Σ A) (split input))
      as [Hin|(l1 & c & l2 & E & H1 & Hc)].
    + destruct (delta_total_read_in_Q _ _ _ _ _ _ _ _ H) as [_ Hr].
      destruct (Hr input Hin) as (q & Hq & _). congruence.
    + exists c. unfold read in He.
      rewrite (validate_input_ko _ _ _ _ _ E H1 Hc) in He. simpl in He.
      inversion He. repeat split; [|exact Hc].
      rewrite E. apply in_app_iff. right. left. reflexivity.
  - intros q Hq. unfold test. rewrite Hq. apply includes_In.
  - destruct (read σ A input); eauto.
Qed.

Lemma test_total_witness :
  (test A001_store A001 "01x" = false /\
   exists c, SymbolNotInΣ "x" = SymbolNotInΣ c /\ In c (split "01x") /\
             ~ In c (Σ A001)) /\
  (test A001_store A001 "010" = true <-> In "q1" (F A001)).
Proof.
  split.
  - apply (test_total _ _ _ _ _ _ _ _ "01x" A001_constructed). reflexivity.
  - apply (test_total _ _ _ _ _ _ _ _ "010" A001_constructed). reflexivity.
Defined.

(** ** Characters outside the alphabet *)

Lemma first_unknown_app Σs l1 c l2 :
  (forall x, In x l1 -> In x Σs) -> ~ In c Σs ->
  first_unknown Σs (l1 ++ c :: l2) = Some (length l1) /\
  nth_error (l1 ++ c :: l2) (length l1) = Some c.
Proof.
  intros H1 Hc. induction l1 as [|x l1 IH]; simpl.
  - apply includes_not_In in Hc. rewrite Hc. auto.
  - assert (Hx : includes Σs x = true) by (apply includes_In; simpl in H1; auto).
    rewrite Hx. destruct IH as [-> ->]; simpl in *; auto.
Qed.

(** C6, as amended: on an input with a character outside Σ, [read] returns
    no state; it throws the error of [validate_char] for the first such
    character, whose message holds that character and nothing else. *)
Theorem read_unknown_symbol σ A input :
  (exists c, In c (split input) /\ ~ In c (Σ A)) ->
  exists c p,
    first_unknown (Σ A) (split input) = Some p /\
    nth_error (split input) p = Some c /\ ~ In c (Σ A) /\
    read σ A input = inl (SymbolNotInΣ c) /\
    message (SymbolNotInΣ c) = ("The symbol " ++ c ++ " is not part of the Σ!")%string.
Proof.
  intros (c0 & Hc0 & Hn0).
  destruct (first_outside (Σ A) (split input))
    as [Hin|(l1 & c & l2 & E & H1 & Hc)].
  - exfalso. auto.
  - exists c, (length l1).
    destruct (first_unknown_app (Σ A) l1 c l2 H1 Hc) as [Hf Hn].
    rewrite E. repeat split; auto.
    unfold read. now rewrite (validate_input_ko _ _ _ _ _ E H1 Hc).
Qed.

Lemma read_unknown_symbol_witness :
  exists c p,
    first_unknown (Σ A001) (split "01x0") = Some p /\
    nth_error (split "01x0") p = Some c /\ ~ In c (Σ A001) /\
    read A001_store A001 "01x0" = inl (SymbolNotInΣ c) /\
    message (SymbolNotInΣ c) = ("The symbol " ++ c ++ " is not part of the Σ!")%string.
Proof.
  apply read_unknown_symbol. exists "x". split.
  - simpl. auto.
  - simpl. intros [H|[H|[]]]; discriminate.
Defined.

(** C6, as stated, fails: the error of [read] does not identify the position
    of the offending character.  The inputs [x] and [0x] give the same
    error, with the character at positions 0 and 1. *)
Lemma read_error_hides_position :
  ~ exists position_of : error -> nat,
      forall input e p,
        read A001_store A001 input = inl e ->
        first_unknown (Σ A001) (split input) = Some p ->
        position_of e = p.
Proof.
  intros [f H].
  pose proof (H "x" _ 0 eq_refl eq_refl) as H0.
  pose proof (H "0x" _ 1 eq_refl eq_refl) as H1.
  congruence.
Qed.

(** ** Duplicates in Q, Σ and F *)

Lemma filter_filter {A : Type} (f g : A -> bool) (l : list A) :
  filter f (filter g l) = filter (fun x => g x && f x) l.
Proof.
  induction l as [|x l IH]; simpl; [reflexivity|].
  destruct (g x); simpl; [destruct (f x)|]; now rewrite IH.
Qed.

Lemma fold_Set_add_first_occurrences (l s : list string) :
  fold_left Set_add l s =
  s ++ filter (fun y => negb (includes s y)) (first_occurrences l).
Proof.
  revert s. induction l as [|x l IH]; simpl; intros s.
  - now rewrite app_nil_r.
  - rewrite IH. unfold Set_add. destruct (includes s x) eqn:E; simpl.
    + f_equal. rewrite filter_filter. apply filter_ext. intros y.
      destruct (String.eqb_spec y x) as [->|Hne]; simpl; [now rewrite E|reflexivity].
    + rewrite <- app_assoc. simpl. do 2 f_equal. rewrite filter_filter.
      apply filter_ext. intros y. rewrite includes_app. simpl.
      rewrite String.eqb_sym.
      destruct (String.eqb y x); destruct (includes s y); reflexivity.
Qed.

(** [Array.from(new Set(l))] drops the duplicates of [l] and keeps the first
    occurrences. *)
Lemma Array_from_Set_first_occurrences (l : list string) :
  Array_from_Set l = first_occurrences l.
Proof.
  unfold Array_from_Set. rewrite fold_Set_add_first_occurrences. simpl.
  induction (first_occurrences l) as [|x k IH]; simpl; congruence.
Qed.

Lemma first_occurrences_idem (l : list string) :
  Array_from_Set (first_occurrences l) = first_occurrences l.
Proof.
  rewrite <- Array_from_Set_first_occurrences. apply Array_from_Set_idem.
Qed.

(** C9: duplicates in the lists do not make the construction fail; they are
    dropped, the first occurrences kept, and the construction gives what the
    construction from the lists without duplicates gives: the same outcome,
    the same automaton, the same results of [read] and [test]. *)
Theorem dedup_idempotence Q' Σ' q0' F' lbl σ0 :
  constructor Q' Σ' q0' F' lbl σ0 =
  constructor (first_occurrences Q') (first_occurrences Σ') q0'
    (first_occurrences F') lbl σ0 /\
  (forall A σ, constructor Q' Σ' q0' F' lbl σ0 = (inr A, σ) ->
     Q A = first_occurrences Q' /\ Σ A = first_occurrences Σ' /\
     F A = first_occurrences F') /\
  (forall A σ B τ,
     constructor Q' Σ' q0' F' lbl σ0 = (inr A, σ) ->
     constructor (first_occurrences Q') (first_occurrences Σ') q0'
       (first_occurrences F') lbl σ0 = (inr B, τ) ->
     forall input, read σ A input = read τ B input /\
                   test σ A input = test τ B input).
Proof.
  assert (E : constructor Q' Σ' q0' F' lbl σ0 =
              constructor (first_occurrences Q') (first_occurrences Σ') q0'
                (first_occurrences F') lbl σ0).
  { unfold constructor. now rewrite !first_occurrences_idem,
      !Array_from_Set_first_occurrences. }
  split; [exact E|]. split.
  - intros A σ H. apply constructor_inv in H as (_ & _ & _ & s & _ & ->).
    simpl. now rewrite !Array_from_Set_first_occurrences.
  - intros A σ B τ HA HB input. rewrite E, HB in HA.
    inversion HA; subst. auto.
Qed.

Lemma dedup_idempotence_witness :
  Q A001 = first_occurrences ["q0"; "q1"; "q0"; "e"; "q1"] /\
  Σ A001 = first_occurrences ["0"; "1"; "1"; "0"] /\
  F A001 = first_occurrences ["q0"; "q0"; "q1"].
Proof.
  apply (proj1 (proj2 (dedup_idempotence ["q0"; "q1"; "q0"; "e"; "q1"]
                         ["0"; "1"; "1"; "0"] "q0" ["q0"; "q0"; "q1"]
                         "0+(01)*(0+Ɛ)" A001_store)) A001 A001_store).
  reflexivity.
Defined.

(** ** Keys of the table that are not states *)

Lemma mapM_validate_state_foreign Qs (ks : list string) k :
  find (fun k => negb (includes Qs k)) ks = Some k ->
  mapM (fun v => validate_state Qs v ~;; inr v) ks = inl (StateNotInQ k).
Proof.
  induction ks as [|x ks IH]; simpl; [discriminate|].
  destruct (includes Qs x) eqn:E; simpl; intros H.
  - apply includes_In in E. rewrite validate_state_ok by exact E. simpl.
    now rewrite IH.
  - inversion H; subst. apply includes_not_In in E.
    now rewrite validate_state_ko.
Qed.

Lemma find_foreign_exists Qs (ks : list string) k :
  In k ks -> ~ In k Qs ->
  exists k', find (fun k => negb (includes Qs k)) ks = Some k'.
Proof.
  induction ks as [|x ks IH]; simpl; [contradiction|]. intros Hk Hn.
  destruct (includes Qs x) eqn:E; simpl; [|eauto].
  destruct Hk as [->|Hk]; [|auto].
  apply includes_In in E. contradiction.
Qed.

(** C10: a key of the raw table that is not in the normalised Q makes the
    construction fail with the error of [validate_state] naming that key
    (the first such key in the order of [Object.keys] when there are
    several), whatever the entries of the states of Q are; the table has not
    been written to. *)
Theorem foreign_key_rejected Q' Σ' q0' F' lbl σ0 k :
  In k (keys (table σ0)) -> ~ In k (Array_from_Set Q') ->
  exists k',
    first_foreign_key (Array_from_Set Q') (table σ0) = Some k' /\
    In k' (keys (table σ0)) /\ ~ In k' (Array_from_Set Q') /\
    constructor Q' Σ' q0' F' lbl σ0 = (inl (StateNotInQ k'), σ0) /\
    ((forall k2, In k2 (keys (table σ0)) -> ~ In k2 (Array_from_Set Q') ->
        k2 = k) -> k' = k).
Proof.
  intros Hk Hn.
  destruct (find_foreign_exists _ _ _ Hk Hn) as [k' Hf].
  exists k'. pose proof (find_some _ _ Hf) as [Hin Hout].
  apply negb_true_iff, includes_not_In in Hout.
  repeat split; auto.
  unfold constructor, bind, complete_δ.
  now rewrite (mapM_validate_state_foreign _ _ _ Hf).
Qed.

Lemma foreign_key_rejected_witness :
  exists k',
    first_foreign_key (Array_from_Set (Q A001)) (table A001_extra_store)
      = Some k' /\
    In k' (keys (table A001_extra_store)) /\
    ~ In k' (Array_from_Set (Q A001)) /\
    constructor (Q A001) (Σ A001) "q0" (F A001) "" A001_extra_store
      = (inl (StateNotInQ k'), A001_extra_store) /\
    ((forall k2, In k2 (keys (table A001_extra_store)) ->
        ~ In k2 (Array_from_Set (Q A001)) -> k2 = "q7") -> k' = "q7").
Proof.
  apply foreign_key_rejected.
  - simpl. auto.
  - simpl. intros [H|[H|[H|[]]]]; discriminate.
Defined.

(** ** The sink nodes *)

(** With an empty alphabet every state of an automaton built by
    [src/DFSM.ts] is a sink node. *)
Lemma final_check_empty_alphabet Q' Σ' q0' F' lbl σ0 A σ :
  constructor Q' Σ' q0' F' lbl σ0 = (inr A, σ) -> Σ A = [] ->
  forall q, In q (Q A) -> In q (sink_nodes A).
Proof.
  intros H E q Hq. apply (final_check_sink_nodes _ _ _ _ _ _ _ _ H).
  split; [exact Hq|]. rewrite E. intros a [].
Qed.

(** C1 fails in the single-pass variant: a state given in short-hand whose
    listed targets all equal the default state is taken for a sink node, also
    when the default is another state.  Here δ(a,0) = b, yet [a] is among the
    sink nodes, and [read] stops in [a] where the run of δ reaches [b]. *)
Theorem single_pass_false_sink :
  exists A σ,
    SinglePass.constructor ["a"; "b"] ["0"] "a" ["b"] "" default_only_store
      = (inr A, σ) /\
    In "a" (Q A) /\ In "a" (sink_nodes A) /\ δ σ "a" "0" = Some "b" /\
    read σ A "0" = inr "a" /\
    plain_fold σ (split "0") (q0 A) = Some "b" /\
    test σ A "0" = false.
Proof.
  eexists. eexists. split; [reflexivity|]. simpl. repeat split; auto.
Qed.

(** On the same input the class of [src/DFSM.ts] finds the sink nodes the
    claim describes. *)
Example final_check_no_false_sink :
  exists A σ,
    constructor ["a"; "b"] ["0"] "a" ["b"] "" default_only_store
      = (inr A, σ) /\
    sink_nodes A = ["b"] /\ read σ A "0" = inr "b" /\ test σ A "0" = true.
Proof. eexists. eexists. split; [reflexivity|]. repeat split. Qed.

(** ** Completion of the short-hand entries *)

Lemma get_assign_same (o : list (string * string)) k v :
  get (assign o k v) k
  = match get o k with
    | Some _ => Some v
    | None => if String.eqb k "__proto__" then None else Some v
    end.
Proof.
  unfold assign. destruct (get o k) eqn:G.
  - apply get_set_same.
  - destruct (String.eqb k "__proto__"); [exact G | apply get_set_same].
Qed.

Lemma get_assign_other (o : list (string * string)) k k' v :
  k <> k' -> get (assign o k v) k' = get o k'.
Proof.
  intros Hne. unfold assign.
  destruct (get o k); [now apply get_set_other|].
  destruct (String.eqb k "__proto__"); [reflexivity | now apply get_set_other].
Qed.

Lemma In_keys_assign (o : list (string * string)) k k' v :
  In k' (keys (assign o k v)) -> In k' (keys o) \/ k' = k.
Proof.
  unfold assign. destruct (get o k).
  - apply In_keys_set.
  - destruct (String.eqb k "__proto__"); [auto | apply In_keys_set].
Qed.

(** A write never defines the property [__proto__]. *)
Lemma get_assign_proto (o : list (string * string)) k v :
  get o "__proto__" = None -> get (assign o k v) "__proto__" = None.
Proof.
  intros G. destruct (String.eqb_spec k "__proto__") as [->|Hne].
  - rewrite get_assign_same, G. reflexivity.
  - now rewrite get_assign_other.
Qed.

Lemma fold_fill_get (provided L : list string) (d : state) (o : transitions)
    (a : string) :
  get (fold_left (fun o a => if includes provided a then o else assign o a d)
         L o) a
  = if includes provided a then get o a
    else if includes L a
         then match get o a with
              | Some _ => Some d
              | None => if String.eqb a "__proto__" then None else Some d
              end
         else get o a.
Proof.
  revert o. induction L as [|x L IH]; simpl; intros o.
  - now destruct (includes provided a).
  - rewrite IH. destruct (includes provided a) eqn:Ea.
    + destruct (includes provided x) eqn:Ex; [reflexivity|].
      apply get_assign_other. intros ->. congruence.
    + destruct (String.eqb_spec x a) as [->|Hne].
      * rewrite Ea, get_assign_same.
        destruct (get o a); [now destruct (includes L a)|].
        destruct (String.eqb a "__proto__"); now destruct (includes L a).
      * destruct (includes provided x); [reflexivity|].
        now rewrite get_assign_other.
Qed.

Lemma fill_defaults_get Σs provided d o a :
  get (fill_defaults Σs provided d o) a
  = if includes provided a then get o a
    else if includes Σs a
         then match get o a with
              | Some _ => Some d
              | None => if String.eqb a "__proto__" then None else Some d
              end
         else get o a.
Proof. apply fold_fill_get. Qed.

(** On the object itself: the own properties are kept, and every symbol of
    Σ that the object lacks is given the default, but [__proto__]. *)
Lemma fill_defaults_keys_get Σs d (o : transitions) a :
  get (fill_defaults Σs (keys o) d o) a
  = match get o a with
    | Some s => Some s
    | None => if includes Σs a && negb (String.eqb a "__proto__")
              then Some d else None
    end.
Proof.
  rewrite fill_defaults_get. destruct (get o a) as [s|] eqn:G.
  - apply get_In_keys, includes_In in G. now rewrite G.
  - pose proof G as G'. apply get_None_keys, includes_not_In in G'.
    rewrite G'. destruct (includes Σs a); [|reflexivity].
    now destruct (String.eqb a "__proto__").
Qed.

Lemma validate_provided_spec Qs Σs o v :
  (validate_provided Qs Σs o v = inr v /\ In v Σs /\
   exists s, get o v = Some s /\ In s Qs) \/
  (exists e, validate_provided Qs Σs o v = inl e /\
             thrown_before_final_check e = true).
Proof.
  unfold validate_provided, validate_char, validate_state.
  destruct (validate_char_from_spec Σs v) as [[Hv E]|[Hv E]];
    rewrite E; simpl; [|right; eauto].
  destruct (get o v) as [s|] eqn:G; simpl; [|right; eauto].
  destruct (validate_state_from_spec Qs s) as [[Hs E']|[Hs E']];
    rewrite E'; simpl; [left; eauto | right; eauto].
Qed.

Lemma mapM_validate_provided Qs Σs o l r :
  mapM (validate_provided Qs Σs o) l = r ->
  (r = inr l /\
   forall v, In v l -> In v Σs /\ exists s, get o v = Some s /\ In s Qs) \/
  (exists e, r = inl e /\ thrown_before_final_check e = true).
Proof.
  revert r. induction l as [|v l IH]; simpl; intros r <-.
  - left. split; [reflexivity | contradiction].
  - destruct (validate_provided_spec Qs Σs o v) as [(E & Hv & Hs)|(e & E & He)];
      rewrite E; simpl; [|right; eauto].
    destruct (IH _ eq_refl) as [[-> Hall]|(e & -> & He)]; simpl.
    + left. split; [reflexivity|]. intros w [<-|Hw]; eauto.
    + right. eauto.
Qed.

(** The two ways [complete_state_transitions] ends. *)
Lemma complete_state_transitions_spec Qs Σs l d σ r σ' :
  complete_state_transitions Qs Σs l d σ = (r, σ') ->
  (r = inr tt /\
   σ' = mkStore
          (heap_set (heap σ) l
             (fill_defaults Σs (keys (heap σ l)) d (heap σ l)))
          (table σ) /\
   In d Qs /\
   forall v, In v (keys (heap σ l)) ->
             In v Σs /\ exists s, get (heap σ l) v = Some s /\ In s Qs) \/
  (exists e, r = inl e /\ σ' = σ /\ thrown_before_final_check e = true).
Proof.
  unfold complete_state_transitions, bind, lift.
  destruct (validate_state_from_spec Qs d) as [[Hd E]|[Hd E]];
    unfold validate_state; rewrite E.
  - destruct (mapM_validate_provided Qs Σs (heap σ l) (keys (heap σ l)) _ eq_refl)
      as [[-> Hall]|(e & -> & He)]; intros H; inversion H; subst.
    + left. auto.
    + right. eauto.
  - intros H. inversion H; subst. right. eauto.
Qed.

(** The completed object, read as a map, is the expansion of the
    short-hand pair, when every symbol of Σ that the pair does not list can
    be given the default. *)
Lemma fill_defaults_expand Σs (P : transitions) d a :
  (forall v, In v (keys P) -> In v Σs) ->
  (In "__proto__" Σs -> In "__proto__" (keys P)) ->
  get (fill_defaults Σs (keys P) d P) a = get (expand Σs P d) a.
Proof.
  intros Hk Hp. rewrite fill_defaults_keys_get.
  assert (Hexp : forall L, get (expand L P d) a =
            if includes L a
            then Some (match get P a with Some s => s | None => d end)
            else None).
  { induction L as [|x L IH]; simpl; [reflexivity|].
    destruct (String.eqb_spec x a) as [->|Hne]; [reflexivity | exact IH]. }
  rewrite Hexp. destruct (get P a) as [s|] eqn:Ga.
  - apply get_In_keys, Hk, includes_In in Ga. now rewrite Ga.
  - destruct (includes Σs a) eqn:Ea; [|reflexivity].
    destruct (String.eqb_spec a "__proto__") as [->|Hne]; [|reflexivity].
    apply includes_In, Hp, In_keys_get in Ea as [s Gs]. congruence.
Qed.

Lemma typeof_row_set (tbl : list (state * entry)) q l0 d0 l k :
  get tbl q = Some (Short l0 d0) ->
  typeof_row typeof_entry (lookup_row (set tbl q (Full l)) k)
  = typeof_row typeof_entry (lookup_row tbl k).
Proof.
  intros G. destruct (String.eqb_spec q k) as [->|Hne].
  - rewrite (lookup_row_Own _ _ _ (get_set_same _ _ _)).
    now rewrite (lookup_row_Own _ _ _ G).
  - now rewrite (lookup_row_ext tbl) by now apply get_set_other.
Qed.

(** One turn of the loop of [complete_δ]. *)
Lemma complete_δ_loop_step Qs Σs q rest σ r σ' :
  complete_δ_loop Qs Σs (q :: rest) σ = (r, σ') ->
  (typeof_row typeof_entry (lookup_row (table σ) q) = "object" /\
   (forall l d, get (table σ) q <> Some (Short l d)) /\
   complete_δ_loop Qs Σs rest σ = (r, σ')) \/
  (exists l d, get (table σ) q = Some (Short l d) /\
     ((exists e, complete_state_transitions Qs Σs l d σ = (inl e, σ) /\
                 r = inl e /\ σ' = σ /\ thrown_before_final_check e = true) \/
      (In d Qs /\
       (forall v, In v (keys (heap σ l)) ->
          In v Σs /\ exists s, get (heap σ l) v = Some s /\ In s Qs) /\
       complete_δ_loop Qs Σs rest
         (mkStore
            (heap_set (heap σ) l
               (fill_defaults Σs (keys (heap σ l)) d (heap σ l)))
            (set (table σ) q (Full l))) = (r, σ')))) \/
  (typeof_row typeof_entry (lookup_row (table σ) q) <> "object" /\
   r = inl (InvalidEntry q) /\ σ' = σ).
Proof.
  cbn [complete_δ_loop].
  destruct (String.eqb_spec
              (typeof_row typeof_entry (lookup_row (table σ) q)) "object")
    as [Ety|Ety]; cbn [negb]; intros H.
  2:{ right. right. inversion H; subst. auto. }
  destruct (lookup_row (table σ) q) as [[l|l d|ty]| | |] eqn:R.
  - left. apply lookup_row_Own_inv in R.
    split; [exact Ety|]. split; [congruence | exact H].
  - right. left. exists l, d. apply lookup_row_Own_inv in R.
    split; [exact R|].
    unfold bind in H.
    destruct (complete_state_transitions Qs Σs l d σ) as [r1 σ1] eqn:C.
    destruct (complete_state_transitions_spec _ _ _ _ _ _ _ C)
      as [(-> & -> & Hd & Hv)|(e & -> & -> & He)].
    + right. simpl in H. auto.
    + left. inversion H; subst. eauto.
  - left. apply lookup_row_Own_inv in R.
    split; [exact Ety|]. split; [congruence | exact H].
  - discriminate.
  - left. split; [exact Ety|]. split; [|exact H]. intros l d G.
    apply lookup_row_Own in G. congruence.
  - discriminate.
Qed.

(** Completing an object that is complete changes nothing. *)
Lemma fold_fill_noop (provided L : list string) (d : state) (o : transitions) :
  (forall a, In a L ->
     In a provided \/ (a = "__proto__" /\ get o "__proto__" = None)) ->
  fold_left (fun o a => if includes provided a then o else assign o a d) L o
  = o.
Proof.
  induction L as [|x L IH]; simpl; intros H; [reflexivity|].
  destruct (includes provided x) eqn:E.
  - apply IH. auto.
  - destruct (H x (or_introl eq_refl)) as [Hx|[-> G]].
    + apply includes_In in Hx. congruence.
    + unfold assign. rewrite G. simpl. apply IH. auto.
Qed.

Lemma fill_defaults_idem Σs d d' (o : transitions) :
  fill_defaults Σs (keys (fill_defaults Σs (keys o) d o)) d'
    (fill_defaults Σs (keys o) d o)
  = fill_defaults Σs (keys o) d o.
Proof.
  unfold fill_defaults at 1. apply fold_fill_noop. intros a Ha.
  pose proof (fill_defaults_keys_get Σs d o a) as G.
  apply includes_In in Ha. rewrite Ha in G. simpl in G.
  destruct (get o a) as [s|] eqn:Go.
  - left. eapply get_In_keys, G.
  - destruct (String.eqb_spec a "__proto__") as [->|Hne]; simpl in G.
    + right. auto.
    + left. eapply get_In_keys, G.
Qed.

(** What the loop of [complete_δ] has done when it ends, with or without
    an error: it has walked a prefix [done] of the keys; the entries of
    these keys are completed, a short-hand pair being replaced by its
    object; the other entries are as they were; and an object is as it was,
    or it is the object of a short-hand pair that was met, as
    [complete_state_transitions] fills it with the default of the pair. *)
Lemma complete_δ_loop_trace Qs Σs ps σ r σ' :
  complete_δ_loop Qs Σs ps σ = (r, σ') ->
  keys (table σ') = keys (table σ) /\
  exists done rest,
    ps = done ++ rest /\
    (r = inr tt -> rest = []) /\
    (forall k, In k done ->
       typeof_row typeof_entry (lookup_row (table σ) k) = "object" /\
       get (table σ') k = option_map completed_entry (get (table σ) k)) /\
    (forall k, ~ In k done -> get (table σ') k = get (table σ) k) /\
    (forall l,
       heap σ' l = heap σ l \/
       exists k d, In k done /\ get (table σ) k = Some (Short l d) /\
         heap σ' l = fill_defaults Σs (keys (heap σ l)) d (heap σ l)) /\
    (forall k rest', rest = k :: rest' ->
       exists e, r = inl e /\ stopped_at Qs Σs σ' k e).
Proof.
  revert σ. induction ps as [|q ps IH]; intros σ H.
  - inversion H; subst. split; [reflexivity|]. exists [], [].
    repeat split; auto; try contradiction. discriminate.
  - apply complete_δ_loop_step in H
      as [(Ety & Hns & H)|[(l & d & G & [(e & C & -> & -> & _)|(_ & Hv & H)])
                          |(Ety & -> & ->)]].
    + (* the entry is kept *)
      destruct (IH _ H) as (Hk & done & rest & -> & Hr & Hd & Hn & Hh & Hf).
      split; [exact Hk|]. exists (q :: done), rest.
      split; [reflexivity|]. split; [exact Hr|].
      split; [|split; [|split; [|exact Hf]]].
      * intros k [<-|Hin]; [|auto]. split; [exact Ety|].
        assert (E : option_map completed_entry (get (table σ) q)
                    = get (table σ) q).
        { destruct (get (table σ) q) as [[l|l d|ty]|] eqn:G; try reflexivity.
          exfalso. exact (Hns _ _ eq_refl). }
        destruct (in_dec string_dec q done) as [Hq|Hq].
        -- apply Hd, Hq.
        -- rewrite E. apply Hn, Hq.
      * intros k Hk'. apply Hn. intros Hin. apply Hk'. right. exact Hin.
      * intros l. destruct (Hh l) as [E|(k & d & Hin & Gk & E)]; [auto|].
        right. exists k, d. repeat split; auto. right. exact Hin.
    + (* the completion of the pair throws *)
      split; [reflexivity|]. exists [], (q :: ps).
      split; [reflexivity|]. split; [discriminate|].
      split; [contradiction|]. split; [reflexivity|]. split; [auto|].
      intros k rest' E. inversion E; subst k rest'. exists e.
      split; [reflexivity|]. right. exists l, d. auto.
    + (* the pair is completed *)
      destruct (IH _ H) as (Hk & done & rest & -> & Hr & Hd & Hn & Hh & Hf).
      simpl in Hk, Hd, Hn, Hh.
      assert (Hk0 : keys (set (table σ) q (Full l)) = keys (table σ)).
      { apply keys_set_In. eapply get_In_keys, G. }
      split; [congruence|]. exists (q :: done), rest.
      split; [reflexivity|]. split; [exact Hr|].
      split; [|split; [|split; [|exact Hf]]].
      * intros k Hin.
        assert (Hq : get (table σ') q = Some (Full l)).
        { destruct (in_dec string_dec q done) as [Hq|Hq].
          - destruct (Hd q Hq) as [_ E]. now rewrite E, get_set_same.
          - now rewrite Hn, get_set_same. }
        destruct (String.eqb_spec q k) as [<-|Hne].
        -- rewrite (lookup_row_Own _ _ _ G), Hq, G. auto.
        -- destruct Hin as [?|Hin]; [contradiction|].
           destruct (Hd k Hin) as [Ty E].
           rewrite (typeof_row_set _ _ _ _ _ _ G) in Ty.
           split; [exact Ty|]. now rewrite E, get_set_other.
      * intros k Hk'. rewrite Hn by (intros Hin; apply Hk'; right; exact Hin).
        apply get_set_other. intros ->. apply Hk'. left. reflexivity.
      * intros l0. destruct (Nat.eq_dec l0 l) as [->|Hl].
        -- right. exists q, d. split; [left; reflexivity|]. split; [exact G|].
           destruct (Hh l) as [E|(k & d' & Hin & Gk & E)]; rewrite E;
             rewrite heap_set_same; [reflexivity|].
           apply fill_defaults_idem.
        -- destruct (Hh l0) as [E|(k & d' & Hin & Gk & E)];
             rewrite heap_set_other in * by exact Hl; [auto|].
           right. exists k, d'. split; [right; exact Hin|]. split; [|exact E].
           destruct (String.eqb_spec q k) as [->|Hne].
           ++ rewrite get_set_same in Gk. discriminate.
           ++ now rewrite get_set_other in Gk.
    + split; [reflexivity|]. exists [], (q :: ps).
      split; [reflexivity|]. split; [discriminate|].
      split; [contradiction|]. split; [reflexivity|]. split; [auto|].
      intros k rest' E. inversion E; subst k rest'. exists (InvalidEntry q).
      split; [reflexivity|]. left. auto.
Qed.

(** The loop keeps the keys of the table and the object of every entry;
    it only adds properties to the objects of the heap. *)
Lemma complete_δ_loop_frame Qs Σs ps σ r σ' :
  complete_δ_loop Qs Σs ps σ = (r, σ') ->
  keys (table σ') = keys (table σ) /\
  (forall k, option_map object_of (get (table σ') k)
             = option_map object_of (get (table σ) k)) /\
  (forall k l, get (table σ) k = Some (Full l) ->
               get (table σ') k = Some (Full l)) /\
  (forall l a s, get (heap σ l) a = Some s -> get (heap σ' l) a = Some s).
Proof.
  intros H.
  destruct (complete_δ_loop_trace _ _ _ _ _ _ H)
    as (Hk & done & rest & _ & _ & Hd & Hn & Hh & _).
  assert (Ht : forall k, get (table σ') k = get (table σ) k \/
                 get (table σ') k
                 = option_map completed_entry (get (table σ) k)).
  { intros k. destruct (in_dec string_dec k done) as [Hin|Hin].
    - right. apply Hd, Hin.
    - left. apply Hn, Hin. }
  split; [exact Hk|]. split; [|split].
  - intros k. destruct (Ht k) as [->| ->]; [reflexivity|].
    now destruct (get (table σ) k) as [[]|].
  - intros k l G. destruct (Ht k) as [->| ->]; rewrite G; reflexivity.
  - intros l a s G. destruct (Hh l) as [->|(k & d & _ & _ & ->)]; [exact G|].
    now rewrite fill_defaults_keys_get, G.
Qed.

(** The loop never defines the property [__proto__] of an object. *)
Lemma complete_δ_loop_proto Qs Σs ps σ r σ' l :
  complete_δ_loop Qs Σs ps σ = (r, σ') ->
  get (heap σ l) "__proto__" = None -> get (heap σ' l) "__proto__" = None.
Proof.
  intros H G.
  destruct (complete_δ_loop_trace _ _ _ _ _ _ H)
    as (_ & done & rest & _ & _ & _ & _ & Hh & _).
  destruct (Hh l) as [->|(k & d & _ & _ & ->)]; [exact G|].
  rewrite fill_defaults_keys_get, G.
  now rewrite andb_false_r.
Qed.

(** Without a short-hand entry the loop writes nothing. *)
Lemma complete_δ_loop_no_short Qs Σs ps σ r σ' :
  (forall q l d, get (table σ) q <> Some (Short l d)) ->
  complete_δ_loop Qs Σs ps σ = (r, σ') -> σ' = σ.
Proof.
  intros Hn. induction ps as [|q rest IH]; intros H.
  - now inversion H.
  - apply complete_δ_loop_step in H
      as [(_ & _ & H)|[(l & d & G & _)|(_ & _ & ->)]]; auto.
    exfalso. eapply Hn, G.
Qed.

(** After the loop every key it walked holds an object or [null], and no
    short-hand pair. *)
Lemma complete_δ_loop_completed Qs Σs ps σ σ' :
  complete_δ_loop Qs Σs ps σ = (inr tt, σ') ->
  forall k, In k ps ->
    typeof_row typeof_entry (lookup_row (table σ') k) = "object" /\
    get (table σ') k = option_map completed_entry (get (table σ) k).
Proof.
  intros H k Hin.
  destruct (complete_δ_loop_trace _ _ _ _ _ _ H)
    as (_ & done & rest & -> & Hr & Hd & _).
  rewrite (Hr eq_refl), app_nil_r in Hin.
  destruct (Hd k Hin) as [Ty E]. split; [|exact E].
  unfold lookup_row in *. rewrite E.
  destruct (get (table σ) k) as [[l|l d|ty]|]; simpl in *; auto.
Qed.

(** An own entry at a key the loop walked is, after the loop, an object
    with transitions or [null]. *)
Lemma complete_δ_loop_own Qs Σs ps σ σ' k e :
  complete_δ_loop Qs Σs ps σ = (inr tt, σ') ->
  In k ps -> get (table σ') k = Some e ->
  (exists l, e = Full l) \/ e = Prim "object".
Proof.
  intros H Hin G.
  destruct (complete_δ_loop_completed _ _ _ _ _ H k Hin) as [Ty E].
  rewrite (lookup_row_Own _ _ _ G) in Ty. simpl in Ty.
  rewrite G in E. destruct (get (table σ) k) as [e0|]; [|discriminate].
  simpl in E. injection E as ->.
  destruct e0 as [l|l d|ty]; simpl in *; [eauto | eauto | right; congruence].
Qed.

Lemma complete_δ_cases Qs Σs σ r σ' :
  complete_δ Qs Σs σ = (r, σ') ->
  (exists e, r = inl e /\ σ' = σ /\ thrown_before_final_check e = true /\
     exists c, In c (keys (table σ)) /\ ~ In c Qs /\ e = StateNotInQ c) \/
  ((forall k, In k (keys (table σ)) -> In k Qs) /\
   complete_δ_loop Qs Σs (keys (table σ)) σ = (r, σ')).
Proof.
  unfold complete_δ.
  destruct (mapM _ (keys (table σ))) as [e|ps] eqn:E; intros H.
  - left. injection H as Hr Hs. subst r σ'. exists e.
    split; [reflexivity|]. split; [reflexivity|].
    destruct (first_outside Qs (keys (table σ)))
      as [Hin|(l1 & c & l2 & E' & H1 & Hc)].
    + rewrite mapM_validate_ok in E; [discriminate|].
      intros x Hx. apply validate_state_ok. auto.
    + pose proof E' as E''. rewrite E' in E.
      rewrite (mapM_validate_ko _ l1 l2 c (StateNotInQ c)) in E.
      * inversion E. split; [reflexivity|]. exists c.
        split; [|split; [exact Hc | reflexivity]].
        rewrite E''. apply in_or_app. right. left. reflexivity.
      * intros y Hy. apply validate_state_ok. auto.
      * apply validate_state_ko, Hc.
  - right. apply mapM_validate_inv in E as [-> Hall]. split; [|exact H].
    intros k Hk. destruct (Hall k Hk) as [u Hu]. eapply validate_state_inv, Hu.
Qed.

Lemma complete_δ_loop_error Qs Σs ps σ e σ' :
  complete_δ_loop Qs Σs ps σ = (inl e, σ') ->
  thrown_before_final_check e = true.
Proof.
  revert σ. induction ps as [|q rest IH]; intros σ H; [discriminate|].
  apply complete_δ_loop_step in H
    as [(_ & _ & H)|[(l & d & G & [(e' & _ & E & _ & He)|(_ & _ & H)])
                    |(_ & E & _)]]; eauto.
  - inversion E; subst. exact He.
  - inversion E; subst. reflexivity.
Qed.

Lemma complete_δ_error Qs Σs σ e σ' :
  complete_δ Qs Σs σ = (inl e, σ') -> thrown_before_final_check e = true.
Proof.
  intros H. apply complete_δ_cases in H as [(e' & E & _ & He & _)|[_ H]].
  - inversion E; subst. exact He.
  - eapply complete_δ_loop_error, H.
Qed.

Lemma complete_δ_frame Qs Σs σ r σ' :
  complete_δ Qs Σs σ = (r, σ') ->
  keys (table σ') = keys (table σ) /\
  (forall k, option_map object_of (get (table σ') k)
             = option_map object_of (get (table σ) k)) /\
  (forall l a s, get (heap σ l) a = Some s -> get (heap σ' l) a = Some s).
Proof.
  intros H. apply complete_δ_cases in H as [(e & _ & -> & _)|[_ H]]; [auto|].
  apply complete_δ_loop_frame in H as (Hk & Ho & _ & Hh). auto.
Qed.

(** After [complete_δ] every own entry of the table is an object with
    transitions or [null]. *)
Lemma complete_δ_own Qs Σs σ σ' k e :
  complete_δ Qs Σs σ = (inr tt, σ') ->
  get (table σ') k = Some e -> (exists l, e = Full l) \/ e = Prim "object".
Proof.
  intros H G. pose proof (complete_δ_frame _ _ _ _ _ H) as (Hk & _).
  apply complete_δ_cases in H as [(e' & E & _)|[_ H]]; [discriminate|].
  eapply complete_δ_loop_own; [exact H| |exact G].
  rewrite <- Hk. eapply get_In_keys, G.
Qed.

(** The constructor returns the store [complete_δ] leaves. *)
Lemma constructor_store Q' Σ' q0' F' lbl σ0 r σ :
  constructor Q' Σ' q0' F' lbl σ0 = (r, σ) ->
  exists r1,
    complete_δ (Array_from_Set Q') (Array_from_Set Σ') σ0 = (r1, σ) /\
    forall e, r1 = inl e -> r = inl e.
Proof.
  unfold constructor, bind, lift.
  destruct (complete_δ _ _ σ0) as [[e|[]] σ1]; intros H.
  - inversion H; subst. exists (inl e). split; [reflexivity|].
    intros e' E. inversion E. reflexivity.
  - assert (Hs : σ1 = σ).
    { destruct (validate_state _ q0'); [now inversion H|].
      destruct (mapM _ (Array_from_Set F')); [now inversion H|].
      destruct (δ_final_check _ _ σ1); now inversion H. }
    subst σ1. exists (inr tt). split; [reflexivity | discriminate].
Qed.

(** ** The caller's table *)

(** C7, as stated, fails: the constructor completes the table it is given
    in place.  After a construction that succeeds the caller's table holds
    the completed object where it held the short-hand pair; a construction
    that fails at its second entry has already completed the first. *)
Lemma construction_writes_to_table :
  (exists A σ,
     constructor ["a"; "b"] ["0"] "a" ["b"] "" default_only_store
       = (inr A, σ) /\
     get (table default_only_store) "a" = Some (Short 0 "b") /\
     get (table σ) "a" = Some (Full 0) /\
     heap default_only_store 0 = [] /\ heap σ 0 = [("0", "b")]) /\
  (exists e σ,
     constructor ["a"; "b"] ["0"] "a" [] "" bad_default_store = (inl e, σ) /\
     get (table bad_default_store) "a" = Some (Short 0 "a") /\
     get (table σ) "a" = Some (Full 0) /\
     heap bad_default_store 0 = [] /\ heap σ 0 = [("0", "a")]).
Proof.
  split; eexists; eexists; (split; [reflexivity|]); repeat split.
Qed.

(** C7, as amended: a construction ends with an automaton or with an error,
    and in both cases it has worked on the caller's table in place.  The
    keys of the table are kept.  The entries of a prefix [done] of the keys
    are completed: a short-hand pair among them is replaced by its object,
    any other entry is kept; the entries of the other keys are as they
    were.  The prefix is all the keys when the construction succeeds; when
    keys are left, the construction has failed with the error of
    [complete_δ]: at the first key left, whose entry is not an object or is
    a pair the completion of which throws, or, with no key done, for a key
    of the table that is not a state.  An object is as it was, or it is the
    object of a completed pair as [complete_state_transitions] fills it:
    its properties are kept, and it gains the symbols of Σ it lacked
    ([__proto__] apart, which no write defines), with the default of that
    pair.  A table with no short-hand entry is left as it was. *)
Theorem construction_in_place Q' Σ' q0' F' lbl σ0 r σ :
  constructor Q' Σ' q0' F' lbl σ0 = (r, σ) ->
  keys (table σ) = keys (table σ0) /\
  (exists done rest,
     keys (table σ0) = done ++ rest /\
     (forall A, r = inr A -> rest = []) /\
     (forall k, In k done ->
        get (table σ) k = option_map completed_entry (get (table σ0) k)) /\
     (forall k rest', rest = k :: rest' ->
        exists e, r = inl e /\
          (stopped_at (Array_from_Set Q') (Array_from_Set Σ') σ k e \/
           (done = [] /\
            exists c, In c (keys (table σ0)) /\
                      ~ In c (Array_from_Set Q') /\ e = StateNotInQ c))) /\
     (forall k, ~ In k done -> get (table σ) k = get (table σ0) k) /\
     (forall l,
        heap σ l = heap σ0 l \/
        exists k d, In k done /\ get (table σ0) k = Some (Short l d) /\
          heap σ l = fill_defaults (Array_from_Set Σ') (keys (heap σ0 l)) d
                       (heap σ0 l) /\
          forall a,
            get (heap σ l) a
            = match get (heap σ0 l) a with
              | Some s => Some s
              | None => if includes (Array_from_Set Σ') a
                           && negb (String.eqb a "__proto__")
                        then Some d else None
              end)) /\
  ((forall q l d, get (table σ0) q <> Some (Short l d)) -> σ = σ0).
Proof.
  intros H. pose proof (constructor_store _ _ _ _ _ _ _ _ H) as (r1 & Hc & He).
  assert (Hr1 : forall A, r = inr A -> r1 = inr tt).
  { intros A ->. apply constructor_inv in H as (Hc' & _). congruence. }
  destruct (complete_δ_frame _ _ _ _ _ Hc) as (Hk & _).
  split; [exact Hk|].
  apply complete_δ_cases in Hc as [(e & -> & -> & _ & Hc)|[_ Hc]].
  - split; [|reflexivity]. exists [], (keys (table σ0)).
    split; [reflexivity|]. split; [intros A HA; now apply Hr1 in HA|].
    split; [contradiction|].
    split; [intros k rest' _; exists e; split; [apply He; reflexivity|]; auto|].
    auto.
  - split; [|intros Hn; eapply complete_δ_loop_no_short; eauto].
    destruct (complete_δ_loop_trace _ _ _ _ _ _ Hc)
      as (_ & done & rest & E & Hr & Hd & Hn & Hh & Hf).
    exists done, rest. split; [exact E|].
    split; [intros A HA; eapply Hr, Hr1, HA|].
    split; [intros k Hin; apply Hd, Hin|].
    split.
    { intros k rest' Er. destruct (Hf k rest' Er) as (e & -> & Hs).
      exists e. split; [apply He; reflexivity | left; exact Hs]. }
    split; [exact Hn|].
    intros l. destruct (Hh l) as [El|(k & d & Hin & G & El)]; [auto|].
    right. exists k, d. repeat split; auto.
    intros a. rewrite El. apply fill_defaults_keys_get.
Qed.

Lemma construction_in_place_witness :
  keys (table A003_completed) = keys (table A003_store) /\
  (forall k, In k (keys (table A003_store)) ->
     get (table A003_completed) k
     = option_map completed_entry (get (table A003_store) k)) /\
  (heap A003_completed 4 = heap A003_store 4 \/
   exists k d, get (table A003_store) k = Some (Short 4 d) /\
     forall a,
       get (heap A003_completed 4) a
       = match get (heap A003_store 4) a with
         | Some s => Some s
         | None => if includes (Array_from_Set A003_alphabet) a
                      && negb (String.eqb a "__proto__")
                   then Some d else None
         end) /\
  snd (constructor (Q A001) (Σ A001) "q0" (F A001) "" A001_store)
    = A001_store.
Proof.
  destruct (construction_in_place _ _ _ _ _ _ _ _ A003_constructed)
    as (Hk & (done & rest & E & Hr & Hd & _ & _ & Hh) & _).
  rewrite (Hr A003 eq_refl), app_nil_r in E.
  split; [exact Hk|]. split; [intros k Hin; apply Hd; now rewrite <- E|].
  split.
  { destruct (Hh 4) as [El|(k & d & _ & G & _ & Ha)]; [auto|].
    right. exists k, d. auto. }
  apply (construction_in_place (Q A001) (Σ A001) "q0" (F A001) ""
           A001_store _ _ (surjective_pairing _)).
  intros q l d. unfold A001_store. cbn [table get].
  destruct (String.eqb "q0" q); [discriminate|].
  destruct (String.eqb "q1" q); [discriminate|].
  destruct (String.eqb "e" q); discriminate.
Defined.

(** ** States without an entry *)

Lemma row_property_error σ t a e : row_property σ t a = inl e -> e = TypeError.
Proof.
  unfold row_property. destruct (row_get _ t a); intros H; inversion H.
  reflexivity.
Qed.

Lemma check_transitions_error Qs st σ t Σ' b e :
  check_transitions Qs st (row_property σ t) Σ' b = inl e ->
  forall s, e <> MissingState s.
Proof.
  revert b. induction Σ' as [|a Σ' IH]; simpl; intros b H; [discriminate|].
  destruct (row_property σ t a) as [e'|v] eqn:R; simpl in H.
  { apply row_property_error in R. inversion H; subst. discriminate. }
  destruct (String.eqb (typeof v) "undefined");
    [inversion H; intros s; discriminate|].
  destruct (includes_value Qs v); simpl in H;
    [eauto | inversion H; intros s; discriminate].
Qed.

Lemma includes_value_In Qs n : In n Qs -> includes_value Qs (Str n) = true.
Proof. intros H. simpl. now apply includes_In. Qed.

Lemma check_transitions_ok Qs st rd Σ' b :
  (forall a, In a Σ' -> exists n, rd a = inr (Str n) /\ In n Qs) ->
  exists b', check_transitions Qs st rd Σ' b = inr b'.
Proof.
  revert b. induction Σ' as [|a Σ' IH]; simpl; intros b H; [eauto|].
  destruct (H a (or_introl eq_refl)) as (n & -> & Hn).
  cbn [bindR typeof]. rewrite (includes_value_In _ _ Hn). simpl.
  apply IH. auto.
Qed.

(** The only missing-state error of the final check names the first state
    [q] of its walk for which [δ[q]] is [undefined]. *)
Lemma δ_final_check_loop_missing Qs Σs σ Q' acc s :
  δ_final_check_loop Qs Σs σ Q' acc = inl (MissingState s) ->
  first_absent (table σ) Q' = Some s.
Proof.
  unfold first_absent.
  revert acc. induction Q' as [|st Q' IH]; simpl; intros acc H; [discriminate|].
  destruct (String.eqb
              (typeof_row typeof_entry (lookup_row (table σ) st)) "undefined").
  - inversion H. reflexivity.
  - destruct (check_transitions Qs st _ Σs true) as [e|b] eqn:C;
      simpl in H; [|eauto].
    inversion H; subst. exfalso. eapply check_transitions_error; eauto.
Qed.

Lemma δ_final_check_loop_reaches Qs Σs σ pre m post acc :
  (forall p, In p pre ->
     typeof_row typeof_entry (lookup_row (table σ) p) <> "undefined") ->
  (forall p a, In p pre -> In a Σs ->
     exists n, δ σ p a = Some n /\ In n Qs) ->
  typeof_row typeof_entry (lookup_row (table σ) m) = "undefined" ->
  δ_final_check_loop Qs Σs σ (pre ++ m :: post) acc = inl (MissingState m).
Proof.
  intros Hent Hcl Hm. revert acc.
  induction pre as [|p pre IH]; simpl; intros acc.
  - now rewrite Hm.
  - destruct (String.eqb_spec
                (typeof_row typeof_entry (lookup_row (table σ) p))
                "undefined") as [E|_].
    { exfalso. eapply Hent; [left; reflexivity | exact E]. }
    destruct (check_transitions_ok Qs p
                (row_property σ (lookup_row (table σ) p)) Σs true) as [b ->].
    + intros a Ha. destruct (Hcl p a (or_introl eq_refl) Ha) as (n & Hn & HQ).
      exists n. split; [now apply δ_Some | exact HQ].
    + simpl. apply IH; intros; [apply Hent | apply Hcl]; simpl; auto.
Qed.

Lemma find_pointwise {A : Type} (f g : A -> bool) (l : list A) :
  (forall x, f x = g x) -> find f l = find g l.
Proof.
  intros H. induction l as [|x l IH]; simpl; [reflexivity|].
  rewrite H, IH. reflexivity.
Qed.

Lemma entry_less_keys (t t' : list (state * entry)) q :
  keys t' = keys t -> entry_less t' q = entry_less t q.
Proof.
  intros Hk. unfold entry_less, lookup_row.
  destruct (get t q) eqn:G; destruct (get t' q) eqn:G'; auto.
  - apply get_In_keys in G. apply get_None_keys in G'. rewrite Hk in G'.
    contradiction.
  - apply get_In_keys in G'. apply get_None_keys in G. rewrite Hk in G'.
    contradiction.
Qed.

Lemma first_missing_keys (t t' : list (state * entry)) Qs :
  keys t' = keys t -> first_missing t' Qs = first_missing t Qs.
Proof.
  intros Hk. unfold first_missing. apply find_pointwise. intros q.
  now apply entry_less_keys.
Qed.

Lemma first_missing_exists t Qs q :
  In q Qs -> entry_less t q = true -> exists m, first_missing t Qs = Some m.
Proof.
  unfold first_missing. induction Qs as [|x Qs IH]; simpl; [contradiction|].
  intros Hq G. destruct (entry_less t x) eqn:Gx; [eauto|].
  destruct Hq as [->|Hq]; [congruence | auto].
Qed.

Lemma first_missing_prefix t pre m post :
  first_missing t (pre ++ m :: post) = Some m -> ~ In m pre ->
  forall p, In p pre -> entry_less t p = false.
Proof.
  unfold first_missing. induction pre as [|x pre IH]; simpl; [contradiction|].
  intros H Hm p Hp. destruct (entry_less t x) eqn:Gx.
  - inversion H; subst. exfalso. auto.
  - destruct Hp as [<-|Hp]; [exact Gx|]. apply IH; auto.
Qed.

(** When every own entry of the table is an object or [null], [δ[q]] is
    [undefined] exactly for the states without an entry. *)
Lemma typeof_undefined_entry_less (tbl : list (state * entry)) q :
  (forall e, get tbl q = Some e -> (exists l, e = Full l) \/ e = Prim "object") ->
  (typeof_row typeof_entry (lookup_row tbl q) = "undefined"
   <-> entry_less tbl q = true).
Proof.
  intros Hown. unfold entry_less, lookup_row.
  destruct (get tbl q) as [e|] eqn:G.
  - destruct (Hown e eq_refl) as [[l ->]| ->]; simpl; split; discriminate.
  - destruct (String.eqb q "__proto__");
      [cbn [typeof_row]; split; discriminate|].
    destruct (includes Object_prototype_functions q); cbn [typeof_row];
      split; intros H; first [reflexivity | discriminate H].
Qed.

Lemma first_absent_first_missing (tbl : list (state * entry)) Qs :
  (forall q e, get tbl q = Some e ->
     (exists l, e = Full l) \/ e = Prim "object") ->
  first_absent tbl Qs = first_missing tbl Qs.
Proof.
  intros Hown. unfold first_absent, first_missing. apply find_pointwise.
  intros q. pose proof (typeof_undefined_entry_less tbl q (Hown q)) as H.
  destruct (String.eqb_spec (typeof_row typeof_entry (lookup_row tbl q))
              "undefined") as [E|E]; destruct (entry_less tbl q); auto.
  - symmetry. now apply H.
  - exfalso. apply E. now apply H.
Qed.

(** C8, as amended: when the raw table has no entry for a state of the
    normalised Q, none of its own and none that it inherits from
    [Object.prototype], the construction fails; a missing-state error can
    only name the first such state in the order of Q; and it is the error of
    the construction whenever no earlier check fails, that is, when
    [complete_δ] returns, [q0] and F are in Q, and the completed entries of
    the states before it in Q are total and closed. *)
Theorem missing_entry_fails Q' Σ' q0' F' lbl σ0 q :
  In q (Array_from_Set Q') -> entry_less (table σ0) q = true ->
  exists e σ m,
    constructor Q' Σ' q0' F' lbl σ0 = (inl e, σ) /\
    first_missing (table σ0) (Array_from_Set Q') = Some m /\
    (forall s, e = MissingState s -> s = m) /\
    (forall σ1 pre post,
       complete_δ (Array_from_Set Q') (Array_from_Set Σ') σ0 = (inr tt, σ1) ->
       In q0' (Array_from_Set Q') ->
       (forall f, In f (Array_from_Set F') -> In f (Array_from_Set Q')) ->
       Array_from_Set Q' = pre ++ m :: post ->
       (forall p a, In p pre -> In a (Array_from_Set Σ') ->
          exists n, δ σ1 p a = Some n /\ In n (Array_from_Set Q')) ->
       e = MissingState m /\ σ = σ1).
Proof.
  intros Hq Gq.
  destruct (first_missing_exists _ _ _ Hq Gq) as [m Hm].
  destruct (constructor Q' Σ' q0' F' lbl σ0) as [r σ] eqn:Hc.
  assert (Hfail : exists e, r = inl e).
  { destruct r as [e|A]; [eauto|]. exfalso.
    apply constructor_inv in Hc as (Hcd & _ & _ & sinks & Hfin & _).
    apply δ_final_check_loop_spec in Hfin as (Hent & _).
    apply (Hent q Hq).
    apply typeof_undefined_entry_less.
    - intros e. eapply complete_δ_own, Hcd.
    - apply complete_δ_frame in Hcd as (Hk & _).
      now rewrite (entry_less_keys _ _ _ Hk). }
  destruct Hfail as [e ->]. exists e, σ, m. split; [reflexivity|].
  split; [exact Hm|].
  unfold constructor, bind, lift in Hc.
  destruct (complete_δ _ _ σ0) as [[e1|[]] σ1] eqn:Hcd.
  { (* the completion throws *)
    injection Hc as -> ->. split.
    - intros s ->. apply complete_δ_error in Hcd. discriminate.
    - intros σ' pre post H. discriminate. }
  assert (Hσ : forall e', (inl e' : result DFSM, σ1) = (inl e, σ) ->
                          thrown_before_final_check e' = true ->
                          (forall s, e = MissingState s -> s = m)).
  { intros e' E He' s ->. inversion E; subst. discriminate. }
  destruct (validate_state_from_spec (Array_from_Set Q') q0')
    as [[Hq0 Eq0]|[Hq0 Eq0]]; unfold validate_state in Hc; rewrite Eq0 in Hc.
  2:{ split; [eapply Hσ; [exact Hc | reflexivity]|].
      intros σ' pre post _ Hin. contradiction. }
  destruct (mapM _ (Array_from_Set F')) as [eF|this_F] eqn:HF.
  { assert (HeF : thrown_before_final_check eF = true /\
                  ~ (forall f, In f (Array_from_Set F') ->
                               In f (Array_from_Set Q'))).
    { destruct (first_outside (Array_from_Set Q') (Array_from_Set F'))
        as [Hin|(l1 & c & l2 & E' & H1 & Hcn)].
      - rewrite mapM_validate_ok in HF; [discriminate|].
        intros x Hx. apply validate_state_ok. auto.
      - rewrite E' in HF.
        rewrite (mapM_validate_ko _ l1 l2 c (StateNotInQ c)) in HF.
        + inversion HF. split; [reflexivity|]. intros Hall. apply Hcn, Hall.
          rewrite E'. apply in_app_iff. right. left. reflexivity.
        + intros y Hy. apply validate_state_ok. auto.
        + apply validate_state_ko, Hcn. }
    destruct HeF as [HeF HnF].
    split; [eapply Hσ; [exact Hc | exact HeF]|].
    intros σ' pre post _ _ Hall. contradiction. }
  pose proof (complete_δ_frame _ _ _ _ _ Hcd) as (Hk & _).
  assert (Hown : forall k e', get (table σ1) k = Some e' ->
            (exists l, e' = Full l) \/ e' = Prim "object").
  { intros k e'. eapply complete_δ_own, Hcd. }
  destruct (δ_final_check _ _ σ1) as [e2|sinks] eqn:Hfin; [|discriminate].
  injection Hc as -> ->. split.
  - intros s ->. apply δ_final_check_loop_missing in Hfin.
    rewrite (first_absent_first_missing _ _ Hown) in Hfin.
    rewrite (first_missing_keys _ _ _ Hk) in Hfin. congruence.
  - intros σ' pre post Hcd' _ _ Epre Hcl. injection Hcd' as <-.
    split; [|reflexivity].
    assert (Hnd : NoDup (pre ++ m :: post)).
    { rewrite <- Epre. apply NoDup_Array_from_Set. }
    assert (Hmpre : ~ In m pre).
    { apply NoDup_remove_2 in Hnd. rewrite in_app_iff in Hnd. tauto. }
    unfold δ_final_check in Hfin. rewrite Epre in Hfin.
    rewrite δ_final_check_loop_reaches in Hfin.
    + congruence.
    + intros p Hp E.
      apply (typeof_undefined_entry_less _ _ (Hown p)) in E.
      rewrite (entry_less_keys _ _ _ Hk) in E.
      rewrite (first_missing_prefix (table σ0) pre m post) in E;
        [discriminate| |exact Hmpre|exact Hp].
      rewrite <- Epre. exact Hm.
    + rewrite <- Epre. exact Hcl.
    + apply (typeof_undefined_entry_less _ _ (Hown m)).
      rewrite (entry_less_keys _ _ _ Hk).
      unfold first_missing in Hm. now apply find_some in Hm as [_ Hm].
Qed.

Lemma missing_entry_fails_witness :
  exists e σ m,
    constructor (Q A001) (Σ A001) "q0" (F A001) "" A001_partial_store
      = (inl e, σ) /\
    first_missing (table A001_partial_store) (Array_from_Set (Q A001))
      = Some m /\
    e = MissingState m /\ m = "e".
Proof.
  destruct (missing_entry_fails (Q A001) (Σ A001) "q0" (F A001) ""
              A001_partial_store "e")
    as (e & σ & m & Hc & Hm & _ & Hfirst).
  - simpl. auto.
  - reflexivity.
  - assert (Em : m = "e") by (vm_compute in Hm; congruence).
    exists e, σ, m. repeat split; auto.
    apply (Hfirst A001_partial_store ["q0"; "q1"] []).
    + reflexivity.
    + simpl. auto.
    + simpl. intros f [<-|[<-|[]]]; auto.
    + rewrite Em. reflexivity.
    + intros p a Hp Ha. simpl in Hp, Ha.
      destruct Hp as [<-|[<-|[]]]; destruct Ha as [<-|[<-|[]]];
        vm_compute; eexists; split; try reflexivity; auto.
Defined.

(** C8, as stated, fails: the first state of Q has no entry, and the
    construction fails with the error of another entry of the raw table,
    met by [complete_δ] before the final check walks Q. *)
Lemma missing_entry_other_error :
  In "a" (Array_from_Set ["a"; "b"]) /\
  get (table missing_first_store) "a" = None /\
  entry_less (table missing_first_store) "a" = true /\
  first_missing (table missing_first_store) (Array_from_Set ["a"; "b"])
    = Some "a" /\
  constructor ["a"; "b"] ["0"] "a" [] "" missing_first_store
    = (inl (StateNotInQ "c"), missing_first_store) /\
  StateNotInQ "c" <> MissingState "a".
Proof. repeat split; simpl; auto. discriminate. Qed.

(** ** Short-hand pairs and fully enumerated maps *)

Lemma mapM_validate_provided_ok Qs Σs o l :
  (forall v, In v l -> In v Σs /\ exists s, get o v = Some s /\ In s Qs) ->
  mapM (validate_provided Qs Σs o) l = inr l.
Proof.
  induction l as [|v l IH]; simpl; intros H; [reflexivity|].
  destruct (H v (or_introl eq_refl)) as (Hv & s & Gs & Hs).
  unfold validate_provided at 1.
  rewrite validate_char_ok by exact Hv. simpl. rewrite Gs.
  rewrite validate_state_ok by exact Hs. simpl.
  rewrite IH by auto. reflexivity.
Qed.

Lemma complete_state_transitions_ok Qs Σs l d σ :
  In d Qs ->
  (forall v, In v (keys (heap σ l)) ->
     In v Σs /\ exists s, get (heap σ l) v = Some s /\ In s Qs) ->
  complete_state_transitions Qs Σs l d σ =
  (inr tt,
   mkStore
     (heap_set (heap σ) l (fill_defaults Σs (keys (heap σ l)) d (heap σ l)))
     (table σ)).
Proof.
  intros Hd Hv. unfold complete_state_transitions, bind, lift.
  rewrite validate_state_ok by exact Hd.
  now rewrite mapM_validate_provided_ok.
Qed.

Lemma complete_δ_loop_full Qs Σs k rest σ l :
  get (table σ) k = Some (Full l) ->
  complete_δ_loop Qs Σs (k :: rest) σ = complete_δ_loop Qs Σs rest σ.
Proof.
  intros G. cbn [complete_δ_loop]. now rewrite (lookup_row_Own _ _ _ G).
Qed.

Lemma complete_δ_loop_short Qs Σs k rest σ l d :
  get (table σ) k = Some (Short l d) ->
  In d Qs ->
  (forall v, In v (keys (heap σ l)) ->
     In v Σs /\ exists s, get (heap σ l) v = Some s /\ In s Qs) ->
  complete_δ_loop Qs Σs (k :: rest) σ =
  complete_δ_loop Qs Σs rest
    (mkStore
       (heap_set (heap σ) l (fill_defaults Σs (keys (heap σ l)) d (heap σ l)))
       (set (table σ) k (Full l))).
Proof.
  intros G Hd Hv. cbn [complete_δ_loop]. rewrite (lookup_row_Own _ _ _ G).
  cbn [typeof_row typeof_entry String.eqb Ascii.eqb Bool.eqb negb].
  unfold bind. now rewrite complete_state_transitions_ok.
Qed.

Lemma check_transitions_ext Qs st rd rd' Σ' b :
  (forall a, rd' a = rd a) ->
  check_transitions Qs st rd' Σ' b = check_transitions Qs st rd Σ' b.
Proof.
  intros H. revert b. induction Σ' as [|a Σ' IH]; simpl; intros b; [reflexivity|].
  rewrite H. destruct (rd a) as [e|v]; simpl; [reflexivity|].
  destruct (String.eqb (typeof v) "undefined"); [reflexivity|].
  destruct (includes_value Qs v); simpl; auto.
Qed.

Lemma property_ext (o o' : list (string * string)) a :
  get o' a = get o a -> property o' a = property o a.
Proof. unfold property. now intros ->. Qed.

(** A property of a row is read through [get] only. *)
Lemma row_property_heap_ext σ τ t a :
  (forall l, get (heap τ l) a = get (heap σ l) a) ->
  row_property τ t a = row_property σ t a.
Proof.
  intros Hh. unfold row_property.
  destruct t as [[l|l d|ty]| | |]; try reflexivity.
  cbn [row_get entry_property]. now rewrite (property_ext _ _ _ (Hh l)).
Qed.

Lemma row_property_ext σ τ k a :
  get (table τ) k = get (table σ) k ->
  (forall l, get (heap τ l) a = get (heap σ l) a) ->
  row_property τ (lookup_row (table τ) k) a
  = row_property σ (lookup_row (table σ) k) a.
Proof.
  intros Ht Hh. rewrite (lookup_row_ext _ _ _ Ht).
  now apply row_property_heap_ext.
Qed.

(** The final check reads the store through [get] only. *)
Lemma δ_final_check_loop_ext Qs Σs σ τ Q' acc :
  (forall k, get (table τ) k = get (table σ) k) ->
  (forall l a, get (heap τ l) a = get (heap σ l) a) ->
  δ_final_check_loop Qs Σs τ Q' acc = δ_final_check_loop Qs Σs σ Q' acc.
Proof.
  intros Ht Hh. revert acc.
  induction Q' as [|st Q' IH]; simpl; intros acc; [reflexivity|].
  rewrite (lookup_row_ext _ _ _ (Ht st)).
  destruct (String.eqb _ "undefined"); [reflexivity|].
  rewrite (check_transitions_ext Qs st
             (row_property σ (lookup_row (table σ) st))
             (row_property τ (lookup_row (table σ) st))).
  - destruct (check_transitions Qs st _ Σs true); simpl; auto.
  - intros a. apply row_property_heap_ext. auto.
Qed.

Lemma δ_ext σ τ :
  (forall k, get (table τ) k = get (table σ) k) ->
  (forall l a, get (heap τ l) a = get (heap σ l) a) ->
  forall k a, δ τ k a = δ σ k a.
Proof.
  intros Ht Hh k a. unfold δ. now rewrite (row_property_ext σ τ) by auto.
Qed.

Lemma complete_δ_loop_kept Qs Σs k rest σ :
  typeof_row typeof_entry (lookup_row (table σ) k) = "object" ->
  (forall l d, get (table σ) k <> Some (Short l d)) ->
  complete_δ_loop Qs Σs (k :: rest) σ = complete_δ_loop Qs Σs rest σ.
Proof.
  intros Ty Hns. cbn [complete_δ_loop]. rewrite Ty.
  cbn [String.eqb Ascii.eqb Bool.eqb negb].
  destruct (lookup_row (table σ) k) as [[l|l d|ty]| | |] eqn:R; try reflexivity.
  exfalso. eapply Hns, lookup_row_Own_inv, R.
Qed.

Section Expansion.

Variables (Qs : list state) (Σs : list symbol).
Variables (q : state) (l : loc) (d : state) (P : transitions).

(** Every symbol of Σ that the pair does not list can be given the
    default. *)
Hypothesis listed_proto : In "__proto__" Σs -> In "__proto__" (keys P).


(** The loop of [complete_δ] on the table with the short-hand pair and on
    the table with its expansion, side by side. *)
Lemma complete_δ_loop_sim ps σ τ σ' :
  expansion_sim q l d P (expand Σs P d) σ τ ->
  complete_δ_loop Qs Σs ps σ = (inr tt, σ') ->
  exists τ',
    complete_δ_loop Qs Σs ps τ = (inr tt, τ') /\
    expansion_sim q l d P (expand Σs P d) σ' τ' /\
    (expansion_done q l (expand Σs P d) σ \/ In q ps -> expansion_done q l (expand Σs P d) σ').
Proof.
  revert σ τ. induction ps as [|k rest IH]; intros σ τ HR H.
  - inversion H; subst. exists τ. split; [reflexivity|]. split; [exact HR|].
    intros [Hd|[]]. exact Hd.
  - pose proof HR as (Ht & Hq & Hh & HE & Hun & Hphase).
    apply complete_δ_loop_step in H
      as [(Ety & Hns & H)|[(l1 & d1 & G & [(e & _ & Er & _)|(Hd & Hv & H)])
                          |(_ & Er & _)]]; try discriminate.
    + (* the entry of k is kept *)
      assert (Eτ : complete_δ_loop Qs Σs (k :: rest) τ
                   = complete_δ_loop Qs Σs rest τ).
      { destruct (String.eqb_spec k q) as [->|Hne].
        - apply (complete_δ_loop_full _ _ _ _ _ l). exact Hq.
        - apply complete_δ_loop_kept.
          + now rewrite (lookup_row_ext _ _ _ (Ht k Hne)).
          + intros l1 d1. rewrite (Ht k Hne). apply Hns. }
      destruct (IH σ τ HR H) as (τ' & Hτ & HR' & Hdone).
      exists τ'. rewrite Eτ.
      split; [exact Hτ|]. split; [exact HR'|].
      intros [Hd|[<-|Hin]]; auto.
      destruct Hphase as [[G' _]|Hd]; [|auto].
      exfalso. eapply Hns, G'.
    + destruct (String.eqb_spec k q) as [->|Hne].
      * (* the short-hand pair at q is completed *)
        destruct Hphase as [[G' HP]|[G' _]]; [|congruence].
        assert (l1 = l /\ d1 = d) as [-> ->] by (split; congruence).
        assert (Hdone1 : forall a,
                  get (fill_defaults Σs (keys (heap σ l)) d (heap σ l)) a
                  = get (expand Σs P d) a).
        { intros a. rewrite HP. apply fill_defaults_expand.
          - intros v Hv'. rewrite <- HP in Hv'. apply Hv, Hv'.
          - exact listed_proto. }
        assert (Hd1 : expansion_done q l (expand Σs P d)
                  (mkStore
                     (heap_set (heap σ) l
                        (fill_defaults Σs (keys (heap σ l)) d (heap σ l)))
                     (set (table σ) q (Full l)))).
        { split; simpl; [apply get_set_same|].
          intros a. rewrite heap_set_same. apply Hdone1. }
        assert (HR1 : expansion_sim q l d P (expand Σs P d)
                  (mkStore
                     (heap_set (heap σ) l
                        (fill_defaults Σs (keys (heap σ l)) d (heap σ l)))
                     (set (table σ) q (Full l))) τ).
        { unfold expansion_sim. simpl. split; [|split; [|split; [|split; [|split]]]].
          - intros k Hk. rewrite Ht by exact Hk.
            now rewrite get_set_other by auto.
          - exact Hq.
          - intros l' Hl'. rewrite heap_set_other by exact Hl'. auto.
          - exact HE.
          - intros k e Gk Hk. simpl in Gk.
            rewrite get_set_other in Gk by auto. eapply Hun; eauto.
          - right. exact Hd1. }
        destruct (IH _ _ HR1 H) as (τ' & Hτ & HR' & Hdone).
        exists τ'. rewrite (complete_δ_loop_full _ _ _ _ _ _ Hq).
        split; [exact Hτ|]. split; [exact HR'|].
        intros _. apply Hdone. left. exact Hd1.
      * (* another short-hand pair is completed, on both sides *)
        assert (Hl1 : l1 <> l).
        { intros ->. apply (Hun k (Short l d1) G Hne). reflexivity. }
        assert (Gτ : get (table τ) k = Some (Short l1 d1)) by now rewrite Ht.
        assert (Hheap : heap τ l1 = heap σ l1) by auto.
        rewrite (complete_δ_loop_short _ _ _ _ _ _ _ Gτ Hd)
          by now rewrite Hheap.
        rewrite Hheap.
        assert (HR1 : expansion_sim q l d P (expand Σs P d)
                  (mkStore
                     (heap_set (heap σ) l1
                        (fill_defaults Σs (keys (heap σ l1)) d1 (heap σ l1)))
                     (set (table σ) k (Full l1)))
                  (mkStore
                     (heap_set (heap τ) l1
                        (fill_defaults Σs (keys (heap σ l1)) d1 (heap σ l1)))
                     (set (table τ) k (Full l1)))).
        { unfold expansion_sim. simpl. split; [|split; [|split; [|split; [|split]]]].
          - intros k' Hk'. destruct (String.eqb_spec k k') as [->|Hkk].
            + now rewrite !get_set_same.
            + rewrite !get_set_other by auto. auto.
          - rewrite get_set_other by auto. exact Hq.
          - intros l' Hl'. unfold heap_set.
            destruct (Nat.eqb l' l1); auto.
          - intros a. rewrite heap_set_other by auto. apply HE.
          - intros k' e Gk Hk'. simpl in Gk.
            destruct (String.eqb_spec k k') as [->|Hkk].
            + rewrite get_set_same in Gk. inversion Gk; subst. simpl.
              congruence.
            + rewrite get_set_other in Gk by auto. eapply Hun; eauto.
          - rewrite get_set_other by auto.
            rewrite heap_set_other by auto. exact Hphase. }
        destruct (IH _ _ HR1 H) as (τ' & Hτ & HR' & Hdone).
        exists τ'. split; [exact Hτ|]. split; [exact HR'|].
        intros [[Gq Hdq]|[Hkq|Hin]].
        -- apply Hdone. left. split; simpl.
           ++ rewrite get_set_other by auto. exact Gq.
           ++ intros a. rewrite heap_set_other by auto. apply Hdq.
        -- contradiction.
        -- apply Hdone. right. exact Hin.
Qed.

End Expansion.

(** C3, as stated, fails when the object of a short-hand pair is shared:
    both states are given the same empty object, with defaults [a] and [b];
    completing the entry of [a] fills the object, which then lists every
    symbol when the entry of [b] is completed, so that δ(b,0) = a where the
    expansion of the pair of [b] maps 0 to [b]. *)
Lemma shared_object_breaks_expansion :
  exists A σ,
    constructor ["a"; "b"] ["0"] "a" [] "" shared_store = (inr A, σ) /\
    get (table shared_store) "b" = Some (Short 0 "b") /\
    heap shared_store 0 = [] /\
    δ σ "b" "0" = Some "a" /\
    get (expand (Σ A) (heap shared_store 0) "b") "0" = Some "b".
Proof. eexists. eexists. split; [reflexivity|]. repeat split. Qed.

(** C3, as amended: when a construction succeeds, a state given as a
    short-hand pair (P, d) whose object P is held by no other entry of the
    table has as completed entry, read as a map, the fully enumerated map
    that agrees with P on the keys of P and sends every other symbol of Σ to
    d; and the construction from the table that gives the state by that map
    succeeds with the same automaton and the same completed table. *)
Theorem shorthand_full_equivalence Q' Σ' q0' F' lbl σ0 A σ q l d :
  get (table σ0) q = Some (Short l d) ->
  unshared σ0 q l ->
  constructor Q' Σ' q0' F' lbl σ0 = (inr A, σ) ->
  (forall a, δ σ q a = get (expand (Σ A) (heap σ0 l) d) a) /\
  exists τ,
    constructor Q' Σ' q0' F' lbl (with_full_entry (Σ A) σ0 q l d)
      = (inr A, τ) /\
    forall k a, δ τ k a = δ σ k a.
Proof.
  intros Gq Hun H.
  pose proof (constructor_inv _ _ _ _ _ _ _ _ H)
    as (Hc & Hq0 & HF & sinks & Hfin & ->).
  cbn [Σ]. set (Qs := Array_from_Set Q') in *.
  set (Σs := Array_from_Set Σ') in *.
  apply complete_δ_cases in Hc as [(e & Ee & _)|[Hkeys Hloop]]; [discriminate|].
  assert (Hsim0 : expansion_sim q l d (heap σ0 l) (expand Σs (heap σ0 l) d)
                    σ0 (with_full_entry Σs σ0 q l d)).
  { unfold expansion_sim, with_full_entry. simpl.
    split; [|split; [|split; [|split; [|split]]]].
    - intros k Hk. now rewrite get_set_other by auto.
    - apply get_set_same.
    - intros l' Hl'. now rewrite heap_set_other.
    - intros a. now rewrite heap_set_same.
    - exact Hun.
    - left. auto. }
  assert (Hproto : In "__proto__" Σs -> In "__proto__" (keys (heap σ0 l))).
  { (* otherwise the final check meets [Object.prototype] at [__proto__] *)
    intros Hin.
    destruct (get (heap σ0 l) "__proto__") as [s|] eqn:Gp;
      [eapply get_In_keys, Gp|]. exfalso.
    pose proof (complete_δ_loop_proto _ _ _ _ _ _ l Hloop Gp) as Gp'.
    destruct (complete_δ_loop_completed _ _ _ _ _ Hloop q
                (get_In_keys _ _ _ Gq)) as [_ E].
    rewrite Gq in E. simpl in E.
    apply δ_final_check_spec in Hfin as [Hcl _].
    destruct (Hcl q "__proto__") as (n & Hn & _);
      [eapply Hkeys, get_In_keys, Gq | exact Hin |].
    rewrite (δ_Full _ _ _ _ E) in Hn. congruence. }
  destruct (complete_δ_loop_sim Qs Σs q l d (heap σ0 l) Hproto
              _ _ _ _ Hsim0 Hloop)
    as (τ & Hτ & (Ht & Hq & Hh & HE & _ & _) & Hdone).
  destruct Hdone as [Gσ Hσ]. { right. eapply get_In_keys, Gq. }
  assert (Etab : forall k, get (table τ) k = get (table σ) k).
  { intros k. destruct (String.eqb_spec k q) as [->|Hne]; [congruence | auto]. }
  assert (Eheap : forall l' a, get (heap τ l') a = get (heap σ l') a).
  { intros l' a. destruct (Nat.eq_dec l' l) as [->|Hne].
    - now rewrite HE, Hσ.
    - now rewrite Hh. }
  split.
  - intros a. rewrite (δ_Full _ _ _ _ Gσ). apply Hσ.
  - exists τ. split; [|apply δ_ext; assumption].
    assert (Ek : keys (table (with_full_entry Σs σ0 q l d)) = keys (table σ0)).
    { simpl. apply keys_set_In. eapply get_In_keys, Gq. }
    unfold constructor, bind, lift, complete_δ. fold Qs Σs.
    rewrite Ek, mapM_validate_ok
      by (intros x Hx; apply validate_state_ok; auto).
    rewrite Hτ, validate_state_ok by exact Hq0.
    rewrite mapM_validate_ok
      by (intros x Hx; apply validate_state_ok; auto).
    unfold δ_final_check in *.
    now rewrite (δ_final_check_loop_ext Qs Σs σ τ Qs [] Etab Eheap), Hfin.
Qed.

Lemma shorthand_full_equivalence_witness :
  (forall a, δ A003_completed "5" a
             = get (expand (Σ A003) (heap A003_store 5) "5") a) /\
  exists τ,
    constructor A003_states A003_alphabet "_" ["5"] "(a+z)*script(a+z)*"
      (with_full_entry (Σ A003) A003_store "5" 5 "5") = (inr A003, τ) /\
    forall k a, δ τ k a = δ A003_completed k a.
Proof.
  apply shorthand_full_equivalence.
  - reflexivity.
  - intros k e. unfold A003_store. cbn [table get].
    repeat match goal with
           | |- context [String.eqb ?x k] =>
               destruct (String.eqb_spec x k) as [<-|?]
           end;
      intros G Hk; inversion G; subst; simpl; try discriminate;
      congruence.
  - vm_compute. reflexivity.
Defined.

(** ** Tables with inherited entries and with [null]

    A state whose name is a property of [Object.prototype] has an entry
    in every table.  With an empty alphabet no property of the entry is
    read, and the construction from the empty table succeeds; so it does
    for [toString] with the one symbol [name], the name of the function
    being the state.  An entry [null] passes [complete_δ]; the final check
    reads it, and throws a TypeError, when the alphabet is not empty. *)

Example inherited_entry_accepted :
  (exists A, constructor ["toString"; "__proto__"] [] "toString" [] ""
               inherited_store = (inr A, inherited_store)) /\
  (exists A, constructor ["toString"] ["name"] "toString" [] ""
               inherited_store = (inr A, inherited_store)) /\
  constructor ["constructor"] ["0"] "constructor" [] "" inherited_store
  = (inl (MissingTransition "constructor" "0"), inherited_store).
Proof. repeat split; eexists; reflexivity. Qed.

Example null_entry :
  (exists A σ, constructor ["a"] [] "a" [] ""
                 (mkStore (fun _ => []) [("a", Prim "object")])
               = (inr A, σ)) /\
  fst (constructor ["a"] ["0"] "a" [] ""
         (mkStore (fun _ => []) [("a", Prim "object")]))
  = inl TypeError.
Proof. split; [eexists; eexists|]; reflexivity. Qed.

(** * Further properties of the class of [src/DFSM.ts] *)

(** ** Tables the constructor accepts *)

Lemma In_keys_fill Σs provided d (o : transitions) v :
  In v (keys (fill_defaults Σs provided d o)) ->
  In v (keys o) \/ In v Σs.
Proof.
  unfold fill_defaults. revert o.
  induction Σs as [|a Σs IH]; simpl; intros o H; [auto|].
  apply IH in H as [H|H]; [|auto].
  destruct (includes provided a); [auto|].
  apply In_keys_assign in H as [H| ->]; auto.
Qed.

(** A completed object is total over Σ with targets in Q, and lists
    symbols of Σ only. *)
Lemma fill_defaults_complete Qs Σs d (o : transitions) :
  ~ In "__proto__" Σs ->
  In d Qs ->
  (forall v, In v (keys o) ->
     In v Σs /\ exists s, get o v = Some s /\ In s Qs) ->
  (forall a, In a Σs ->
     exists n, get (fill_defaults Σs (keys o) d o) a = Some n /\ In n Qs) /\
  (forall v, In v (keys (fill_defaults Σs (keys o) d o)) ->
     In v Σs /\
     exists s, get (fill_defaults Σs (keys o) d o) v = Some s /\ In s Qs).
Proof.
  intros Hp Hd Hv.
  assert (Htot : forall a, In a Σs ->
            exists n, get (fill_defaults Σs (keys o) d o) a = Some n /\
                      In n Qs).
  { intros a Ha. rewrite fill_defaults_keys_get.
    destruct (get o a) as [s|] eqn:G.
    - destruct (Hv a (get_In_keys _ _ _ G)) as (_ & s' & Gs & Hs).
      exists s. split; [reflexivity | congruence].
    - assert (Hne : a <> "__proto__") by (intros ->; auto).
      apply String.eqb_neq in Hne. apply includes_In in Ha.
      rewrite Ha, Hne. simpl. eauto. }
  split; [exact Htot|]. intros v Hin.
  assert (HvΣ : In v Σs).
  { apply In_keys_fill in Hin as [Hin|Hin]; [apply Hv, Hin | exact Hin]. }
  split; [exact HvΣ | apply Htot, HvΣ].
Qed.

Lemma complete_δ_loop_well_formed Qs Σs ps σ :
  ~ In "__proto__" Σs ->
  (forall k e, get (table σ) k = Some e -> entry_ok Qs Σs σ e) ->
  (forall k, In k ps -> In k (keys (table σ))) ->
  exists σ',
    complete_δ_loop Qs Σs ps σ = (inr tt, σ') /\
    (forall k e, get (table σ') k = Some e -> entry_ok Qs Σs σ' e).
Proof.
  intros Hp. revert σ. induction ps as [|k rest IH]; intros σ Hok Hps.
  - exists σ. split; [reflexivity | exact Hok].
  - destruct (In_keys_get _ _ (Hps k (or_introl eq_refl))) as [e G].
    pose proof (Hok k e G) as He. destruct e as [l|l d|ty]; [| |destruct He].
    + rewrite (complete_δ_loop_full _ _ _ _ _ _ G). apply IH; auto.
      intros k' Hk'. apply Hps. right. exact Hk'.
    + destruct He as [Hd Hv].
      rewrite (complete_δ_loop_short _ _ _ _ _ _ _ G Hd Hv).
      destruct (fill_defaults_complete Qs Σs d (heap σ l) Hp Hd Hv)
        as [Htot Hkeys].
      apply IH; simpl.
      * intros k' e' G'.
        assert (He' : e' = Full l \/ get (table σ) k' = Some e').
        { destruct (String.eqb_spec k k') as [->|Hne].
          - rewrite get_set_same in G'. left. congruence.
          - rewrite get_set_other in G' by auto. auto. }
        destruct He' as [->|G0]; simpl.
        -- intros a Ha. rewrite heap_set_same. auto.
        -- pose proof (Hok k' e' G0) as Hold.
           destruct e' as [l'|l' d'|ty']; simpl in *; [| |exact Hold].
           ++ intros a Ha. unfold heap_set.
              destruct (Nat.eqb l' l); auto.
           ++ destruct Hold as [Hd' Hv']. split; [exact Hd'|].
              unfold heap_set. destruct (Nat.eqb l' l); auto.
      * intros k' Hk'. rewrite keys_set_In by (eapply get_In_keys, G).
        apply Hps. right. exact Hk'.
Qed.

Lemma δ_final_check_loop_ok Qs Σs σ Q' acc :
  (forall q, In q Q' ->
     exists l, get (table σ) q = Some (Full l) /\
               forall a, In a Σs ->
                         exists n, get (heap σ l) a = Some n /\ In n Qs) ->
  exists sinks, δ_final_check_loop Qs Σs σ Q' acc = inr sinks.
Proof.
  revert acc. induction Q' as [|q Q' IH]; simpl; intros acc H; [eauto|].
  destruct (H q (or_introl eq_refl)) as (l & G & Htot).
  rewrite (lookup_row_Own _ _ _ G).
  cbn [typeof_row typeof_entry String.eqb Ascii.eqb Bool.eqb].
  destruct (check_transitions_ok Qs q (row_property σ (Own (Full l))) Σs true)
    as [b ->].
  - intros a Ha. destruct (Htot a Ha) as (n & Gn & Hn). exists n.
    split; [|exact Hn]. unfold row_property. cbn [row_get entry_property].
    apply property_Str in Gn. now rewrite Gn.
  - simpl. apply IH. auto.
Qed.

(** The construction from a well-formed table, a state [q0] and accept
    states of Q succeeds. *)
Lemma well_formed_constructs Q' Σ' q0' F' lbl σ0 :
  ~ In "__proto__" (Array_from_Set Σ') ->
  well_formed (Array_from_Set Q') (Array_from_Set Σ') σ0 ->
  In q0' (Array_from_Set Q') ->
  (forall f, In f (Array_from_Set F') -> In f (Array_from_Set Q')) ->
  exists A σ, constructor Q' Σ' q0' F' lbl σ0 = (inr A, σ).
Proof.
  intros Hp (Hk & Hq & Hok) Hq0 HF.
  destruct (complete_δ_loop_well_formed _ _ (keys (table σ0)) σ0 Hp Hok)
    as (σ & Hloop & Hok'); [auto|].
  assert (Hfin : exists sinks,
            δ_final_check (Array_from_Set Q') (Array_from_Set Σ') σ
            = inr sinks).
  { apply δ_final_check_loop_ok. intros q Hin.
    destruct (complete_δ_loop_frame _ _ _ _ _ _ Hloop) as (Hkeys & _).
    destruct (In_keys_get (table σ) q) as [e Ge];
      [rewrite Hkeys; auto|].
    pose proof (Hok' q e Ge) as He.
    destruct (complete_δ_loop_own _ _ _ _ _ _ _ Hloop (Hq q Hin) Ge)
      as [[l ->]| ->]; [|destruct He].
    exists l. split; [exact Ge | exact He]. }
  destruct Hfin as [sinks Hfin].
  eexists. exists σ. unfold constructor, bind, lift, complete_δ.
  rewrite mapM_validate_ok
    by (intros x Hx; apply validate_state_ok; auto).
  rewrite Hloop, validate_state_ok by exact Hq0.
  rewrite mapM_validate_ok
    by (intros x Hx; apply validate_state_ok; auto).
  rewrite Hfin. reflexivity.
Qed.

(** X1: the constructor accepts every well-formed table: when the keys of
    the table are the states of Q, every entry given in full is total over Σ
    with targets in Q, every short-hand pair has a default in Q and lists
    symbols of Σ with targets in Q, and [q0] and the accept states are in Q,
    the construction succeeds; entries may share their objects.  The string
    [__proto__] is no symbol of Σ: the completion of a pair cannot define
    that property. *)
Theorem well_formed_table_accepted Q' Σ' q0' F' lbl σ0 :
  ~ In "__proto__" (Array_from_Set Σ') ->
  well_formed (Array_from_Set Q') (Array_from_Set Σ') σ0 ->
  In q0' (Array_from_Set Q') ->
  (forall f, In f (Array_from_Set F') -> In f (Array_from_Set Q')) ->
  exists A σ,
    constructor Q' Σ' q0' F' lbl σ0 = (inr A, σ) /\
    Q A = Array_from_Set Q' /\ Σ A = Array_from_Set Σ' /\ q0 A = q0' /\
    F A = Array_from_Set F' /\ label A = lbl.
Proof.
  intros Hp Hwf Hq0 HF.
  destruct (well_formed_constructs Q' Σ' q0' F' lbl σ0 Hp Hwf Hq0 HF)
    as (A & σ & H).
  exists A, σ. split; [exact H|].
  apply constructor_inv in H as (_ & _ & _ & sinks & _ & ->).
  repeat split.
Qed.

Ltac In_by_includes :=
  apply (proj1 (includes_In _ _)); vm_compute; reflexivity.

Lemma A003_well_formed :
  well_formed (Array_from_Set A003_states) (Array_from_Set A003_alphabet)
    A003_store.
Proof.
  split; [|split].
  - intros k Hk. cbn in Hk.
    repeat (destruct Hk as [<-|Hk]; [In_by_includes|]). destruct Hk.
  - intros q Hq. vm_compute in Hq.
    repeat (destruct Hq as [<-|Hq]; [In_by_includes|]). destruct Hq.
  - intros k e. unfold A003_store. cbn [table get].
    repeat match goal with
           | |- context [String.eqb ?x k] => destruct (String.eqb x k)
           end;
      intros G; inversion G; subst; cbn [entry_ok];
      (split; [In_by_includes|]);
      cbn [heap keys map fst]; intros v Hv;
      repeat (destruct Hv as [<-|Hv];
              [split; [In_by_includes
                      | eexists; split; [reflexivity | In_by_includes]]|]);
      destruct Hv.
Qed.

Lemma well_formed_table_accepted_witness :
  exists A σ,
    constructor A003_states A003_alphabet "_" ["5"] "" A003_store
      = (inr A, σ) /\
    Q A = Array_from_Set A003_states /\
    Σ A = Array_from_Set A003_alphabet /\ q0 A = "_" /\
    F A = Array_from_Set ["5"] /\ label A = "".
Proof.
  apply well_formed_table_accepted.
  - apply (proj1 (includes_not_In _ _)). vm_compute. reflexivity.
  - exact A003_well_formed.
  - In_by_includes.
  - intros f Hf. vm_compute in Hf. destruct Hf as [<-|[]]. In_by_includes.
Defined.

Lemma δ_final_check_loop_total Qs Σs σ Q' acc :
  (forall q, In q Q' ->
     typeof_row typeof_entry (lookup_row (table σ) q) <> "undefined") ->
  (forall q a, In q Q' -> In a Σs -> exists n, δ σ q a = Some n /\ In n Qs) ->
  exists sinks, δ_final_check_loop Qs Σs σ Q' acc = inr sinks.
Proof.
  revert acc. induction Q' as [|q Q' IH]; simpl; intros acc Hty Hcl; [eauto|].
  destruct (String.eqb_spec
              (typeof_row typeof_entry (lookup_row (table σ) q)) "undefined")
    as [E|_]; [exfalso; eapply Hty; eauto|].
  destruct (check_transitions_ok Qs q
              (row_property σ (lookup_row (table σ) q)) Σs true) as [b ->].
  - intros a Ha. destruct (Hcl q a (or_introl eq_refl) Ha) as (n & Hn & HQ).
    exists n. split; [now apply δ_Some | exact HQ].
  - simpl. apply IH; auto.
Qed.

Lemma complete_δ_loop_all_full Qs Σs ps σ :
  all_full σ -> (forall k, In k ps -> In k (keys (table σ))) ->
  complete_δ_loop Qs Σs ps σ = (inr tt, σ).
Proof.
  intros Hfull. induction ps as [|k ps IH]; intros Hps; [reflexivity|].
  destruct (In_keys_get _ _ (Hps k (or_introl eq_refl))) as [e G].
  destruct (Hfull _ _ G) as [l ->].
  rewrite (complete_δ_loop_full _ _ _ _ _ _ G). apply IH.
  intros k' Hk'. apply Hps. right. exact Hk'.
Qed.

(** X2: for a table whose entries are all given in full, the construction
    succeeds exactly when the keys of the table are states of Q, every state
    of Q has an entry, its own or one that the table inherits from
    [Object.prototype], [q0] and the accept states are in Q, and δ(q,a) is a
    state of Q for every state q of Q and symbol a of Σ. *)
Theorem full_table_accepted_iff Q' Σ' q0' F' lbl σ0 :
  all_full σ0 ->
  ((exists A σ, constructor Q' Σ' q0' F' lbl σ0 = (inr A, σ)) <->
   (forall k, In k (keys (table σ0)) -> In k (Array_from_Set Q')) /\
   (forall q, In q (Array_from_Set Q') -> entry_less (table σ0) q = false) /\
   In q0' (Array_from_Set Q') /\
   (forall f, In f (Array_from_Set F') -> In f (Array_from_Set Q')) /\
   (forall q a, In q (Array_from_Set Q') -> In a (Array_from_Set Σ') ->
      exists n, δ σ0 q a = Some n /\ In n (Array_from_Set Q'))).
Proof.
  intros Hfull.
  assert (Hty : forall q,
            typeof_row typeof_entry (lookup_row (table σ0) q) = "undefined"
            <-> entry_less (table σ0) q = true).
  { intros q. apply typeof_undefined_entry_less. intros e G.
    left. eapply Hfull, G. }
  split.
  - intros (A & σ & H).
    apply constructor_inv in H as (Hc & Hq0 & HF & sinks & Hfin & _).
    apply complete_δ_cases in Hc as [(e & E & _)|[Hk Hloop]]; [discriminate|].
    assert (σ = σ0) as ->.
    { eapply complete_δ_loop_no_short; [|exact Hloop].
      intros q l d G. destruct (Hfull _ _ G) as [l' E]. discriminate. }
    apply δ_final_check_loop_spec in Hfin as (Hent & Hcl & _).
    repeat split; auto.
    intros q Hq. destruct (entry_less (table σ0) q) eqn:E; [|reflexivity].
    exfalso. apply (Hent q Hq). now apply Hty.
  - intros (Hk & Hq & Hq0 & HF & Hcl).
    destruct (δ_final_check_loop_total (Array_from_Set Q')
                (Array_from_Set Σ') σ0 (Array_from_Set Q') [])
      as [sinks Hfin]; [|exact Hcl|].
    { intros q Hin E. apply Hty in E. rewrite (Hq q Hin) in E. discriminate. }
    eexists. exists σ0. unfold constructor, bind, lift, complete_δ.
    rewrite mapM_validate_ok
      by (intros x Hx; apply validate_state_ok; auto).
    rewrite complete_δ_loop_all_full by auto.
    rewrite validate_state_ok by exact Hq0.
    rewrite mapM_validate_ok
      by (intros x Hx; apply validate_state_ok; auto).
    unfold δ_final_check. rewrite Hfin. reflexivity.
Qed.

Lemma A001_all_full : all_full A001_store.
Proof.
  intros k e. unfold A001_store. cbn [table get].
  repeat match goal with
         | |- context [String.eqb ?x k] => destruct (String.eqb x k)
         end;
    intros G; inversion G; eauto.
Qed.

Lemma full_table_accepted_iff_witness :
  (forall k, In k (keys (table A001_store)) -> In k (Array_from_Set (Q A001))) /\
  (forall q, In q (Array_from_Set (Q A001)) ->
     entry_less (table A001_store) q = false) /\
  In "q0" (Array_from_Set (Q A001)) /\
  (forall f, In f (Array_from_Set (F A001)) -> In f (Array_from_Set (Q A001))) /\
  (forall q a, In q (Array_from_Set (Q A001)) ->
     In a (Array_from_Set (Σ A001)) ->
     exists n, δ A001_store q a = Some n /\ In n (Array_from_Set (Q A001))).
Proof.
  apply (proj1 (full_table_accepted_iff (Q A001) (Σ A001) "q0" (F A001)
                  "0+(01)*(0+Ɛ)" A001_store A001_all_full)).
  exists A001, A001_store. reflexivity.
Defined.

(** ** The sink nodes, in order *)

Lemma check_transitions_forallb Qs st rd Σ' b b' :
  check_transitions Qs st rd Σ' b = inr b' ->
  b' = b && forallb (fun a => match rd a with
                              | inr (Str n) => String.eqb n st
                              | _ => false
                              end) Σ'.
Proof.
  revert b. induction Σ' as [|a Σ' IH]; simpl; intros b H.
  - inversion H. now rewrite andb_true_r.
  - destruct (rd a) as [e|v]; simpl in H; [discriminate|].
    destruct (String.eqb (typeof v) "undefined"); [discriminate|].
    destruct (includes_value Qs v) eqn:Inc; simpl in H; [|discriminate].
    apply includes_value_Str in Inc as (n & -> & _). simpl in H.
    apply IH in H. rewrite H.
    destruct (String.eqb n st); simpl; [reflexivity|].
    now rewrite andb_false_r.
Qed.

Lemma forallb_pointwise {A : Type} (f g : A -> bool) (l : list A) :
  (forall x, f x = g x) -> forallb f l = forallb g l.
Proof.
  intros H. induction l as [|x l IH]; simpl; [reflexivity|].
  now rewrite H, IH.
Qed.

Lemma δ_final_check_loop_filter Qs Σs σ Q' acc sinks :
  δ_final_check_loop Qs Σs σ Q' acc = inr sinks ->
  sinks = acc ++ filter (is_sink σ Σs) Q'.
Proof.
  revert acc. induction Q' as [|q Q' IH]; simpl; intros acc H.
  - inversion H. now rewrite app_nil_r.
  - destruct (String.eqb _ "undefined"); [discriminate|].
    destruct (check_transitions Qs q _ Σs true) as [e|b] eqn:C;
      simpl in H; [discriminate|].
    apply check_transitions_forallb in C. simpl in C.
    assert (Eb : is_sink σ Σs q = b).
    { rewrite C. unfold is_sink. apply forallb_pointwise. intros a.
      unfold δ.
      now destruct (row_property σ (lookup_row (table σ) q) a) as [e|[]]. }
    rewrite Eb. apply IH in H. rewrite H.
    destruct b; [now rewrite <- app_assoc | reflexivity].
Qed.

(** X3: the sink nodes of a constructed automaton are the states of Q all
    of whose transitions loop, listed once each in the order of Q. *)
Theorem sink_nodes_in_order Q' Σ' q0' F' lbl σ0 A σ :
  constructor Q' Σ' q0' F' lbl σ0 = (inr A, σ) ->
  sink_nodes A = filter (is_sink σ (Σ A)) (Q A) /\ NoDup (sink_nodes A).
Proof.
  intros H. apply constructor_inv in H as (_ & _ & _ & sinks & Hfin & ->).
  simpl. apply δ_final_check_loop_filter in Hfin. simpl in Hfin.
  split; [exact Hfin|]. rewrite Hfin.
  apply NoDup_filter, NoDup_Array_from_Set.
Qed.

Lemma sink_nodes_in_order_witness :
  sink_nodes A003 = filter (is_sink A003_completed (Σ A003)) (Q A003) /\
  NoDup (sink_nodes A003).
Proof. apply (sink_nodes_in_order _ _ _ _ _ _ _ _ A003_constructed). Defined.

(** ** The transitions the caller listed *)

(** What the constructor does to the caller's objects. *)
Lemma construction_in_place_aux Q' Σ' q0' F' lbl σ0 r σ :
  constructor Q' Σ' q0' F' lbl σ0 = (r, σ) ->
  (forall k, option_map object_of (get (table σ) k)
             = option_map object_of (get (table σ0) k)) /\
  (forall l a s, get (heap σ0 l) a = Some s -> get (heap σ l) a = Some s) /\
  (forall A, r = inr A ->
     forall k, In k (keys (table σ0)) ->
       get (table σ) k = option_map completed_entry (get (table σ0) k)).
Proof.
  intros H. pose proof (constructor_store _ _ _ _ _ _ _ _ H) as (r1 & Hc & He).
  destruct (complete_δ_frame _ _ _ _ _ Hc) as (Hk & Ho & Hh).
  repeat split; auto.
  intros A -> k Hin. apply constructor_inv in H as (Hc' & _).
  apply complete_δ_cases in Hc' as [(e & E & _)|[_ Hloop]]; [discriminate|].
  now apply (complete_δ_loop_completed _ _ _ _ _ Hloop).
Qed.

(** X4: a construction that succeeds keeps every transition the caller
    listed: a property [a: s] of the object of an entry, given in full or
    as the first component of a short-hand pair, is a transition
    δ(q,a) = s of the automaton. *)
Theorem listed_transitions_kept Q' Σ' q0' F' lbl σ0 A σ q e l a s :
  constructor Q' Σ' q0' F' lbl σ0 = (inr A, σ) ->
  get (table σ0) q = Some e -> object_of e = Some l ->
  get (heap σ0 l) a = Some s ->
  δ σ q a = Some s.
Proof.
  intros H G Ho Ga.
  destruct (construction_in_place_aux Q' Σ' q0' F' lbl σ0 (inr A) σ H)
    as (Hobj & Hheap & Hfull).
  assert (Gl : get (table σ) q = Some (Full l)).
  { rewrite (Hfull A eq_refl q) by (eapply get_In_keys, G). rewrite G.
    destruct e as [l'|l' d'|ty]; simpl in *; congruence. }
  rewrite (δ_Full _ _ _ _ Gl). auto.
Qed.

Lemma listed_transitions_kept_witness :
  δ A003_completed "0" "c" = Some "1".
Proof.
  apply (listed_transitions_kept _ _ _ _ _ _ _ _ "0" (Short 0 "_") 0 "c" "1"
           A003_constructed); reflexivity.
Defined.

(** ** Completing an object twice *)

(** A completed object lists symbols of Σ only, with targets in Q. *)
Lemma fill_defaults_keys_ok Qs Σs d (o : transitions) :
  In d Qs ->
  (forall v, In v (keys o) ->
     In v Σs /\ exists s, get o v = Some s /\ In s Qs) ->
  forall v, In v (keys (fill_defaults Σs (keys o) d o)) ->
    In v Σs /\
    exists s, get (fill_defaults Σs (keys o) d o) v = Some s /\ In s Qs.
Proof.
  intros Hd Hv v Hin.
  destruct (In_keys_get _ _ Hin) as [s Gs]. pose proof Gs as Gs'.
  rewrite fill_defaults_keys_get in Gs'.
  destruct (get o v) as [s0|] eqn:G.
  - destruct (Hv v (get_In_keys _ _ _ G)) as (HvΣ & s1 & G1 & Hs1).
    split; [exact HvΣ|]. exists s. split; [exact Gs | congruence].
  - destruct (includes Σs v) eqn:E; simpl in Gs'; [|discriminate].
    apply includes_In in E. split; [exact E|]. exists s.
    split; [exact Gs|].
    destruct (String.eqb v "__proto__"); simpl in Gs'; congruence.
Qed.

(** X5: completing an object that has been completed changes nothing,
    whatever the default state of the second pair: the completed object
    lists every symbol of Σ that a write can define, so no default is
    filled in. *)
Theorem completion_idempotent Qs Σs l d d' σ σ1 :
  complete_state_transitions Qs Σs l d σ = (inr tt, σ1) ->
  In d' Qs ->
  exists σ2,
    complete_state_transitions Qs Σs l d' σ1 = (inr tt, σ2) /\
    table σ2 = table σ1 /\ forall l', heap σ2 l' = heap σ1 l'.
Proof.
  intros H Hd'.
  apply complete_state_transitions_spec in H
    as [(_ & -> & Hd & Hv)|(e & E & _)]; [|discriminate].
  pose proof (fill_defaults_keys_ok Qs Σs d (heap σ l) Hd Hv) as Hkeys.
  eexists. split.
  - apply complete_state_transitions_ok; [exact Hd'|].
    simpl. rewrite heap_set_same. exact Hkeys.
  - simpl. split; [reflexivity|]. intros l'. rewrite heap_set_same.
    unfold heap_set at 1. destruct (Nat.eqb_spec l' l) as [->|Hne];
      [|reflexivity].
    rewrite heap_set_same. apply fill_defaults_idem.
Qed.

Lemma completion_idempotent_witness :
  exists σ2,
    complete_state_transitions ["a"; "b"] ["0"] 0 "b"
      (snd (complete_state_transitions ["a"; "b"] ["0"] 0 "a" shared_store))
      = (inr tt, σ2) /\
    table σ2
    = table (snd (complete_state_transitions ["a"; "b"] ["0"] 0 "a"
                    shared_store)) /\
    forall l',
      heap σ2 l'
      = heap (snd (complete_state_transitions ["a"; "b"] ["0"] 0 "a"
                     shared_store)) l'.
Proof.
  apply (completion_idempotent ["a"; "b"] ["0"] 0 "a" "b" shared_store).
  - reflexivity.
  - simpl. tauto.
Defined.

(** ** Reading an input in two parts *)

Lemma split_app (s1 s2 : string) :
  split (s1 ++ s2)%string = split s1 ++ split s2.
Proof. induction s1 as [|c s1 IH]; simpl; [reflexivity | now rewrite IH]. Qed.

Lemma mapM_app {A B : Type} (f : A -> result B) (l1 l2 : list A) :
  mapM f (l1 ++ l2) =
  (ys <~ mapM f l1 ;; zs <~ mapM f l2 ;; inr (ys ++ zs)).
Proof.
  induction l1 as [|x l1 IH]; simpl.
  - destruct (mapM f l2); reflexivity.
  - destruct (f x) as [e|y]; simpl; [reflexivity|]. rewrite IH.
    destruct (mapM f l1) as [e|ys]; simpl; [reflexivity|].
    destruct (mapM f l2); reflexivity.
Qed.

Lemma read_loop_at_sink σ sinks parsed q :
  In q sinks -> read_loop σ sinks parsed q = inr q.
Proof.
  intros H. destruct parsed as [|a rest]; simpl; [reflexivity|].
  apply includes_In in H. now rewrite H.
Qed.

Lemma read_loop_app σ sinks p1 p2 q q1 :
  read_loop σ sinks p1 q = inr q1 ->
  read_loop σ sinks (p1 ++ p2) q = read_loop σ sinks p2 q1.
Proof.
  revert q. induction p1 as [|a p1 IH]; simpl; intros q H.
  - now inversion H.
  - destruct (includes sinks q) eqn:E.
    + inversion H; subst. apply includes_In in E.
      symmetry. apply read_loop_at_sink, E.
    + destruct (δ σ q a); [auto | discriminate].
Qed.

Lemma read_app_resumed σ A s1 s2 q1 :
  read σ A s1 = inr q1 ->
  read σ A (s1 ++ s2)%string = read σ (resumed A q1) s2.
Proof.
  unfold read, validate_input. cbn [resumed Σ sink_nodes q0].
  rewrite split_app, mapM_app.
  destruct (mapM _ (split s1)) as [e|p1] eqn:E1; simpl; [discriminate|].
  intros H. apply mapM_validate_inv in E1 as [-> _].
  destruct (mapM _ (split s2)) as [e|p2] eqn:E2; simpl; [reflexivity|].
  apply mapM_validate_inv in E2 as [-> _].
  apply read_loop_app, H.
Qed.

(** X6: [read] composes: when [read] takes a first part of the input to the
    state [q1], reading the whole input gives what reading the second part
    gives to the automaton taken up in [q1], be it a state or the error of
    a character outside Σ. *)
Theorem read_app σ A s1 s2 q1 :
  read σ A s1 = inr q1 ->
  read σ A (s1 ++ s2)%string = read σ (resumed A q1) s2.
Proof. apply read_app_resumed. Qed.

Lemma read_app_witness :
  read A003_completed A003 ("java" ++ "script")%string
  = read A003_completed (resumed A003 "_") "script".
Proof. apply read_app. vm_compute. reflexivity. Defined.

(** X7: a sink node absorbs: once [read] has reached a sink node, every
    continuation of the input over Σ is read to that same state, and [test]
    gives the same answer. *)
Theorem sink_absorbs σ A s1 s2 q :
  read σ A s1 = inr q -> In q (sink_nodes A) ->
  (forall c, In c (split s2) -> In c (Σ A)) ->
  read σ A (s1 ++ s2)%string = inr q /\
  test σ A (s1 ++ s2)%string = test σ A s1.
Proof.
  intros H Hq Hin.
  assert (E : read σ A (s1 ++ s2)%string = inr q).
  { rewrite (read_app_resumed _ _ _ _ _ H). unfold read.
    cbn [resumed Σ sink_nodes q0].
    rewrite validate_input_ok by exact Hin. simpl.
    apply read_loop_at_sink, Hq. }
  split; [exact E|]. unfold test. now rewrite E, H.
Qed.

Lemma sink_absorbs_witness :
  read A003_completed A003 ("script" ++ "xyz")%string = inr "5" /\
  test A003_completed A003 ("script" ++ "xyz")%string
  = test A003_completed A003 "script".
Proof.
  apply sink_absorbs.
  - vm_compute. reflexivity.
  - simpl. tauto.
  - simpl. intros c [<-|[<-|[<-|[]]]]; vm_compute; tauto.
Defined.

(** ** An initial state or an accept state that is not a state *)

Lemma mapM_validate_state_F Qs (Fs : list state) :
  (exists f, find (fun f => negb (includes Qs f)) Fs = Some f /\
             mapM (fun v => validate_state Qs v ~;; inr v) Fs
             = inl (StateNotInQ f)) \/
  ((forall f, In f Fs -> In f Qs) /\
   mapM (fun v => validate_state Qs v ~;; inr v) Fs = inr Fs).
Proof.
  destruct (find (fun f => negb (includes Qs f)) Fs) as [f|] eqn:E.
  - left. exists f. split; [reflexivity|].
    now apply mapM_validate_state_foreign.
  - right. assert (H : forall f, In f Fs -> In f Qs).
    { intros f Hf. apply (find_none _ _ E) in Hf.
      apply negb_false_iff, includes_In in Hf. exact Hf. }
    split; [exact H|]. apply mapM_validate_ok.
    intros x Hx. apply validate_state_ok. auto.
Qed.

(** X8: an initial state that is not in Q makes the construction fail, and
    [q0] is validated as soon as [complete_δ] has returned, before the
    accept states and before the final check: the error then names [q0],
    also when the table is not complete. *)
Theorem invalid_initial_state_rejected Q' Σ' q0' F' lbl σ0 :
  ~ In q0' (Array_from_Set Q') ->
  exists e σ,
    constructor Q' Σ' q0' F' lbl σ0 = (inl e, σ) /\
    (forall σ1,
       complete_δ (Array_from_Set Q') (Array_from_Set Σ') σ0 = (inr tt, σ1) ->
       e = StateNotInQ q0' /\ σ = σ1).
Proof.
  intros Hq0. unfold constructor, bind, lift.
  destruct (complete_δ _ _ σ0) as [[e1|[]] σ1].
  - exists e1, σ1. split; [reflexivity|]. intros σ' H. discriminate.
  - rewrite validate_state_ko by exact Hq0.
    exists (StateNotInQ q0'), σ1. split; [reflexivity|].
    intros σ' H. inversion H. auto.
Qed.

Lemma invalid_initial_state_rejected_witness :
  exists e σ,
    constructor (Q A001) (Σ A001) "q9" (F A001) "" A001_partial_store
      = (inl e, σ) /\
    e = StateNotInQ "q9" /\ σ = A001_partial_store.
Proof.
  destruct (invalid_initial_state_rejected (Q A001) (Σ A001) "q9" (F A001)
              "" A001_partial_store) as (e & σ & H & Hn).
  - simpl. intros [H|[H|[H|[]]]]; discriminate.
  - exists e, σ. split; [exact H|]. apply Hn. reflexivity.
Defined.

(** X9: an accept state that is not in Q makes the construction fail; when
    [complete_δ] has returned and [q0] is in Q, the error names the first
    such state of F, duplicates dropped, and comes before the final
    check. *)
Theorem invalid_accept_state_rejected Q' Σ' q0' F' lbl σ0 f :
  In f F' -> ~ In f (Array_from_Set Q') ->
  exists e σ,
    constructor Q' Σ' q0' F' lbl σ0 = (inl e, σ) /\
    (forall σ1,
       complete_δ (Array_from_Set Q') (Array_from_Set Σ') σ0 = (inr tt, σ1) ->
       In q0' (Array_from_Set Q') ->
       exists f',
         find (fun f => negb (includes (Array_from_Set Q') f))
           (Array_from_Set F') = Some f' /\
         e = StateNotInQ f' /\ σ = σ1).
Proof.
  intros Hf Hn. unfold constructor, bind, lift.
  destruct (complete_δ _ _ σ0) as [[e1|[]] σ1].
  { exists e1, σ1. split; [reflexivity|]. intros σ' H. discriminate. }
  destruct (validate_state_from_spec (Array_from_Set Q') q0')
    as [[Hq0 _]|[Hq0 _]].
  2:{ rewrite validate_state_ko by exact Hq0.
      exists (StateNotInQ q0'), σ1. split; [reflexivity|].
      intros σ' _ Hin. contradiction. }
  rewrite validate_state_ok by exact Hq0.
  destruct (mapM_validate_state_F (Array_from_Set Q') (Array_from_Set F'))
    as [(f' & Hfind & ->)|[Hall _]].
  - exists (StateNotInQ f'), σ1. split; [reflexivity|].
    intros σ' H _. inversion H. eauto.
  - exfalso. apply Hn, Hall, In_Array_from_Set, Hf.
Qed.

Lemma invalid_accept_state_rejected_witness :
  exists e σ,
    constructor (Q A001) (Σ A001) "q0" ["q1"; "q8"; "q1"; "q9"] ""
      A001_partial_store = (inl e, σ) /\
    exists f',
      find (fun f => negb (includes (Array_from_Set (Q A001)) f))
        (Array_from_Set ["q1"; "q8"; "q1"; "q9"]) = Some f' /\
      e = StateNotInQ f' /\ σ = A001_partial_store.
Proof.
  destruct (invalid_accept_state_rejected (Q A001) (Σ A001) "q0"
              ["q1"; "q8"; "q1"; "q9"] "" A001_partial_store "q9")
    as (e & σ & H & Hn).
  - simpl. tauto.
  - simpl. intros [H|[H|[H|[]]]]; discriminate.
  - exists e, σ. split; [exact H|]. apply Hn; [reflexivity | simpl; tauto].
Defined.

(** ** What the errors of the constructor say *)

Lemma validate_provided_error Qs Σs o v e σ :
  validate_provided Qs Σs o v = inl e -> In v (keys o) ->
  error_holds Qs Σs σ e.
Proof.
  unfold validate_provided, validate_char, validate_state. intros H Hv.
  destruct (validate_char_from_spec Σs v) as [[_ E]|[Hn E]];
    rewrite E in H; simpl in H; [|inversion H; exact Hn].
  destruct (In_keys_get _ _ Hv) as [s Gs]. rewrite Gs in H.
  destruct (validate_state_from_spec Qs s) as [[_ E']|[Hn E']];
    rewrite E' in H; simpl in H; [discriminate | inversion H; exact Hn].
Qed.

Lemma mapM_validate_provided_error Qs Σs o l e σ :
  mapM (validate_provided Qs Σs o) l = inl e ->
  (forall v, In v l -> In v (keys o)) ->
  error_holds Qs Σs σ e.
Proof.
  induction l as [|v l IH]; simpl; intros H Hl; [discriminate|].
  destruct (validate_provided Qs Σs o v) as [e1|y] eqn:E; simpl in H.
  - inversion H; subst. eapply validate_provided_error; eauto.
  - destruct (mapM _ l) as [e2|ys]; simpl in H; [|discriminate].
    inversion H; subst. apply IH; auto.
Qed.

Lemma complete_state_transitions_error Qs Σs l d σ e σ' τ :
  complete_state_transitions Qs Σs l d σ = (inl e, σ') ->
  error_holds Qs Σs τ e.
Proof.
  unfold complete_state_transitions, bind, lift.
  destruct (validate_state_from_spec Qs d) as [[_ E]|[Hn E]];
    unfold validate_state; rewrite E.
  - destruct (mapM _ (keys (heap σ l))) as [e1|ys] eqn:E1; intros H;
      inversion H; subst.
    eapply mapM_validate_provided_error; eauto.
  - intros H. inversion H; subst. exact Hn.
Qed.

Lemma complete_δ_loop_error_holds Qs Σs ps σ e σ' :
  complete_δ_loop Qs Σs ps σ = (inl e, σ') ->
  (forall k, In k ps -> In k Qs /\ In k (keys (table σ))) ->
  error_holds Qs Σs σ' e.
Proof.
  revert σ. induction ps as [|k rest IH]; intros σ H Hps; [discriminate|].
  destruct (Hps k (or_introl eq_refl)) as [HkQ Hkt].
  apply complete_δ_loop_step in H
    as [(_ & _ & H)|[(l & d & G & [(e' & C & Er & _ & _)|(_ & _ & H)])
                    |(Ety & Er & ->)]].
  - apply (IH σ H). intros k' Hk'. apply Hps. right. exact Hk'.
  - inversion Er; subst. eapply complete_state_transitions_error, C.
  - apply (IH _ H). simpl. intros k' Hk'.
    rewrite keys_set_In by exact Hkt. apply Hps. right. exact Hk'.
  - inversion Er; subst. simpl. split; [exact HkQ|].
    destruct (In_keys_get _ _ Hkt) as [e0 G].
    rewrite (lookup_row_Own _ _ _ G) in Ety.
    destruct e0 as [l|l d|ty]; simpl in Ety; try (exfalso; auto; fail).
    exists ty. auto.
Qed.

Lemma complete_δ_error_holds Qs Σs σ e σ' :
  complete_δ Qs Σs σ = (inl e, σ') -> error_holds Qs Σs σ' e.
Proof.
  unfold complete_δ.
  destruct (mapM _ (keys (table σ))) as [e1|ps] eqn:E; intros H.
  - inversion H; subst.
    destruct (first_outside Qs (keys (table σ')))
      as [Hin|(l1 & c & l2 & E' & H1 & Hc)].
    + rewrite mapM_validate_ok in E; [discriminate|].
      intros x Hx. apply validate_state_ok. auto.
    + rewrite E' in E.
      rewrite (mapM_validate_ko _ l1 l2 c (StateNotInQ c)) in E.
      * inversion E. exact Hc.
      * intros y Hy. apply validate_state_ok. auto.
      * apply validate_state_ko, Hc.
  - apply mapM_validate_inv in E as [-> Hall].
    eapply complete_δ_loop_error_holds; [exact H|].
    intros k Hk. split; [|exact Hk].
    destruct (Hall k Hk) as [u Hu]. eapply validate_state_inv, Hu.
Qed.

Lemma typeof_undefined v : typeof v = "undefined" <-> v = Undefined.
Proof. destruct v; simpl; split; intros H; first [reflexivity | discriminate H]. Qed.

Lemma check_transitions_error_holds Qs st rd Σ' b e :
  check_transitions Qs st rd Σ' b = inl e ->
  exists a, In a Σ' /\
    ((e = MissingTransition st a /\ rd a = inr Undefined) \/
     (exists v, e = AmbiguousTransition st a (String_of v) /\
                rd a = inr v /\ v <> Undefined /\
                includes_value Qs v = false) \/
     rd a = inl e).
Proof.
  revert b. induction Σ' as [|a Σ' IH]; simpl; intros b H; [discriminate|].
  destruct (rd a) as [e'|v] eqn:G; simpl in H.
  { inversion H; subst. exists a. auto. }
  destruct (String.eqb_spec (typeof v) "undefined") as [E|E].
  { apply typeof_undefined in E. subst v. inversion H; subst.
    exists a. auto. }
  destruct (includes_value Qs v) eqn:Inc; simpl in H.
  - apply IH in H as (a' & Ha' & H). eauto.
  - inversion H; subst. exists a. split; [auto|]. right. left.
    exists v. repeat split; auto. intros ->. apply E. reflexivity.
Qed.

Lemma δ_final_check_loop_error_holds Qs Σs σ Q' acc e :
  δ_final_check_loop Qs Σs σ Q' acc = inl e ->
  (forall q, In q Q' -> In q Qs) ->
  (forall k e', get (table σ) k = Some e' ->
     (exists l, e' = Full l) \/ e' = Prim "object") ->
  error_holds Qs Σs σ e.
Proof.
  intros H HQ Hown. revert acc H.
  induction Q' as [|q Q' IH]; simpl; intros acc H; [discriminate|].
  assert (HqQ : In q Qs) by (apply HQ; left; reflexivity).
  pose proof (typeof_undefined_entry_less (table σ) q (Hown q)) as Hty.
  destruct (String.eqb_spec
              (typeof_row typeof_entry (lookup_row (table σ) q)) "undefined")
    as [E|E].
  - inversion H; subst. simpl. split; [exact HqQ | now apply Hty].
  - destruct (check_transitions Qs q _ Σs true) as [e1|b] eqn:C; simpl in H.
    + inversion H; subst.
      apply check_transitions_error_holds in C
        as (a & Ha & [[-> Ga]|[(v & -> & Ga & Hv & Hn)|Ga]]); simpl.
      * split; [exact HqQ|]. split; [exact Ha|]. split; [|exact Ga].
        destruct (entry_less (table σ) q); [|reflexivity].
        exfalso. apply E. now apply Hty.
      * split; [exact HqQ|]. split; [exact Ha|]. eauto.
      * pose proof (row_property_error _ _ _ _ Ga) as ->.
        exists q, a. auto.
    + eapply IH; [|exact H]. intros q' Hq'. apply HQ. right. exact Hq'.
Qed.

(** X10: the errors of the constructor are true of its arguments and of
    the table as the failed construction leaves it: a state or a symbol it
    reports as not part of Q or Σ is not in the normalised Q or Σ; an entry
    it reports as invalid is an entry of a state of Q that is no object; a
    state it reports as missing is a state of Q with no entry, its own or
    inherited; a transition δ(q,a) it reports as missing or as pointing to
    an invalid state is, for a state q of Q and a symbol a of Σ, undefined
    or a value that is no state of Q, the value whose string the message
    holds; and a TypeError is the exception of the read of such a δ(q,a),
    as for the entry [null]. *)
Theorem constructor_error_truthful Q' Σ' q0' F' lbl σ0 e σ :
  constructor Q' Σ' q0' F' lbl σ0 = (inl e, σ) ->
  error_holds (Array_from_Set Q') (Array_from_Set Σ') σ e.
Proof.
  unfold constructor, bind, lift. intros H.
  destruct (complete_δ _ _ σ0) as [[e1|[]] σ1] eqn:Hcd.
  { inversion H; subst. eapply complete_δ_error_holds, Hcd. }
  destruct (validate_state_from_spec (Array_from_Set Q') q0')
    as [[Hq0 _]|[Hq0 _]].
  2:{ rewrite validate_state_ko in H by exact Hq0. inversion H; subst.
      exact Hq0. }
  rewrite validate_state_ok in H by exact Hq0.
  destruct (mapM_validate_state_F (Array_from_Set Q') (Array_from_Set F'))
    as [(f' & Hfind & E)|[_ E]]; rewrite E in H.
  { inversion H; subst. apply find_some in Hfind as [_ Hf].
    apply negb_true_iff, includes_not_In in Hf. exact Hf. }
  destruct (δ_final_check _ _ σ1) as [e2|sinks] eqn:Hfin; [|discriminate].
  inversion H; subst.
  eapply δ_final_check_loop_error_holds; [exact Hfin | auto |].
  intros k e'. eapply complete_δ_own, Hcd.
Qed.

Lemma constructor_error_truthful_witness :
  error_holds (Array_from_Set (Q A001)) (Array_from_Set (Σ A001))
    A001_partial_store (MissingState "e").
Proof.
  apply (constructor_error_truthful (Q A001) (Σ A001) "q0" (F A001) ""
           A001_partial_store).
  reflexivity.
Defined.

(** * Properties of the single-pass variant *)

Lemma SinglePass_validate_state_spec (Qs : list state) (s origin : string) :
  (In s Qs /\ SinglePass.validate_state Qs s origin = inr tt) \/
  (~ In s Qs /\
   SinglePass.validate_state Qs s origin
   = inl (if String.eqb origin "" then StateNotInQ s
          else PointsOutsideQ origin s)).
Proof.
  unfold SinglePass.validate_state.
  induction Qs as [|q Qs IH]; simpl.
  - right. auto.
  - destruct (String.eqb_spec q s) as [->|Hne]; [left; auto|].
    destruct IH as [[H1 H2]|[H1 H2]]; [left | right]; split; auto.
    intros [H|H]; auto.
Qed.

Lemma SinglePass_check_full_spec Qs q rd Σ' b b' :
  SinglePass.check_full Qs q rd Σ' b = inr b' ->
  (forall a, In a Σ' -> exists n, rd a = inr (Str n) /\ In n Qs) /\
  (b' = true <-> b = true /\ forall a, In a Σ' -> rd a = inr (Str q)).
Proof.
  revert b. induction Σ' as [|a Σ' IH]; simpl; intros b H.
  - inversion H; subst. split; [contradiction | tauto].
  - destruct (rd a) as [e|v] eqn:Ga; simpl in H; [discriminate|].
    destruct v as [| |n| | |]; simpl in H; try discriminate.
    destruct (SinglePass_validate_state_spec Qs n (origin_of q a))
      as [[Hn E]|[Hn E]]; rewrite E in H; simpl in H; [|discriminate].
    apply IH in H as [Htot Hsink]. split.
    + intros a' [<-|Ha']; eauto.
    + rewrite Hsink. destruct (String.eqb_spec n q) as [->|Hne]; simpl.
      * split; intros [Hb Hall]; (split; [exact Hb|]).
        -- intros a' [<-|Ha']; auto.
        -- auto.
      * split; [intros [Hb _]; discriminate|].
        intros [_ Hall]. specialize (Hall a (or_introl eq_refl)). congruence.
Qed.

(** One turn of the loop of [#complete_δ] that does not throw: the entry
    is read, or it is a short-hand pair, which is completed. *)
Lemma SinglePass_loop_step Qs Σs q rest acc σ sinks σ' :
  SinglePass.complete_δ_loop Qs Σs (q :: rest) acc σ = (inr sinks, σ') ->
  (exists b,
     (forall l d, get (table σ) q <> Some (Short l d)) /\
     SinglePass.check_full Qs q (row_property σ (lookup_row (table σ) q))
       Σs true = inr b /\
     SinglePass.complete_δ_loop Qs Σs rest
       (if b then acc ++ [q] else acc) σ = (inr sinks, σ')) \/
  (exists l d,
     get (table σ) q = Some (Short l d) /\
     In d Qs /\
     (forall v, In v (keys (heap σ l)) ->
        In v Σs /\ exists s, get (heap σ l) v = Some s /\ In s Qs) /\
     SinglePass.complete_δ_loop Qs Σs rest
       (if SinglePass.differs_from_default
             (map (get (heap σ l)) (keys (heap σ l))) d true
        then acc ++ [q] else acc)
       (mkStore
          (heap_set (heap σ) l
             (fill_defaults Σs (keys (heap σ l)) d (heap σ l)))
          (set (table σ) q (Full l))) = (inr sinks, σ')).
Proof.
  cbn [SinglePass.complete_δ_loop].
  destruct (String.eqb (typeof_row typeof_entry (lookup_row (table σ) q))
              "undefined"); [discriminate|].
  destruct (negb (String.eqb
                    (typeof_row typeof_entry (lookup_row (table σ) q))
                    "object")); [discriminate|].
  assert (Hread : forall t,
            lookup_row (table σ) q = t ->
            (forall l d, t <> Own (Short l d)) ->
            match SinglePass.check_full Qs q (row_property σ t) Σs true with
            | inl e => (inl e, σ)
            | inr sink_node =>
                SinglePass.complete_δ_loop Qs Σs rest
                  (if sink_node then acc ++ [q] else acc) σ
            end = (inr sinks, σ') ->
            exists b,
              (forall l d, get (table σ) q <> Some (Short l d)) /\
              SinglePass.check_full Qs q (row_property σ t) Σs true = inr b /\
              SinglePass.complete_δ_loop Qs Σs rest
                (if b then acc ++ [q] else acc) σ = (inr sinks, σ')).
  { intros t R Ht H.
    destruct (SinglePass.check_full Qs q (row_property σ t) Σs true) as [e|b];
      [discriminate|].
    exists b. repeat split; [|exact H].
    intros l d G. apply lookup_row_Own in G. apply (Ht l d). congruence. }
  destruct (lookup_row (table σ) q) as [[l|l d|ty]| | |] eqn:R; intros H;
    try (left; apply (Hread _ eq_refl); [intros; discriminate | exact H]).
  right. exists l, d. apply lookup_row_Own_inv in R. split; [exact R|].
  unfold bind in H.
  destruct (complete_state_transitions Qs Σs l d σ) as [r1 σ1] eqn:C.
  destruct (complete_state_transitions_spec _ _ _ _ _ _ _ C)
    as [(-> & -> & Hd & Hv)|(e & -> & -> & He)]; [|discriminate].
  simpl in H. auto.
Qed.

(** What a row gives stays when the objects only gain properties. *)
Lemma row_property_mono σ σ' t a n :
  (forall l a s, get (heap σ l) a = Some s -> get (heap σ' l) a = Some s) ->
  row_property σ t a = inr (Str n) -> row_property σ' t a = inr (Str n).
Proof.
  intros Hh. unfold row_property.
  destruct t as [[l|l d|ty]| | |]; auto.
  cbn [row_get entry_property]. intros H.
  assert (P : property (heap σ l) a = Str n) by congruence.
  apply property_Str, Hh, property_Str in P. now rewrite P.
Qed.

(** The characters of an input are no [__proto__]. *)
Lemma split_not_proto input c : In c (split input) -> c <> "__proto__".
Proof.
  induction input as [|ch s IH]; simpl; [contradiction|].
  intros [<-|H]; [discriminate | auto].
Qed.

(** What the loop leaves: the entries of the states it walked are
    completed and the other entries are as they were or completed; the
    objects only gain properties; and the completed table gives a state of
    Q for every state the loop walked and every symbol of Σ that a write
    can define. *)
Lemma SinglePass_loop_total Qs Σs Q' acc σ sinks σ' :
  SinglePass.complete_δ_loop Qs Σs Q' acc σ = (inr sinks, σ') ->
  (forall k,
     get (table σ') k = option_map completed_entry (get (table σ) k) \/
     (~ In k Q' /\ get (table σ') k = get (table σ) k)) /\
  (forall l a s, get (heap σ l) a = Some s -> get (heap σ' l) a = Some s) /\
  (forall q a, In q Q' -> In a Σs -> a <> "__proto__" ->
     exists n, δ σ' q a = Some n /\ In n Qs).
Proof.
  revert acc σ. induction Q' as [|q rest IH]; intros acc σ H.
  - inversion H; subst. repeat split; auto. intros q a [].
  - apply SinglePass_loop_step in H
      as [(b & Hns & C & H)|(l & d & G & Hd & Hv & H)].
    + apply IH in H as (Ht & Hh & Hall).
      apply SinglePass_check_full_spec in C as [Htot _].
      assert (Eq : option_map completed_entry (get (table σ) q)
                   = get (table σ) q).
      { destruct (get (table σ) q) as [[l|l d|ty]|] eqn:G; try reflexivity.
        exfalso. exact (Hns _ _ eq_refl). }
      assert (Gq : get (table σ') q = get (table σ) q).
      { destruct (Ht q) as [E|[_ E]]; congruence. }
      split; [|split; [exact Hh|]].
      * intros k. destruct (Ht k) as [E|[Hn E]]; [auto|].
        destruct (String.eqb_spec q k) as [<-|Hne].
        -- left. congruence.
        -- right. split; [|exact E]. intros [?|?]; contradiction.
      * intros q' a [<-|Hq'] Ha Hp; [|auto].
        destruct (Htot a Ha) as (n & Gn & Hn). exists n. split; [|exact Hn].
        apply δ_Some. rewrite (lookup_row_ext _ _ _ Gq).
        eapply row_property_mono; eauto.
    + apply IH in H as (Ht & Hh & Hall). simpl in *.
      assert (Hh' : forall l' a s,
                get (heap σ l') a = Some s -> get (heap σ' l') a = Some s).
      { intros l' a s Ga. apply Hh. unfold heap_set.
        destruct (Nat.eqb_spec l' l) as [->|Hne]; [|exact Ga].
        now rewrite fill_defaults_keys_get, Ga. }
      assert (Gq : get (table σ') q = Some (Full l)).
      { destruct (Ht q) as [E|[_ E]]; rewrite E, get_set_same; reflexivity. }
      split; [|split; [exact Hh'|]].
      * intros k. destruct (String.eqb_spec q k) as [<-|Hne].
        -- left. now rewrite Gq, G.
        -- destruct (Ht k) as [E|[Hn E]];
             rewrite get_set_other in E by exact Hne; [auto|].
           right. split; [|exact E]. intros [?|?]; contradiction.
      * intros q' a [<-|Hq'] Ha Hp; [|auto].
        assert (Gf : exists n,
                  get (fill_defaults Σs (keys (heap σ l)) d (heap σ l)) a
                  = Some n /\ In n Qs).
        { rewrite fill_defaults_keys_get.
          destruct (get (heap σ l) a) as [s|] eqn:Ga.
          - destruct (Hv a (get_In_keys _ _ _ Ga)) as (_ & s' & Gs & Hs).
            exists s. split; [reflexivity | congruence].
          - apply includes_In in Ha. apply String.eqb_neq in Hp.
            rewrite Ha, Hp. simpl. eauto. }
        destruct Gf as (n & Gn & Hn). exists n. split; [|exact Hn].
        rewrite (δ_Full _ _ _ _ Gq). apply Hh. now rewrite heap_set_same.
Qed.

Lemma SinglePass_constructor_inv Q' Σ' q0' F' lbl σ0 A σ :
  SinglePass.constructor Q' Σ' q0' F' lbl σ0 = (inr A, σ) ->
  exists sinks,
    SinglePass.complete_δ (Array_from_Set Q') (Array_from_Set Σ') σ0
      = (inr sinks, σ) /\
    In q0' (Array_from_Set Q') /\
    (forall f, In f (Array_from_Set F') -> In f (Array_from_Set Q')) /\
    A = mkDFSM (Array_from_Set Q') (Array_from_Set Σ') q0'
          (Array_from_Set F') sinks lbl.
Proof.
  unfold SinglePass.constructor. intros H.
  apply bind_inv in H as (sinks & σ1 & Hc & H).
  apply bind_inv in H as (u & σ2 & Hq0 & H).
  apply lift_inv in Hq0 as [Hq0 ->].
  apply bind_inv in H as (this_F & σ3 & HF & H).
  apply lift_inv in HF as [HF ->].
  apply mapM_validate_inv in HF as [-> HF].
  inversion H; subst. exists sinks. repeat split; auto.
  - destruct (SinglePass_validate_state_spec (Array_from_Set Q') q0' "")
      as [[Hin _]|[_ E]]; [exact Hin | congruence].
  - intros f Hf. destruct (HF f Hf) as [u' Hu].
    destruct (SinglePass_validate_state_spec (Array_from_Set Q') f "")
      as [[Hin _]|[_ E]]; [exact Hin | congruence].
Qed.

Lemma read_loop_in_Q σ Qs sinks parsed q :
  (forall q a, In q Qs -> In a parsed ->
     exists n, δ σ q a = Some n /\ In n Qs) ->
  In q Qs ->
  exists q', read_loop σ sinks parsed q = inr q' /\ In q' Qs.
Proof.
  revert q. induction parsed as [|a rest IH]; intros q Hcl Hq.
  - simpl. eauto.
  - cbn [read_loop]. destruct (includes sinks q); [eauto|].
    destruct (Hcl q a Hq) as (n & -> & Hn); [left; reflexivity|].
    apply IH; [|exact Hn]. intros q' a' Hq' Ha'. apply Hcl; [exact Hq'|].
    right. exact Ha'.
Qed.

(** X11: for an automaton the single-pass variant constructs, δ(q,a) is
    defined and in Q for every state q of Q and every symbol a of Σ other
    than [__proto__], which the completion of a short-hand pair cannot
    define; this also when entries share their objects.  [read] returns a
    state of Q on every input over Σ. *)
Theorem single_pass_total_closed Q' Σ' q0' F' lbl σ0 A σ :
  SinglePass.constructor Q' Σ' q0' F' lbl σ0 = (inr A, σ) ->
  (forall q a, In q (Q A) -> In a (Σ A) -> a <> "__proto__" ->
     exists n, δ σ q a = Some n /\ In n (Q A)) /\
  (forall input, (forall c, In c (split input) -> In c (Σ A)) ->
     exists q, read σ A input = inr q /\ In q (Q A)).
Proof.
  intros H.
  apply SinglePass_constructor_inv in H as (sinks & Hc & Hq0 & _ & ->).
  cbn [Q Σ]. apply SinglePass_loop_total in Hc as (_ & _ & Hcl).
  split; [exact Hcl|]. intros input Hin.
  unfold read. cbn [Σ sink_nodes q0].
  rewrite validate_input_ok by exact Hin. simpl.
  apply (read_loop_in_Q σ (Array_from_Set Q')); [|exact Hq0].
  intros q a Hq Ha. apply Hcl; [exact Hq | apply Hin, Ha|].
  eapply split_not_proto, Ha.
Qed.

Lemma A003_single_pass_constructed :
  SinglePass.constructor A003_states A003_alphabet "_" ["5"]
    "(a+z)*script(a+z)*" A003_store = (inr A003, A003_single_pass).
Proof. vm_compute. reflexivity. Qed.

Lemma single_pass_total_closed_witness :
  (exists n, δ A003_single_pass "3" "p" = Some n /\ In n (Q A003)) /\
  (exists q, read A003_single_pass A003 "scrip" = inr q /\ In q (Q A003)).
Proof.
  destruct (single_pass_total_closed _ _ _ _ _ _ _ _
              A003_single_pass_constructed) as [Hd Hr].
  split.
  - apply Hd; [In_by_includes | In_by_includes | discriminate].
  - apply Hr. intros c Hc. vm_compute in Hc.
    repeat (destruct Hc as [<-|Hc]; [In_by_includes|]). destruct Hc.
Defined.

(** ** The sink nodes of the single-pass variant *)

Lemma differs_from_default_spec ts d b :
  SinglePass.differs_from_default ts d b = true <->
  b = true /\ forall t, In t ts -> t = Some d.
Proof.
  unfold SinglePass.differs_from_default.
  revert b. induction ts as [|t ts IH]; simpl; intros b.
  - split; [intros ->; split; [reflexivity | contradiction] | tauto].
  - rewrite IH. destruct t as [s|].
    + destruct (String.eqb_spec s d) as [->|Hne]; simpl.
      * split; intros [Hb H]; (split; [exact Hb|]); [|auto].
        intros t [<-|Ht]; auto.
      * split; [intros [Hb _]; discriminate|].
        intros [_ H]. specialize (H _ (or_introl eq_refl)). congruence.
    + split; [intros [Hb _]; discriminate|].
      intros [_ H]. specialize (H _ (or_introl eq_refl)). discriminate.
Qed.

Lemma SinglePass_loop_sinks Qs Σs Q' acc σ sinks σ' :
  SinglePass.complete_δ_loop Qs Σs Q' acc σ = (inr sinks, σ') ->
  (forall x, In x acc -> In x sinks) /\
  (forall x, In x sinks -> In x acc \/ In x Q').
Proof.
  revert acc σ. induction Q' as [|q rest IH]; intros acc σ H.
  - inversion H; subst. auto.
  - assert (Hpush : forall (b : bool) x,
              (In x acc -> In x (if b then acc ++ [q] else acc)) /\
              (In x (if b then acc ++ [q] else acc) -> In x acc \/ x = q)).
    { intros b x. destruct b; [rewrite in_app_iff; simpl|]; intuition. }
    apply SinglePass_loop_step in H
      as [(b & _ & _ & H)|(l & d & _ & _ & _ & H)];
      apply IH in H as [H1 H2]; split; intros x Hx.
    + apply H1, Hpush, Hx.
    + apply H2 in Hx as [Hx|Hx]; [|simpl; auto].
      apply Hpush in Hx as [Hx| ->]; simpl; auto.
    + apply H1, Hpush, Hx.
    + apply H2 in Hx as [Hx|Hx]; [|simpl; auto].
      apply Hpush in Hx as [Hx| ->]; simpl; auto.
Qed.

Lemma SinglePass_loop_itself Qs Σs Q' acc σ sinks σ' q e l :
  ~ In "__proto__" Σs ->
  NoDup Q' ->
  SinglePass.complete_δ_loop Qs Σs Q' acc σ = (inr sinks, σ') ->
  In q Q' -> get (table σ) q = Some e ->
  compares_with_itself q e = Some l -> ~ In q acc ->
  (In q sinks <-> forall a, In a Σs -> get (heap σ' l) a = Some q).
Proof.
  intros Hp Hnd. revert acc σ.
  induction Hnd as [|q1 rest Hq1 Hnd IH]; intros acc σ H Hq G Hc Hacc;
    [destruct Hq|].
  assert (Hflag : forall (b : bool) sinks1 σ1 τ,
            SinglePass.complete_δ_loop Qs Σs rest
              (if b then acc ++ [q] else acc) τ = (inr sinks1, σ1) ->
            ~ In q rest -> (In q sinks1 <-> b = true)).
  { intros b sinks1 σ1 τ H1 Hr.
    apply SinglePass_loop_sinks in H1 as [H1 H2]. split.
    - intros Hin. apply H2 in Hin as [Hin|Hin]; [|contradiction].
      destruct b; [reflexivity | contradiction].
    - intros ->. apply H1, in_app_iff. right. simpl. auto. }
  destruct Hq as [->|Hq].
  - (* the turn of q *)
    apply SinglePass_loop_step in H
      as [(b & Hns & C & H)|(l1 & d & G1 & Hd & Hv & H)].
    + assert (e = Full l) as ->.
      { destruct e as [l1|l1 d|ty]; simpl in Hc; [congruence| |discriminate].
        exfalso. eapply Hns, G. }
      rewrite (lookup_row_Own _ _ _ G) in C.
      rewrite (Hflag _ _ _ _ H Hq1).
      apply SinglePass_loop_total in H as (_ & Hh & _).
      apply SinglePass_check_full_spec in C as [Htot Hsink].
      assert (Hrd : forall a n,
                row_property σ (Own (Full l)) a = inr (Str n) <->
                get (heap σ l) a = Some n).
      { intros a n. unfold row_property. cbn [row_get entry_property].
        rewrite <- property_Str. split; congruence. }
      rewrite Hsink. split.
      * intros [_ Hall] a Ha. apply Hh, Hrd, Hall, Ha.
      * intros Hall. split; [reflexivity|]. intros a Ha.
        destruct (Htot a Ha) as (n & Gn & _).
        pose proof (Hh _ _ _ (proj1 (Hrd _ _) Gn)) as Gn'.
        rewrite (Hall a Ha) in Gn'. congruence.
    + rewrite G in G1. inversion G1; subst e. simpl in Hc.
      destruct (String.eqb_spec d q) as [->|Hne]; [|discriminate].
      inversion Hc; subst l1.
      rewrite (Hflag _ _ _ _ H Hq1).
      apply SinglePass_loop_total in H as (_ & Hh & _). simpl in Hh.
      rewrite differs_from_default_spec.
      assert (Hfill : forall a s,
                get (fill_defaults Σs (keys (heap σ l)) q (heap σ l)) a
                = Some s -> get (heap σ' l) a = Some s).
      { intros a s Ga. apply Hh. now rewrite heap_set_same. }
      split.
      * intros [_ Hall] a Ha. apply Hfill. rewrite fill_defaults_keys_get.
        destruct (get (heap σ l) a) as [s|] eqn:Ga.
        -- assert (Hs : Some s = Some q).
           { apply Hall. rewrite <- Ga. apply in_map.
             eapply get_In_keys, Ga. }
           exact Hs.
        -- assert (Hne : a <> "__proto__") by (intros ->; auto).
           apply String.eqb_neq in Hne. apply includes_In in Ha.
           now rewrite Ha, Hne.
      * intros Hall. split; [reflexivity|]. intros t Ht.
        apply in_map_iff in Ht as (v & <- & Hin).
        destruct (Hv v Hin) as (HvΣ & s & Gs & _).
        assert (Gf : get (fill_defaults Σs (keys (heap σ l)) q (heap σ l)) v
                     = Some s).
        { now rewrite fill_defaults_keys_get, Gs. }
        apply Hfill in Gf. rewrite (Hall v HvΣ) in Gf. congruence.
  - (* the turn of another state *)
    assert (Hne : q1 <> q) by (intros ->; contradiction).
    assert (Hacc' : forall b : bool,
              ~ In q (if b then acc ++ [q1] else acc)).
    { intros b. destruct b; [|exact Hacc].
      rewrite in_app_iff. simpl. intuition. }
    apply SinglePass_loop_step in H
      as [(b & _ & C & H)|(l1 & d & G1 & Hd & Hv & H)].
    + eapply IH; eauto.
    + eapply IH; eauto. simpl. now rewrite get_set_other.
Qed.

(** X12: in the single-pass variant the sink test is right for the states
    given in full and for the short-hand pairs whose default is the state
    itself: such a state is among the sink nodes exactly when every
    transition of the completed table loops.  The string [__proto__] is no
    symbol of Σ: the completion of a pair cannot define that property. *)
Theorem single_pass_sink_itself Q' Σ' q0' F' lbl σ0 A σ q e l :
  ~ In "__proto__" (Array_from_Set Σ') ->
  SinglePass.constructor Q' Σ' q0' F' lbl σ0 = (inr A, σ) ->
  In q (Q A) -> get (table σ0) q = Some e ->
  compares_with_itself q e = Some l ->
  (In q (sink_nodes A) <-> forall a, In a (Σ A) -> δ σ q a = Some q).
Proof.
  intros Hp H Hq G Hc.
  apply SinglePass_constructor_inv in H as (sinks & Hloop & _ & _ & ->).
  cbn [Q Σ sink_nodes] in *.
  pose proof (SinglePass_loop_total _ _ _ _ _ _ _ Hloop) as (Ht & _ & _).
  assert (Gl : get (table σ) q = Some (Full l)).
  { destruct (Ht q) as [E|[Hn _]]; [|contradiction].
    rewrite E, G. destruct e as [l1|l1 d|ty]; simpl in *;
      [congruence| |discriminate].
    destruct (String.eqb d q); [congruence | discriminate]. }
  rewrite (SinglePass_loop_itself _ _ _ _ _ _ _ q e l Hp
             (NoDup_Array_from_Set Q') Hloop Hq G Hc (fun H => H)).
  split; intros Hs a Ha; [rewrite (δ_Full _ _ _ _ Gl) |
                          rewrite <- (δ_Full _ _ _ _ Gl)]; auto.
Qed.

Lemma single_pass_sink_itself_witness :
  In "5" (sink_nodes A003) <->
  forall a, In a (Σ A003) -> δ A003_single_pass "5" a = Some "5".
Proof.
  apply (single_pass_sink_itself A003_states A003_alphabet "_" ["5"]
           "(a+z)*script(a+z)*" A003_store A003 A003_single_pass
           "5" (Short 5 "5") 5).
  - apply (proj1 (includes_not_In _ _)). vm_compute. reflexivity.
  - exact A003_single_pass_constructed.
  - In_by_includes.
  - reflexivity.
  - reflexivity.
Defined.

(** With [__proto__] among the symbols the completion of a short-hand pair
    leaves that symbol out: the single-pass variant constructs, and
    δ(a, [__proto__]) is no state; the class of [src/DFSM.ts] meets
    [Object.prototype] there in its final check. *)
Example proto_symbol_not_filled :
  (exists A σ,
     SinglePass.constructor ["a"] ["__proto__"] "a" [] ""
       (mkStore (fun _ => []) [("a", Short 0 "a")]) = (inr A, σ) /\
     In "a" (sink_nodes A) /\ δ σ "a" "__proto__" = None) /\
  fst (constructor ["a"] ["__proto__"] "a" [] ""
         (mkStore (fun _ => []) [("a", Short 0 "a")]))
  = inl (AmbiguousTransition "a" "__proto__" "[object Object]").
Proof.
  split; [eexists; eexists; split; [reflexivity|]; simpl; auto|reflexivity].
Qed.

(** ** Keys of the table that are not states, in the single-pass variant *)

Lemma complete_state_transitions_heap_ext Qs Σs l d σ τ :
  (forall l', heap σ l' = heap τ l') ->
  fst (complete_state_transitions Qs Σs l d σ)
  = fst (complete_state_transitions Qs Σs l d τ) /\
  (forall l', heap (snd (complete_state_transitions Qs Σs l d σ)) l'
              = heap (snd (complete_state_transitions Qs Σs l d τ)) l') /\
  table (snd (complete_state_transitions Qs Σs l d σ)) = table σ /\
  table (snd (complete_state_transitions Qs Σs l d τ)) = table τ.
Proof.
  intros Hh. unfold complete_state_transitions, bind, lift.
  destruct (validate_state Qs d); [simpl; auto|].
  rewrite (Hh l).
  destruct (mapM _ (keys (heap τ l))); simpl; [auto|].
  repeat split. intros l'. unfold heap_set.
  destruct (Nat.eqb l' l); auto.
Qed.

Lemma SinglePass_check_full_ext Qs q rd rd' Σ' b :
  (forall a, rd' a = rd a) ->
  SinglePass.check_full Qs q rd' Σ' b = SinglePass.check_full Qs q rd Σ' b.
Proof.
  intros H. revert b. induction Σ' as [|a Σ' IH]; simpl; intros b; [reflexivity|].
  rewrite H. destruct (rd a) as [e|v]; simpl; [reflexivity|].
  destruct (String.eqb (typeof v) "undefined"); [reflexivity|].
  destruct (negb (String.eqb (typeof v) "string")); [reflexivity|].
  destruct (SinglePass.validate_state Qs (String_of v) (origin_of q a));
    simpl; auto.
Qed.

Lemma SinglePass_loop_ext Qs Σs Q' acc σ τ :
  (forall l, heap σ l = heap τ l) ->
  (forall q, In q Qs -> get (table σ) q = get (table τ) q) ->
  (forall q, In q Q' -> In q Qs) ->
  fst (SinglePass.complete_δ_loop Qs Σs Q' acc σ)
  = fst (SinglePass.complete_δ_loop Qs Σs Q' acc τ).
Proof.
  revert acc σ τ. induction Q' as [|q rest IH]; intros acc σ τ Hh Ht HQ.
  - reflexivity.
  - cbn [SinglePass.complete_δ_loop].
    rewrite (lookup_row_ext (table σ) (table τ) q)
      by (symmetry; apply Ht, HQ; left; reflexivity).
    assert (HQ' : forall q', In q' rest -> In q' Qs).
    { intros q' Hq'. apply HQ. right. exact Hq'. }
    destruct (String.eqb
                (typeof_row typeof_entry (lookup_row (table σ) q))
                "undefined"); [reflexivity|].
    destruct (negb (String.eqb
                      (typeof_row typeof_entry (lookup_row (table σ) q))
                      "object")); [reflexivity|].
    assert (Hread : forall t,
              fst match SinglePass.check_full Qs q (row_property σ t) Σs true
                  with
                  | inl e => (inl e, σ)
                  | inr sink_node =>
                      SinglePass.complete_δ_loop Qs Σs rest
                        (if sink_node then acc ++ [q] else acc) σ
                  end
              = fst match SinglePass.check_full Qs q (row_property τ t) Σs
                            true with
                    | inl e => (inl e, τ)
                    | inr sink_node =>
                        SinglePass.complete_δ_loop Qs Σs rest
                          (if sink_node then acc ++ [q] else acc) τ
                    end).
    { intros t.
      rewrite (SinglePass_check_full_ext Qs q (row_property σ t)
                 (row_property τ t)).
      - destruct (SinglePass.check_full Qs q (row_property σ t) Σs true);
          [reflexivity|]. apply IH; auto.
      - intros a. apply row_property_heap_ext. intros l. now rewrite Hh. }
    destruct (lookup_row (table σ) q) as [[l|l d|ty]| | |] eqn:G;
      try apply Hread.
    rewrite <- (Hh l). unfold bind.
    destruct (complete_state_transitions_heap_ext Qs Σs l d σ τ Hh)
      as (Er & Eh & Et1 & Et2).
    destruct (complete_state_transitions Qs Σs l d σ) as [r1 σ1].
    destruct (complete_state_transitions Qs Σs l d τ) as [r2 τ1].
    simpl in Er, Eh, Et1, Et2. subst r2.
    destruct r1 as [e|[]]; [reflexivity|].
    apply IH; simpl; auto.
    intros q' Hq'. rewrite Et1, Et2.
    destruct (String.eqb_spec q q') as [->|Hne].
    + now rewrite !get_set_same.
    + rewrite !get_set_other by auto. auto.
Qed.

(** X13: the single-pass variant reads the table at the states of Q only:
    two tables that agree on the states of Q, over the same objects, give
    the same outcome, be it the automaton or the error.  Keys of the table
    that are not states are not rejected. *)
Theorem single_pass_ignores_foreign_keys Q' Σ' q0' F' lbl σ τ :
  (forall l, heap σ l = heap τ l) ->
  (forall q, In q (Array_from_Set Q') ->
             get (table σ) q = get (table τ) q) ->
  fst (SinglePass.constructor Q' Σ' q0' F' lbl σ)
  = fst (SinglePass.constructor Q' Σ' q0' F' lbl τ).
Proof.
  intros Hh Ht. unfold SinglePass.constructor, bind, lift.
  pose proof (SinglePass_loop_ext (Array_from_Set Q') (Array_from_Set Σ')
                (Array_from_Set Q') [] σ τ Hh Ht (fun q H => H)) as E.
  unfold SinglePass.complete_δ.
  destruct (SinglePass.complete_δ_loop _ _ _ [] σ) as [r1 σ1].
  destruct (SinglePass.complete_δ_loop _ _ _ [] τ) as [r2 τ1].
  simpl in E. subst r2. destruct r1 as [e|sinks]; [reflexivity|].
  destruct (SinglePass.validate_state _ q0' ""); [reflexivity|].
  destruct (mapM _ (Array_from_Set F')); reflexivity.
Qed.

Lemma single_pass_ignores_foreign_keys_witness :
  fst (SinglePass.constructor (Q A001) (Σ A001) "q0" (F A001) ""
         A001_extra_store)
  = fst (SinglePass.constructor (Q A001) (Σ A001) "q0" (F A001) ""
           A001_store).
Proof.
  apply single_pass_ignores_foreign_keys.
  - reflexivity.
  - intros q Hq. vm_compute in Hq.
    repeat (destruct Hq as [<-|Hq]; [reflexivity|]). destruct Hq.
Defined.

(** ** States without an entry, in the single-pass variant *)

Lemma SinglePass_check_full_error Qs q σ t Σ' b e :
  SinglePass.check_full Qs q (row_property σ t) Σ' b = inl e ->
  forall s, e <> MissingState s.
Proof.
  revert b. induction Σ' as [|a Σ' IH]; simpl; intros b H; [discriminate|].
  destruct (row_property σ t a) as [e'|v] eqn:R; simpl in H.
  { apply row_property_error in R. inversion H; subst. discriminate. }
  destruct (String.eqb (typeof v) "undefined");
    [inversion H; intros s; discriminate|].
  destruct (negb (String.eqb (typeof v) "string"));
    [inversion H; intros s; discriminate|].
  destruct (SinglePass_validate_state_spec Qs (String_of v) (origin_of q a))
    as [[_ E]|[_ E]]; rewrite E in H; simpl in H; [eauto|].
  inversion H. intros s.
  destruct (String.eqb (origin_of q a) ""); discriminate.
Qed.

Lemma first_absent_set tbl k l l0 d Qs :
  get tbl k = Some (Short l0 d) ->
  first_absent (set tbl k (Full l)) Qs = first_absent tbl Qs.
Proof.
  intros G. unfold first_absent. apply find_pointwise. intros q.
  now rewrite (typeof_row_set _ _ _ _ _ _ G).
Qed.

Lemma SinglePass_loop_missing Qs Σs Q' acc σ s σ' :
  SinglePass.complete_δ_loop Qs Σs Q' acc σ = (inl (MissingState s), σ') ->
  first_absent (table σ) Q' = Some s.
Proof.
  revert acc σ. induction Q' as [|q rest IH]; intros acc σ H; [discriminate|].
  cbn [SinglePass.complete_δ_loop] in H. unfold first_absent. simpl.
  destruct (String.eqb (typeof_row typeof_entry (lookup_row (table σ) q))
              "undefined"); [inversion H; reflexivity|].
  destruct (negb (String.eqb
                    (typeof_row typeof_entry (lookup_row (table σ) q))
                    "object")); [discriminate|].
  assert (Hread : forall t,
            match SinglePass.check_full Qs q (row_property σ t) Σs true with
            | inl e => (inl e, σ)
            | inr sink_node =>
                SinglePass.complete_δ_loop Qs Σs rest
                  (if sink_node then acc ++ [q] else acc) σ
            end = (inl (MissingState s), σ') ->
            first_absent (table σ) rest = Some s).
  { intros t Ht.
    destruct (SinglePass.check_full Qs q (row_property σ t) Σs true)
      as [e|b] eqn:C.
    - inversion Ht; subst. exfalso.
      eapply SinglePass_check_full_error; eauto.
    - eapply IH, Ht. }
  destruct (lookup_row (table σ) q) as [[l|l d|ty]| | |] eqn:G;
    try (apply (Hread _ H)).
  apply lookup_row_Own_inv in G. unfold bind in H.
  destruct (complete_state_transitions Qs Σs l d σ) as [r1 σ1] eqn:C.
  destruct (complete_state_transitions_spec _ _ _ _ _ _ _ C)
    as [(-> & -> & _ & _)|(e & -> & -> & He)].
  - simpl in H. apply IH in H. simpl in H.
    now rewrite (first_absent_set _ _ _ _ _ _ G) in H.
  - inversion H; subst. discriminate.
Qed.

(** X14: when the single-pass variant fails with a missing-state error, the
    state it names is the first state q of Q, in the order of Q, for which
    δ[q] is [undefined]: the table has no entry for it, its own or
    inherited, or it has the entry [undefined]. *)
Theorem single_pass_missing_state Q' Σ' q0' F' lbl σ0 s σ :
  SinglePass.constructor Q' Σ' q0' F' lbl σ0 = (inl (MissingState s), σ) ->
  first_absent (table σ0) (Array_from_Set Q') = Some s.
Proof.
  unfold SinglePass.constructor, bind, lift, SinglePass.complete_δ.
  destruct (SinglePass.complete_δ_loop _ _ _ [] σ0) as [[e|sinks] σ1] eqn:L.
  - intros H. inversion H; subst. eapply SinglePass_loop_missing, L.
  - destruct (SinglePass_validate_state_spec (Array_from_Set Q') q0' "")
      as [[_ E]|[_ E]]; rewrite E; [|discriminate].
    destruct (mapM _ (Array_from_Set F')) as [e|Fs] eqn:HF; [|discriminate].
    intros H. inversion H; subst. exfalso.
    clear - HF. revert HF.
    induction (Array_from_Set F') as [|f Fs IH]; simpl; [discriminate|].
    destruct (SinglePass_validate_state_spec (Array_from_Set Q') f "")
      as [[_ E]|[_ E]]; rewrite E; simpl; [|discriminate].
    destruct (mapM _ Fs); simpl; [auto | discriminate].
Qed.

Lemma single_pass_missing_state_witness :
  first_absent (table A001_partial_store) (Array_from_Set (Q A001))
  = Some "e".
Proof.
  apply (single_pass_missing_state (Q A001) (Σ A001) "q0" (F A001) ""
           A001_partial_store "e" A001_partial_store).
  reflexivity.
Defined.

(** The states whose names are properties of [Object.prototype] have an
    entry in every table: from the empty table, the state [__proto__] is
    read (and passes, the alphabet being empty), and the error names the
    state [a]; the function at [constructor] is an invalid data type. *)
Example single_pass_inherited_entries :
  fst (SinglePass.constructor ["__proto__"; "a"] [] "a" [] "" inherited_store)
  = inl (MissingState "a") /\
  fst (SinglePass.constructor ["constructor"] ["0"] "constructor" [] ""
         inherited_store)
  = inl (InvalidDataType "constructor" "function") /\
  (exists A σ, SinglePass.constructor ["a"] [] "a" [] ""
                 (mkStore (fun _ => []) [("a", Prim "object")])
               = (inr A, σ)).
Proof. repeat split. eexists. eexists. reflexivity. Qed.

Lemma entry_ok_after_completion Qs Σs σ l d tbl e :
  In d Qs ->
  (forall v, In v (keys (heap σ l)) ->
     In v Σs /\ exists s, get (heap σ l) v = Some s /\ In s Qs) ->
  entry_ok Qs Σs σ e ->
  entry_ok Qs Σs
    (mkStore
       (heap_set (heap σ) l (fill_defaults Σs (keys (heap σ l)) d (heap σ l)))
       tbl) e.
Proof.
  intros Hd Hv He.
  pose proof (fill_defaults_keys_ok Qs Σs d (heap σ l) Hd Hv) as Hkeys.
  destruct e as [l'|l' d'|ty]; simpl in *; [| |exact He].
  - intros a Ha. unfold heap_set.
    destruct (Nat.eqb_spec l' l) as [->|Hne]; [|auto].
    destruct (He a Ha) as (n & Gn & Hn). exists n. split; [|exact Hn].
    now rewrite fill_defaults_keys_get, Gn.
  - destruct He as [Hd' Hv']. split; [exact Hd'|].
    unfold heap_set. destruct (Nat.eqb l' l); auto.
Qed.

Lemma SinglePass_check_full_ok Qs q rd Σ' b :
  (forall a, In a Σ' -> exists n, rd a = inr (Str n) /\ In n Qs) ->
  exists b', SinglePass.check_full Qs q rd Σ' b = inr b'.
Proof.
  revert b. induction Σ' as [|a Σ' IH]; simpl; intros b H; [eauto|].
  destruct (H a (or_introl eq_refl)) as (n & -> & Hn).
  cbn [bindR typeof String_of String.eqb Ascii.eqb Bool.eqb negb].
  destruct (SinglePass_validate_state_spec Qs n (origin_of q a))
    as [[_ E]|[Hn' _]]; [|contradiction].
  rewrite E. simpl. apply IH. auto.
Qed.

Lemma SinglePass_loop_reaches Qs Σs pre s post acc σ :
  NoDup pre ->
  (forall k, In k pre ->
     exists e, get (table σ) k = Some e /\ entry_ok Qs Σs σ e) ->
  typeof_row typeof_entry (lookup_row (table σ) s) = "undefined" ->
  exists σ',
    SinglePass.complete_δ_loop Qs Σs (pre ++ s :: post) acc σ
    = (inl (MissingState s), σ').
Proof.
  intros Hnd. revert acc σ.
  induction Hnd as [|k pre Hk Hnd IH]; intros acc σ Hpre Hs.
  - exists σ. cbn [app SinglePass.complete_δ_loop]. now rewrite Hs.
  - destruct (Hpre k (or_introl eq_refl)) as (e & G & He).
    cbn [app SinglePass.complete_δ_loop]. rewrite (lookup_row_Own _ _ _ G).
    destruct e as [l|l d|ty]; [| |destruct He];
      cbn [typeof_row typeof_entry String.eqb Ascii.eqb Bool.eqb negb].
    + destruct (SinglePass_check_full_ok Qs k
                  (row_property σ (Own (Full l))) Σs true) as [b ->].
      * intros a Ha. destruct (He a Ha) as (n & Gn & Hn). exists n.
        split; [|exact Hn]. unfold row_property.
        cbn [row_get entry_property]. apply property_Str in Gn.
        now rewrite Gn.
      * apply IH; [|exact Hs]. intros k' Hk'. apply Hpre. right. exact Hk'.
    + destruct He as [Hd Hv]. unfold bind.
      rewrite (complete_state_transitions_ok _ _ _ _ _ Hd Hv).
      apply IH; simpl.
      * intros k' Hk'.
        assert (Hne : k <> k') by (intros ->; contradiction).
        rewrite get_set_other by exact Hne.
        destruct (Hpre k' (or_intror Hk')) as (e' & G' & He').
        exists e'. split; [exact G'|].
        now apply entry_ok_after_completion.
      * now rewrite (typeof_row_set _ _ _ _ _ _ G).
Qed.

(** X15: in the single-pass variant nothing comes before the missing-state
    error of the first state q for which δ[q] is [undefined]: when the
    states before it in Q have well-formed entries, the construction fails
    with the error that names it, whatever the entries of the later states,
    the other keys of the table, [q0] and F are. *)
Theorem single_pass_reports_first_missing Q' Σ' q0' F' lbl σ0 pre s post :
  Array_from_Set Q' = pre ++ s :: post ->
  (forall k, In k pre ->
     exists e, get (table σ0) k = Some e /\
               entry_ok (Array_from_Set Q') (Array_from_Set Σ') σ0 e) ->
  typeof_row typeof_entry (lookup_row (table σ0) s) = "undefined" ->
  exists σ,
    SinglePass.constructor Q' Σ' q0' F' lbl σ0 = (inl (MissingState s), σ).
Proof.
  intros EQ Hpre Hs.
  assert (Hnd : NoDup pre).
  { pose proof (NoDup_Array_from_Set Q') as Hnd. rewrite EQ in Hnd.
    apply NoDup_app_remove_r in Hnd. exact Hnd. }
  unfold SinglePass.constructor, bind, SinglePass.complete_δ. rewrite EQ.
  destruct (SinglePass_loop_reaches (pre ++ s :: post) (Array_from_Set Σ')
              pre s post [] σ0 Hnd) as [σ ->]; [|exact Hs|eauto].
  rewrite <- EQ. exact Hpre.
Qed.

Lemma single_pass_reports_first_missing_witness :
  exists σ,
    SinglePass.constructor ["a"; "b"] ["0"] "q9" ["q8"] ""
      missing_first_store = (inl (MissingState "a"), σ).
Proof.
  apply (single_pass_reports_first_missing ["a"; "b"] ["0"] "q9" ["q8"] ""
           missing_first_store [] "a" ["b"]).
  - reflexivity.
  - intros k [].
  - reflexivity.
Defined.

(** * Properties of the first version *)

(** ** The warnings *)

Lemma Array_from_Set_length (l : list string) :
  length (Array_from_Set l) = length l <-> NoDup l.
Proof.
  split.
  - intros E. apply (NoDup_incl_NoDup (l := Array_from_Set l)).
    + apply NoDup_Array_from_Set.
    + rewrite E. apply le_n.
    + intros x. apply In_Array_from_Set.
  - intros H. now rewrite Array_from_Set_NoDup.
Qed.

Lemma warn_removed_In (l : list string) (msg x : string) :
  In x (V1.warn_removed (Array_from_Set l) l msg) <-> x = msg /\ ~ NoDup l.
Proof.
  unfold V1.warn_removed. rewrite <- Array_from_Set_length.
  destruct (Nat.eqb_spec (length (Array_from_Set l)) (length l)) as [E|E];
    simpl; intuition.
Qed.

(** X16: the constructor of the first version warns of removed duplicates
    exactly when there are duplicates: for Q and for Σ in every run, for F in
    the runs that get past the check of [q0]; the warnings are written also
    when the construction fails later. *)
Theorem warns_iff_duplicates Q' Σ' δ' q0' F' :
  let warnings := fst (V1.constructor Q' Σ' δ' q0' F') in
  (In "Removed duplicates from Q!" warnings <-> ~ NoDup Q') /\
  (In "Removed duplicates from Σ!" warnings <-> ~ NoDup Σ') /\
  (In "Removed duplicates from F!" warnings <->
     ~ NoDup F' /\ In q0' (Array_from_Set Q')).
Proof.
  assert (HQΣ : "Removed duplicates from Q!" <> "Removed duplicates from Σ!")
    by discriminate.
  assert (HQF : "Removed duplicates from Q!" <> "Removed duplicates from F!")
    by discriminate.
  assert (HΣF : "Removed duplicates from Σ!" <> "Removed duplicates from F!")
    by discriminate.
  assert (HΣQ : "Removed duplicates from Σ!" <> "Removed duplicates from Q!")
    by discriminate.
  assert (HFQ : "Removed duplicates from F!" <> "Removed duplicates from Q!")
    by discriminate.
  assert (HFΣ : "Removed duplicates from F!" <> "Removed duplicates from Σ!")
    by discriminate.
  unfold V1.constructor. cbv zeta.
  destruct (includes (Array_from_Set Q') q0') eqn:Eq0; simpl negb; cbv iota.
  - apply includes_In in Eq0.
    assert (E : forall x,
              In x (fst (match V1.state_loop (Array_from_Set Q')
                                 (Array_from_Set Σ') δ' (Array_from_Set Q') []
                         with
                         | inl e =>
                             (V1.warn_removed (Array_from_Set Q') Q'
                                "Removed duplicates from Q!" ++
                              V1.warn_removed (Array_from_Set Σ') Σ'
                                "Removed duplicates from Σ!" ++
                              V1.warn_removed (Array_from_Set F') F'
                                "Removed duplicates from F!",
                              inl e)
                         | inr sinks =>
                             (V1.warn_removed (Array_from_Set Q') Q'
                                "Removed duplicates from Q!" ++
                              V1.warn_removed (Array_from_Set Σ') Σ'
                                "Removed duplicates from Σ!" ++
                              V1.warn_removed (Array_from_Set F') F'
                                "Removed duplicates from F!",
                              inr (V1.mkDFSM (Array_from_Set Q')
                                     (Array_from_Set Σ') δ' q0'
                                     (Array_from_Set F') sinks))
                         end)) <->
              (x = "Removed duplicates from Q!" /\ ~ NoDup Q') \/
              (x = "Removed duplicates from Σ!" /\ ~ NoDup Σ') \/
              (x = "Removed duplicates from F!" /\ ~ NoDup F')).
    { intros x. destruct (V1.state_loop _ _ δ' _ []); simpl fst;
        now rewrite !in_app_iff, !warn_removed_In. }
    rewrite !E. intuition.
  - apply includes_not_In in Eq0. simpl fst.
    rewrite !in_app_iff, !warn_removed_In. intuition.
Qed.

(** ** The transitions the first version checks *)

Lemma V1_typeof_row (t : row transitions) :
  (t = Absent /\
   String.eqb (typeof_row V1.typeof_transitions t) "undefined" = true) \/
  (t <> Absent /\
   String.eqb (typeof_row V1.typeof_transitions t) "undefined" = false).
Proof.
  destruct t; cbn [typeof_row V1.typeof_transitions];
    [right | right | right | left]; split; congruence || reflexivity.
Qed.

Lemma row_state_Some t a n :
  row_state t a = Some n -> V1.row_property t a = Some (Str n).
Proof.
  unfold row_state.
  destruct (V1.row_property t a) as [[| |s| | |]|]; try discriminate.
  intros H. inversion H. reflexivity.
Qed.

Lemma lookup_Some δ' q a n :
  lookup δ' q a = Some n ->
  V1.row_property (lookup_row δ' q) a = Some (Str n).
Proof. apply row_state_Some. Qed.

Lemma V1_scan_step Qs q t a Σ' :
  (exists n,
     row_state t a = Some n /\
     V1.scan Qs q t (a :: Σ') =
       if negb (includes Qs n) then inl (V1.InvalidTransition q a n)
       else if negb (String.eqb n q) then inr false
       else V1.scan Qs q t Σ') \/
  (row_state t a = None /\ exists e, V1.scan Qs q t (a :: Σ') = inl e).
Proof.
  unfold row_state. cbn [V1.scan].
  destruct (V1.row_property t a) as [[| |n| | |]|];
    try (right; split; [reflexivity | eexists; reflexivity]).
  left. exists n. split; reflexivity.
Qed.

Lemma V1_scan_spec Qs q t Σ' :
  In q Qs ->
  (V1.scan Qs q t Σ' = inr true <->
   forall a, In a Σ' -> row_state t a = Some q) /\
  (V1.scan Qs q t Σ' = inr false <->
   exists pre a post n,
     Σ' = pre ++ a :: post /\
     (forall b, In b pre -> row_state t b = Some q) /\
     row_state t a = Some n /\ n <> q /\ In n Qs).
Proof.
  intros Hq. induction Σ' as [|a Σ' [IHt IHf]].
  - simpl. split.
    + split; [contradiction | reflexivity].
    + split; [discriminate|]. intros (pre & a & post & n & E & _).
      destruct pre; discriminate.
  - destruct (V1_scan_step Qs q t a Σ') as [(n & G & ->)|(G & e & ->)].
    + destruct (includes Qs n) eqn:En; cbn [negb].
      * apply includes_In in En.
        destruct (String.eqb_spec n q) as [->|Hne]; cbn [negb].
        -- split.
           ++ rewrite IHt.
              split; [intros H a' [<-|Ha']; auto | intros H a' Ha'].
              apply H. right. exact Ha'.
           ++ rewrite IHf. split.
              ** intros (pre & a' & post & n' & -> & Hpre & Ga & Hn & HnQ).
                 exists (a :: pre), a', post, n'. repeat split; auto.
                 intros b [<-|Hb]; auto.
              ** intros (pre & a' & post & n' & E & Hpre & Ga & Hn & HnQ).
                 destruct pre as [|x pre]; simpl in E; inversion E; subst.
                 --- congruence.
                 --- exists pre, a', post, n'. repeat split; auto.
                     intros b Hb. apply Hpre. right. exact Hb.
        -- split.
           ++ split; [discriminate|]. intros H.
              specialize (H a (or_introl eq_refl)). congruence.
           ++ split; [|reflexivity]. intros _.
              exists [], a, Σ', n. repeat split; auto. intros b [].
      * apply includes_not_In in En. split.
        -- split; [discriminate|]. intros H.
           specialize (H a (or_introl eq_refl)).
           assert (n = q) by congruence. subst. contradiction.
        -- split; [discriminate|].
           intros (pre & a' & post & n' & E & Hpre & Ga & Hn & HnQ).
           destruct pre as [|x pre]; simpl in E; inversion E; subst.
           ++ assert (n' = n) by congruence. subst. contradiction.
           ++ pose proof (Hpre _ (or_introl eq_refl)) as Hx.
              assert (n = q) by congruence. subst. contradiction.
    + split.
      * split; [discriminate|]. intros H.
        specialize (H a (or_introl eq_refl)). congruence.
      * split; [discriminate|].
        intros (pre & a' & post & n' & E & Hpre & Ga & Hn & HnQ).
        destruct pre as [|x pre]; simpl in E; inversion E; subst.
        -- congruence.
        -- pose proof (Hpre _ (or_introl eq_refl)) as Hx. congruence.
Qed.

Lemma V1_scan_checked Qs (δ' : V1.table) q Σs :
  In q Qs ->
  ((exists b, V1.scan Qs q (lookup_row δ' q) Σs = inr b) <->
   checked_up_to_exit Qs δ' q Σs).
Proof.
  intros Hq. destruct (V1_scan_spec Qs q (lookup_row δ' q) Σs Hq) as [Ht Hf].
  unfold checked_up_to_exit, lookup. rewrite <- Ht, <- Hf. split.
  - intros [[|] E]; auto.
  - intros [E|E]; eauto.
Qed.

Lemma V1_state_loop_ok Qs Σs δ' Q' acc :
  (forall q, In q Q' -> In q Qs) ->
  ((exists sinks, V1.state_loop Qs Σs δ' Q' acc = inr sinks) <->
   forall q, In q Q' -> has_row δ' q /\ checked_up_to_exit Qs δ' q Σs).
Proof.
  revert acc. induction Q' as [|q Q' IH]; intros acc HQ.
  - simpl. split; [intros _ q [] | eauto].
  - assert (HqQ : In q Qs) by (apply HQ; left; reflexivity).
    assert (HQ' : forall q', In q' Q' -> In q' Qs)
      by (intros q' Hq'; apply HQ; right; exact Hq').
    cbn [V1.state_loop]. cbv zeta.
    destruct (V1_typeof_row (lookup_row δ' q)) as [[E T]|[E T]]; rewrite T.
    + split; [intros [s H]; discriminate|]. intros H.
      destruct (H q (or_introl eq_refl)) as [Hr _]. contradiction.
    + pose proof (V1_scan_checked Qs δ' q Σs HqQ) as Hc.
      destruct (V1.scan Qs q (lookup_row δ' q) Σs) as [e|b] eqn:S.
      * split; [intros [s H]; discriminate|]. intros H.
        destruct (H q (or_introl eq_refl)) as [_ Hck].
        apply Hc in Hck as [b H']. discriminate.
      * rewrite (IH _ HQ'). split.
        -- intros H q' [<-|Hq']; [|auto]. split; [exact E|].
           apply Hc. eauto.
        -- intros H q' Hq'. apply H. right. exact Hq'.
Qed.

(** X17: the first version accepts a table exactly when [q0] is in Q and
    for every state [q] of Q the read [δ[q]] finds an entry, the table's own
    or one that it inherits from [Object.prototype], whose transitions are
    strings of Q up to the first one that leaves the state; the transitions
    after it are never looked at, and the accept states and the other keys
    of the table are not checked. *)
Theorem first_version_accepts_iff Q' Σ' δ' q0' F' :
  (exists A, snd (V1.constructor Q' Σ' δ' q0' F') = inr A) <->
  In q0' (Array_from_Set Q') /\
  forall q, In q (Array_from_Set Q') ->
    has_row δ' q /\
    checked_up_to_exit (Array_from_Set Q') δ' q (Array_from_Set Σ').
Proof.
  unfold V1.constructor. cbv zeta.
  destruct (includes (Array_from_Set Q') q0') eqn:Eq0; simpl negb; cbv iota.
  - apply includes_In in Eq0.
    rewrite <- (V1_state_loop_ok _ _ δ' _ [] (fun q H => H)).
    destruct (V1.state_loop _ _ δ' _ []) as [e|sinks]; simpl.
    + split; [intros [A E]; discriminate|].
      intros [_ [s E]]. discriminate.
    + split; eauto.
  - apply includes_not_In in Eq0. simpl.
    split; [intros [A E]; discriminate | tauto].
Qed.

Example first_version_accepts_unchecked :
  exists A,
    snd (V1.constructor ["a"; "b"] ["0"; "1"] unchecked_table "a" ["b"])
      = inr A /\
    lookup (V1.δ A) "a" "1" = None /\
    V1.compute A "1" = inr (V1.mkOutcome Undefined false) /\
    V1.compute A "10" = inl V1.TypeError.
Proof. eexists. split; [reflexivity|]. repeat split. Qed.

(** A state named as a method of [Object.prototype] has an entry in every
    table: with no symbol to read, the empty table is accepted, and the
    state is a sink node. *)
Example first_version_inherited_entry :
  has_row [] "toString" /\
  snd (V1.constructor ["toString"] [] [] "toString" [])
  = inr (V1.mkDFSM ["toString"] [] [] "toString" [] ["toString"]) /\
  snd (V1.constructor ["a"] [] [] "a" []) = inl (V1.MissingState "a").
Proof. split; [discriminate|]. split; reflexivity. Qed.

(** ** The sink nodes of the first version *)

Lemma loops_spec δ' Σs q :
  loops δ' Σs q = true <-> forall a, In a Σs -> lookup δ' q a = Some q.
Proof.
  unfold loops. rewrite forallb_forall.
  split; intros H a Ha; specialize (H a Ha).
  - destruct (lookup δ' q a) as [n|]; [|discriminate].
    apply String.eqb_eq in H. now subst.
  - rewrite H. apply String.eqb_refl.
Qed.

Lemma V1_state_loop_filter Qs Σs δ' Q' acc sinks :
  (forall q, In q Q' -> In q Qs) ->
  V1.state_loop Qs Σs δ' Q' acc = inr sinks ->
  sinks = acc ++ filter (loops δ' Σs) Q'.
Proof.
  revert acc. induction Q' as [|q Q' IH]; intros acc HQ H.
  - simpl in H. inversion H. simpl. now rewrite app_nil_r.
  - cbn [V1.state_loop] in H. cbv zeta in H.
    destruct (String.eqb _ "undefined"); [discriminate|].
    destruct (V1.scan Qs q (lookup_row δ' q) Σs) as [e|b] eqn:S;
      [discriminate|].
    assert (Eb : loops δ' Σs q = b).
    { destruct (V1_scan_spec Qs q (lookup_row δ' q) Σs
                  (HQ q (or_introl eq_refl))) as [Ht Hf].
      pose proof (loops_spec δ' Σs q) as Hl. unfold lookup in Hl.
      destruct b.
      - apply (proj2 Hl), (proj1 Ht), S.
      - apply not_true_is_false. intros L.
        pose proof (proj2 Ht (proj1 Hl L)) as S'. congruence. }
    cbn [filter]. rewrite Eb. apply IH in H.
    + rewrite H. destruct b; [now rewrite <- app_assoc | reflexivity].
    + intros q' Hq'. apply HQ. right. exact Hq'.
Qed.

(** X18: the sink nodes of an automaton the first version constructs are the
    states of Q all of whose transitions loop, in the order of Q: leaving a
    state at its first transition to another state loses no sink node. *)
Theorem first_version_sink_nodes Q' Σ' δ' q0' F' A :
  snd (V1.constructor Q' Σ' δ' q0' F') = inr A ->
  V1.sink_nodes A = filter (loops (V1.δ A) (V1.Σ A)) (V1.Q A).
Proof.
  unfold V1.constructor. cbv zeta.
  destruct (includes (Array_from_Set Q') q0'); simpl negb; cbv iota;
    [|discriminate].
  destruct (V1.state_loop _ _ δ' _ []) as [e|sinks] eqn:L; simpl;
    [discriminate|].
  intros H. inversion H; subst. simpl.
  apply (V1_state_loop_filter _ _ _ _ [] _ (fun q H => H) L).
Qed.

Lemma first_version_sink_nodes_witness :
  V1.sink_nodes
    (V1.mkDFSM ["a"; "b"] ["0"; "1"] unchecked_table "a" ["b"] ["b"])
  = filter (loops unchecked_table ["0"; "1"]) ["a"; "b"].
Proof.
  apply (first_version_sink_nodes ["a"; "b"] ["0"; "1"] unchecked_table "a"
           ["b"]).
  reflexivity.
Defined.

Lemma first_version_accepts_iff_witness :
  In "q0" (Array_from_Set ["q0"; "q1"; "q2"; "q3"]) /\
  forall q, In q (Array_from_Set ["q0"; "q1"; "q2"; "q3"]) ->
    has_row A000_table q /\
    checked_up_to_exit (Array_from_Set ["q0"; "q1"; "q2"; "q3"]) A000_table q
      (Array_from_Set ["0"; "1"]).
Proof.
  apply (proj1 (first_version_accepts_iff ["q0"; "q1"; "q2"; "q3"]
                  ["0"; "1"] A000_table "q0" ["q2"])).
  eexists. reflexivity.
Defined.

(** ** Running the first version *)

Lemma V1_belongsToΣ_spec Σs c :
  (In c Σs /\ V1.belongsToΣ Σs c = inr tt) \/
  (~ In c Σs /\ V1.belongsToΣ Σs c = inl (V1.NotInAlphabet c)).
Proof.
  induction Σs as [|a Σs IH]; simpl.
  - right. auto.
  - destruct (String.eqb_spec a c) as [->|Hne]; [left; auto|].
    destruct IH as [[H1 H2]|[H1 H2]]; [left | right]; split; auto.
    intros [H|H]; auto.
Qed.

Lemma V1_stringBelongsToΣ_loop_ok Σs chars o :
  (forall c, In c chars -> In c Σs) ->
  V1.stringBelongsToΣ_loop Σs chars o = inr (o ++ chars).
Proof.
  revert o. induction chars as [|y rest IH]; simpl; intros o H.
  - now rewrite app_nil_r.
  - destruct (V1_belongsToΣ_spec Σs y) as [[_ E]|[Hn _]].
    + rewrite E, IH by auto. now rewrite <- app_assoc.
    + exfalso. auto.
Qed.

Section RunValue.

Variables (δ' : V1.table) (Qs : list state) (Σs : list symbol)
          (sinks : list state).

Hypothesis closed :
  forall q a, In q Qs -> In a Σs ->
              exists n, lookup δ' q a = Some n /\ In n Qs.

Hypothesis sinks_loop :
  forall q, In q sinks -> forall a, In a Σs -> lookup δ' q a = Some q.

Lemma fold_lookup_sink parsed q :
  In q sinks -> (forall c, In c parsed -> In c Σs) ->
  fold_lookup δ' parsed q = Some q.
Proof.
  intros Hq. induction parsed as [|a rest IH]; simpl; intros Hin;
    [reflexivity|].
  rewrite (sinks_loop q Hq a) by auto. auto.
Qed.

Lemma V1_compute_loop_fold parsed q :
  In q Qs -> (forall c, In c parsed -> In c Σs) ->
  exists q', V1.compute_loop δ' sinks parsed (Str q) = inr (Str q') /\
             In q' Qs /\ fold_lookup δ' parsed q = Some q'.
Proof.
  revert q. induction parsed as [|a rest IH]; intros q Hq Hin.
  - simpl. eauto.
  - cbn [V1.compute_loop includes_value String_of fold_lookup].
    destruct (includes sinks q) eqn:Es.
    + apply includes_In in Es. exists q. repeat split; auto.
      change (fold_lookup δ' (a :: rest) q = Some q).
      apply fold_lookup_sink; auto.
    + destruct (closed q a Hq) as (n & Hn & HnQ);
        [apply Hin; left; reflexivity|].
      rewrite Hn, (lookup_Some _ _ _ _ Hn).
      apply IH; [exact HnQ|]. intros c Hc. apply Hin. right. exact Hc.
Qed.

Lemma V2_read_loop_fold parsed q :
  In q Qs -> (forall c, In c parsed -> In c Σs) ->
  exists q', V2.read_loop δ' sinks parsed (Str q) = inr (Str q') /\
             In q' Qs /\ fold_lookup δ' parsed q = Some q'.
Proof.
  revert q. induction parsed as [|a rest IH]; intros q Hq Hin.
  - simpl. eauto.
  - cbn [V2.read_loop includes_value String_of fold_lookup].
    destruct (includes sinks q) eqn:Es.
    + apply includes_In in Es. exists q. repeat split; auto.
      change (fold_lookup δ' (a :: rest) q = Some q).
      apply fold_lookup_sink; auto.
    + destruct (closed q a Hq) as (n & Hn & HnQ);
        [apply Hin; left; reflexivity|].
      rewrite Hn, (lookup_Some _ _ _ _ Hn).
      apply IH; [exact HnQ|]. intros c Hc. apply Hin. right. exact Hc.
Qed.

End RunValue.

Lemma V1_constructor_inv Q' Σ' δ' q0' F' A :
  snd (V1.constructor Q' Σ' δ' q0' F') = inr A ->
  In q0' (Array_from_Set Q') /\
  exists sinks,
    V1.state_loop (Array_from_Set Q') (Array_from_Set Σ') δ'
      (Array_from_Set Q') [] = inr sinks /\
    A = V1.mkDFSM (Array_from_Set Q') (Array_from_Set Σ') δ' q0'
          (Array_from_Set F') sinks.
Proof.
  unfold V1.constructor. cbv zeta.
  destruct (includes (Array_from_Set Q') q0') eqn:Eq0; simpl negb; cbv iota;
    [|discriminate].
  apply includes_In in Eq0.
  destruct (V1.state_loop _ _ δ' _ []) as [e|sinks]; simpl; [discriminate|].
  intros H. inversion H. eauto.
Qed.

(** X19: on an automaton the first version has constructed from a table
    that is total over Q x Σ with targets in Q, [compute] returns, for every
    input over Σ, the state of Q the plain fold of δ reaches and whether it
    is an accept state.  (The constructor does not establish that the table
    is total; it is a hypothesis.) *)
Theorem first_version_compute Q' Σ' δ' q0' F' A input :
  snd (V1.constructor Q' Σ' δ' q0' F') = inr A ->
  (forall q a, In q (V1.Q A) -> In a (V1.Σ A) ->
     exists n, lookup (V1.δ A) q a = Some n /\ In n (V1.Q A)) ->
  (forall c, In c (split input) -> In c (V1.Σ A)) ->
  exists q,
    V1.compute A input = inr (V1.mkOutcome (Str q) (includes (V1.F A) q)) /\
    In q (V1.Q A) /\
    fold_lookup (V1.δ A) (split input) (V1.q0 A) = Some q.
Proof.
  intros H Hcl Hin.
  apply V1_constructor_inv in H as (Hq0 & sinks & Hloop & ->).
  cbn [V1.Q V1.Σ V1.δ V1.q0 V1.F] in *.
  apply V1_state_loop_filter in Hloop; [|auto]. simpl in Hloop.
  unfold V1.compute, V1.stringBelongsToΣ.
  cbn [V1.Q V1.Σ V1.δ V1.q0 V1.F V1.sink_nodes].
  rewrite V1_stringBelongsToΣ_loop_ok by exact Hin. simpl app.
  destruct (V1_compute_loop_fold δ' (Array_from_Set Q') (Array_from_Set Σ')
              sinks Hcl) with (parsed := split input) (q := q0')
    as (q & -> & Hq & Hf); auto.
  - intros s Hs. rewrite Hloop in Hs. apply filter_In in Hs as [_ Hs].
    now apply loops_spec.
  - exists q. auto.
Qed.

Lemma A000_table_closed :
  forall q a, In q ["q0"; "q1"; "q2"; "q3"] -> In a ["0"; "1"] ->
    exists n, lookup A000_table q a = Some n /\
              In n ["q0"; "q1"; "q2"; "q3"].
Proof.
  intros q a Hq Ha. simpl in Hq, Ha.
  repeat (destruct Hq as [<-|Hq]);
    try (repeat (destruct Ha as [<-|Ha]);
         try (eexists; split; [reflexivity | simpl; tauto]);
         destruct Ha).
  destruct Hq.
Qed.

Lemma first_version_compute_witness :
  exists q,
    V1.compute
      (V1.mkDFSM ["q0"; "q1"; "q2"; "q3"] ["0"; "1"] A000_table "q0" ["q2"] [])
      "001" = inr (V1.mkOutcome (Str q) (includes ["q2"] q)) /\
    In q ["q0"; "q1"; "q2"; "q3"] /\
    fold_lookup A000_table (split "001") "q0" = Some q.
Proof.
  apply (first_version_compute ["q0"; "q1"; "q2"; "q3"] ["0"; "1"]
           A000_table "q0" ["q2"]).
  - reflexivity.
  - exact A000_table_closed.
  - simpl. intros c [<-|[<-|[<-|[]]]]; tauto.
Defined.

(** * Properties of the second version *)

Lemma V2_check_transitions_step Qs q t a Σ' b :
  (exists n,
     row_state t a = Some n /\
     V2.check_transitions Qs q t (a :: Σ') b =
       if negb (includes Qs n) then inl (V2.AmbiguousTransition q a n)
       else V2.check_transitions Qs q t Σ'
              (if negb (String.eqb n q) then false else b)) \/
  (row_state t a = None /\
   exists e, V2.check_transitions Qs q t (a :: Σ') b = inl e).
Proof.
  unfold row_state. cbn [V2.check_transitions].
  destruct (V1.row_property t a) as [[| |n| | |]|];
    try (right; split; [reflexivity | eexists; reflexivity]).
  left. exists n. split; reflexivity.
Qed.

Lemma V2_check_transitions_spec Qs q t Σ' b :
  ((exists b', V2.check_transitions Qs q t Σ' b = inr b') <->
   forall a, In a Σ' -> exists n, row_state t a = Some n /\ In n Qs) /\
  (forall b', V2.check_transitions Qs q t Σ' b = inr b' ->
     (b' = true <->
      b = true /\ forall a, In a Σ' -> row_state t a = Some q)).
Proof.
  revert b. induction Σ' as [|a Σ' IH]; intros b.
  - simpl. split.
    + split; [intros _ a [] | eauto].
    + intros b' H. inversion H.
      split; [intros ->; split; [reflexivity | contradiction] | tauto].
  - destruct (V2_check_transitions_step Qs q t a Σ' b)
      as [(n & G & ->)|(G & e & ->)].
    + destruct (includes Qs n) eqn:En; cbn [negb].
      * apply includes_In in En.
        destruct (IH (if negb (String.eqb n q) then false else b))
          as [IH1 IH2].
        split.
        -- rewrite IH1. split.
           ++ intros H a' [<-|Ha']; eauto.
           ++ intros H a' Ha'. apply H. right. exact Ha'.
        -- intros b' H. rewrite (IH2 b' H).
           destruct (String.eqb_spec n q) as [->|Hne]; simpl.
           ++ split; intros [Hb Hall]; (split; [exact Hb|]).
              ** intros a' [<-|Ha']; auto.
              ** intros a' Ha'. apply Hall. right. exact Ha'.
           ++ split; [intros [Hb _]; discriminate|].
              intros [_ Hall]. specialize (Hall a (or_introl eq_refl)).
              congruence.
      * apply includes_not_In in En. split.
        -- split; [intros [b' E]; discriminate|]. intros H.
           destruct (H a (or_introl eq_refl)) as (n' & Gn & Hn).
           assert (n' = n) by congruence. subst. contradiction.
        -- intros b' H. discriminate.
    + split.
      * split; [intros [b' E]; discriminate|]. intros H.
        destruct (H a (or_introl eq_refl)) as (n' & Gn & _). congruence.
      * intros b' H. discriminate.
Qed.

Lemma V2_check_states_filter Qs Σs δ' Q' acc sinks :
  V2.check_states Qs Σs δ' Q' acc = inr sinks ->
  sinks = acc ++ filter (loops δ' Σs) Q' /\
  forall q, In q Q' ->
    has_row δ' q /\
    forall a, In a Σs -> exists n, lookup δ' q a = Some n /\ In n Qs.
Proof.
  revert acc. induction Q' as [|q Q' IH]; intros acc H.
  - simpl in H. inversion H. simpl. rewrite app_nil_r.
    split; [reflexivity | contradiction].
  - cbn [V2.check_states] in H. cbv zeta in H.
    destruct (V1_typeof_row (lookup_row δ' q)) as [[E T]|[E T]];
      rewrite T in H; [discriminate|].
    destruct (V2.check_transitions Qs q (lookup_row δ' q) Σs true)
      as [e|b] eqn:C; [discriminate|].
    destruct (V2_check_transitions_spec Qs q (lookup_row δ' q) Σs true)
      as [Htot Hsink].
    assert (Eb : loops δ' Σs q = b).
    { assert (Hl : loops δ' Σs q = true <-> b = true).
      { rewrite loops_spec, (Hsink b C). unfold lookup. tauto. }
      destruct b; [now apply Hl|].
      apply not_true_is_false. intros L. apply Hl in L. discriminate. }
    apply IH in H as [-> Hall]. cbn [filter]. rewrite Eb. split.
    + destruct b; [now rewrite <- app_assoc | reflexivity].
    + intros q' [<-|Hq']; [|auto]. split; [exact E|].
      apply Htot. eauto.
Qed.

Lemma V2_check_states_ok Qs Σs (δ' : V1.table) Q' acc :
  (forall q, In q Q' ->
     has_row δ' q /\
     forall a, In a Σs -> exists n, lookup δ' q a = Some n /\ In n Qs) ->
  exists sinks, V2.check_states Qs Σs δ' Q' acc = inr sinks.
Proof.
  revert acc. induction Q' as [|q Q' IH]; intros acc H; [simpl; eauto|].
  destruct (H q (or_introl eq_refl)) as [Hr Htot].
  destruct (proj2 (proj1 (V2_check_transitions_spec Qs q (lookup_row δ' q)
                            Σs true)) Htot) as [b Hb].
  destruct (IH (if b then acc ++ [q] else acc)) as [sinks Hs].
  { intros q' Hq'. apply H. right. exact Hq'. }
  exists sinks. cbn [V2.check_states]. cbv zeta.
  destruct (V1_typeof_row (lookup_row δ' q)) as [[E T]|[E T]];
    [contradiction|].
  now rewrite T, Hb.
Qed.

Lemma V2_constructor_inv Q' Σ' δ' q0' F' d A :
  snd (V2.constructor Q' Σ' δ' q0' F' d) = inr A ->
  In q0' (Array_from_Set Q') /\
  exists sinks,
    V2.check_states (Array_from_Set Q') (Array_from_Set Σ') δ'
      (Array_from_Set Q') [] = inr sinks /\
    A = V2.mkDFSM (Array_from_Set Q') (Array_from_Set Σ') δ' q0'
          (Array_from_Set F') sinks d.
Proof.
  unfold V2.constructor. cbv zeta.
  destruct (includes (Array_from_Set Q') q0') eqn:Eq0; simpl negb; cbv iota;
    [|discriminate].
  apply includes_In in Eq0.
  destruct (V2.check_states _ _ δ' _ []) as [e|sinks]; simpl; [discriminate|].
  intros H. inversion H. eauto.
Qed.

(** X20: the second version accepts a table exactly when [q0] is in Q and
    for every state [q] of Q the read [δ[q]] finds an entry, the table's own
    or one that it inherits from [Object.prototype], of which every
    transition over Σ is a string of Q; the accept states are not checked
    against Q, and the keys of the table that are not states are not looked
    at. *)
Theorem second_version_accepts_iff Q' Σ' δ' q0' F' d :
  (exists A, snd (V2.constructor Q' Σ' δ' q0' F' d) = inr A) <->
  In q0' (Array_from_Set Q') /\
  forall q, In q (Array_from_Set Q') ->
    has_row δ' q /\
    forall a, In a (Array_from_Set Σ') ->
      exists n, lookup δ' q a = Some n /\ In n (Array_from_Set Q').
Proof.
  split.
  - intros [A H]. apply V2_constructor_inv in H as (Hq0 & sinks & Hc & _).
    split; [exact Hq0|]. eapply V2_check_states_filter, Hc.
  - intros [Hq0 Hall].
    destruct (V2_check_states_ok (Array_from_Set Q') (Array_from_Set Σ') δ'
                (Array_from_Set Q') [] Hall) as [sinks Hc].
    unfold V2.constructor. cbv zeta.
    apply includes_In in Hq0. rewrite Hq0. simpl negb. cbv iota.
    rewrite Hc. simpl. eauto.
Qed.

Lemma second_version_accepts_iff_witness :
  In "q0" (Array_from_Set ["q0"; "q1"; "q2"; "q3"]) /\
  forall q, In q (Array_from_Set ["q0"; "q1"; "q2"; "q3"]) ->
    has_row A000_table q /\
    forall a, In a (Array_from_Set ["0"; "1"]) ->
      exists n, lookup A000_table q a = Some n /\
                In n (Array_from_Set ["q0"; "q1"; "q2"; "q3"]).
Proof.
  apply (proj1 (second_version_accepts_iff ["q0"; "q1"; "q2"; "q3"]
                  ["0"; "1"] A000_table "q0" ["q2"] "")).
  eexists. reflexivity.
Defined.

(** The entries a table inherits in the second version: the empty table is
    accepted for a state named as a method of [Object.prototype]; the name
    of that method is the one string that such an entry holds, at the symbol
    [name]; a state with no entry at all is reported. *)
Example second_version_inherited_entry :
  snd (V2.constructor ["toString"] [] [] "toString" [] "")
  = inr (V2.mkDFSM ["toString"] [] [] "toString" [] ["toString"] "") /\
  lookup [] "toString" "name" = Some "toString" /\
  snd (V2.constructor ["toString"] ["name"] [] "toString" [] "")
  = inr (V2.mkDFSM ["toString"] ["name"] [] "toString" [] ["toString"] "") /\
  snd (V2.constructor ["toString"] ["0"] [] "toString" [] "")
  = inl (V2.MissingTransition "toString" "0") /\
  snd (V2.constructor ["a"] [] [] "a" [] "") = inl (V2.MissingState "a").
Proof. repeat split. Qed.

Lemma V2_validate_char_spec Σs c :
  (In c Σs /\ V2.validate_char Σs c = inr tt) \/
  (~ In c Σs /\ V2.validate_char Σs c = inl (V2.NotInAlphabet c)).
Proof.
  induction Σs as [|a Σs IH]; simpl.
  - right. auto.
  - destruct (String.eqb_spec a c) as [->|Hne]; [left; auto|].
    destruct IH as [[H1 H2]|[H1 H2]]; [left | right]; split; auto.
    intros [H|H]; auto.
Qed.

Lemma V2_validate_input_loop_ok Σs chars o :
  (forall c, In c chars -> In c Σs) ->
  V2.validate_input_loop Σs chars o = inr (o ++ chars).
Proof.
  revert o. induction chars as [|y rest IH]; simpl; intros o H.
  - now rewrite app_nil_r.
  - destruct (V2_validate_char_spec Σs y) as [[_ E]|[Hn _]].
    + rewrite E, IH by auto. now rewrite <- app_assoc.
    + exfalso. auto.
Qed.

(** X21: for an automaton the second version has constructed, the sink
    nodes are the states of Q all of whose transitions loop, in the order of
    Q, and on every input over Σ [read] returns the state of Q that the
    plain fold of δ reaches, [test] telling whether it is an accept
    state. *)
Theorem second_version_read Q' Σ' δ' q0' F' d A input :
  snd (V2.constructor Q' Σ' δ' q0' F' d) = inr A ->
  (forall c, In c (split input) -> In c (V2.Σ A)) ->
  V2.sink_nodes A = filter (loops (V2.δ A) (V2.Σ A)) (V2.Q A) /\
  exists q,
    V2.read A input = inr (Str q) /\ In q (V2.Q A) /\
    fold_lookup (V2.δ A) (split input) (V2.q0 A) = Some q /\
    V2.test A input = includes (V2.F A) q.
Proof.
  intros H Hin.
  apply V2_constructor_inv in H as (Hq0 & sinks & Hc & ->).
  cbn [V2.Q V2.Σ V2.δ V2.q0 V2.F V2.sink_nodes] in *.
  apply V2_check_states_filter in Hc as [Hs Hall]. simpl in Hs.
  split; [exact Hs|].
  assert (Hcl : forall q a, In q (Array_from_Set Q') ->
                  In a (Array_from_Set Σ') ->
                  exists n, lookup δ' q a = Some n /\
                            In n (Array_from_Set Q')).
  { intros q a Hq Ha. destruct (Hall q Hq) as [_ Htot]. auto. }
  destruct (V2_read_loop_fold δ' (Array_from_Set Q') (Array_from_Set Σ')
              sinks Hcl) with (parsed := split input) (q := q0')
    as (q & Hr & Hq & Hf); auto.
  { intros s Hin'. rewrite Hs in Hin'. apply filter_In in Hin' as [_ Hin'].
    now apply loops_spec. }
  assert (Er : V2.read (V2.mkDFSM (Array_from_Set Q') (Array_from_Set Σ') δ'
                          q0' (Array_from_Set F') sinks d) input
               = inr (Str q)).
  { unfold V2.read, V2.validate_input.
    cbn [V2.Q V2.Σ V2.δ V2.q0 V2.F V2.sink_nodes].
    now rewrite V2_validate_input_loop_ok by exact Hin. }
  exists q. repeat split; auto.
  unfold V2.test. rewrite Er. reflexivity.
Qed.

Lemma second_version_read_witness :
  V2.sink_nodes
    (V2.mkDFSM ["q0"; "q1"; "q2"; "q3"] ["0"; "1"] A000_table "q0" ["q2"] []
       "")
  = filter (loops A000_table ["0"; "1"]) ["q0"; "q1"; "q2"; "q3"] /\
  exists q,
    V2.read
      (V2.mkDFSM ["q0"; "q1"; "q2"; "q3"] ["0"; "1"] A000_table "q0" ["q2"]
         [] "") "001" = inr (Str q) /\
    In q ["q0"; "q1"; "q2"; "q3"] /\
    fold_lookup A000_table (split "001") "q0" = Some q /\
    V2.test
      (V2.mkDFSM ["q0"; "q1"; "q2"; "q3"] ["0"; "1"] A000_table "q0" ["q2"]
         [] "") "001" = includes ["q2"] q.
Proof.
  apply (second_version_read ["q0"; "q1"; "q2"; "q3"] ["0"; "1"]
           A000_table "q0" ["q2"] "").
  - reflexivity.
  - simpl. intros c [<-|[<-|[<-|[]]]]; tauto.
Defined.

(** ** From the first version to the second *)

Lemma total_checked_up_to_exit Qs (δ' : V1.table) q Σs :
  (forall a, In a Σs -> exists n, lookup δ' q a = Some n /\ In n Qs) ->
  checked_up_to_exit Qs δ' q Σs.
Proof.
  unfold checked_up_to_exit. induction Σs as [|a Σs IH]; intros Htot.
  - left. intros a [].
  - destruct (Htot a (or_introl eq_refl)) as (n & Hn & HnQ).
    destruct (String.eqb_spec n q) as [->|Hne].
    + destruct IH as [Hl|(pre & a' & post & n' & -> & Hpre & Ga & Hn' & HQ)].
      * intros a' Ha'. apply Htot. right. exact Ha'.
      * left. intros a' [<-|Ha']; auto.
      * right. exists (a :: pre), a', post, n'. repeat split; auto.
        intros b [<-|Hb]; auto.
    + right. exists [], a, Σs, n. repeat split; auto. intros b [].
Qed.

(** X22: the first version accepts whatever the second accepts, with the
    same warnings and the same Q, Σ, δ, q0, F and sink nodes: the second
    version only adds the check of the transitions that follow the first
    one leaving a state. *)
Theorem second_accepts_first_accepts Q' Σ' δ' q0' F' d A :
  snd (V2.constructor Q' Σ' δ' q0' F' d) = inr A ->
  V1.constructor Q' Σ' δ' q0' F'
  = (fst (V2.constructor Q' Σ' δ' q0' F' d),
     inr (V1.mkDFSM (V2.Q A) (V2.Σ A) (V2.δ A) (V2.q0 A) (V2.F A)
            (V2.sink_nodes A))).
Proof.
  intros H.
  pose proof (V2_constructor_inv _ _ _ _ _ _ _ H) as (Hq0 & sinks & Hc & ->).
  cbn [V2.Q V2.Σ V2.δ V2.q0 V2.F V2.sink_nodes].
  apply V2_check_states_filter in Hc as [Hs Hall]. simpl in Hs.
  assert (H1 : exists sinks1,
            V1.state_loop (Array_from_Set Q') (Array_from_Set Σ') δ'
              (Array_from_Set Q') [] = inr sinks1).
  { apply V1_state_loop_ok; [auto|]. intros q Hq.
    destruct (Hall q Hq) as [Hr Htot]. split; [exact Hr|].
    apply total_checked_up_to_exit, Htot. }
  destruct H1 as [sinks1 H1].
  pose proof (V1_state_loop_filter _ _ _ _ [] _ (fun q H => H) H1) as Hs1.
  simpl in Hs1.
  unfold V1.constructor, V2.constructor in *. cbv zeta in *.
  apply includes_In in Hq0. rewrite Hq0 in *. simpl negb in *. cbv iota in *.
  rewrite H1.
  destruct (V2.check_states _ _ δ' _ []); simpl; congruence.
Qed.

Lemma second_accepts_first_accepts_witness :
  V1.constructor ["q0"; "q1"; "q2"; "q3"; "q0"] ["0"; "1"] A000_table "q0"
    ["q2"]
  = (fst (V2.constructor ["q0"; "q1"; "q2"; "q3"; "q0"] ["0"; "1"]
            A000_table "q0" ["q2"] ""),
     inr (V1.mkDFSM ["q0"; "q1"; "q2"; "q3"] ["0"; "1"] A000_table "q0"
            ["q2"] [])).
Proof.
  apply (second_accepts_first_accepts ["q0"; "q1"; "q2"; "q3"; "q0"]
           ["0"; "1"] A000_table "q0" ["q2"] ""
           (V2.mkDFSM ["q0"; "q1"; "q2"; "q3"] ["0"; "1"] A000_table "q0"
              ["q2"] [] "")).
  reflexivity.
Defined.

Lemma validation_loops_agree Σs chars o :
  match V1.stringBelongsToΣ_loop Σs chars o,
        V2.validate_input_loop Σs chars o with
  | inr p1, inr p2 => p1 = p2
  | inl (V1.NotInAlphabet x), inl (V2.NotInAlphabet y) => x = y
  | _, _ => False
  end.
Proof.
  revert o. induction chars as [|y rest IH]; simpl; intros o; [reflexivity|].
  destruct (V1_belongsToΣ_spec Σs y) as [[Hy E1]|[Hy E1]];
    destruct (V2_validate_char_spec Σs y) as [[Hy' E2]|[Hy' E2]];
    try contradiction; rewrite E1, E2; [apply IH | reflexivity].
Qed.

Lemma run_loops_agree (δ' : V1.table) sinks parsed c :
  match V1.compute_loop δ' sinks parsed c, V2.read_loop δ' sinks parsed c with
  | inr s1, inr s2 => s1 = s2
  | inl V1.TypeError, inl V2.TypeError => True
  | _, _ => False
  end.
Proof.
  revert c. induction parsed as [|a rest IH]; intros c;
    cbn [V1.compute_loop V2.read_loop]; [reflexivity|].
  destruct (includes_value sinks c); [reflexivity|].
  destruct (V1.row_property (lookup_row δ' (String_of c)) a);
    [apply IH | exact I].
Qed.

(** X23: [read] and [test] of the second version are [compute] of the first
    version in two methods: on the same automaton and the same input,
    [compute] returns the state [read] returns and the answer of [test], and
    it throws where [read] throws, [test] being false there. *)
Theorem compute_is_read_and_test (A : V2.DFSM) (input : string) :
  same_outcome (V1.compute (without_description A) input)
    (V2.read A input) (V2.test A input).
Proof.
  unfold V1.compute, V2.test, V2.read, V1.stringBelongsToΣ, V2.validate_input,
    without_description.
  cbn [V1.Q V1.Σ V1.δ V1.q0 V1.F V1.sink_nodes].
  pose proof (validation_loops_agree (V2.Σ A) (split input) []) as Hv.
  destruct (V1.stringBelongsToΣ_loop (V2.Σ A) (split input) [])
    as [[| | | |x|]|p1];
    destruct (V2.validate_input_loop (V2.Σ A) (split input) [])
      as [[| | | |y|]|p2]; try contradiction; simpl; [auto|].
  subst p2.
  pose proof (run_loops_agree (V2.δ A) (V2.sink_nodes A) p1 (Str (V2.q0 A)))
    as Hr.
  destruct (V1.compute_loop (V2.δ A) (V2.sink_nodes A) p1 (Str (V2.q0 A)))
    as [[| | | | |]|s1];
    destruct (V2.read_loop (V2.δ A) (V2.sink_nodes A) p1 (Str (V2.q0 A)))
      as [[| | | | |]|s2]; try contradiction; simpl; auto.
  subst s2. auto.
Qed.
